(** * glow: incremental stream rendering

    A shallow embedding of the incremental renderer of glow
    (shouldRenderUpdate and the diff-patch step of
    renderIncrementalFromStdin in main.go, the termbuf type of
    termbuf.go) together with the parts of the Go standard library the
    code calls (package strings, package regexp, fmt.Fprint on an
    *os.File), and the properties of the specification checked against
    it.

    Go strings are byte sequences: they are modelled as [string], whose
    characters are the 8-bit [ascii]. *)

From Stdlib Require Import Bool Arith ZArith Lia List Ascii String.
From Stdlib Require DecimalString DecimalZ DecimalPos.
From Equations Require Import Equations.
Import ListNotations.

Local Open Scope string_scope.

(** ** Bytes and control characters *)

Definition byte (n : N) : ascii := ascii_of_N n.

Definition bytes (l : list N) : string := string_of_list_ascii (map byte l).

Definition TAB : ascii := byte 9.
Definition LF : ascii := byte 10.
Definition VT : ascii := byte 11.
Definition FF : ascii := byte 12.
Definition CR : ascii := byte 13.
Definition SP : ascii := byte 32.
Definition ESC : ascii := byte 27.

(** ** Package strings *)

Module strings.

(** [len(s) >= len(prefix) && s[:len(prefix)] == prefix] *)
Definition HasPrefix (s prefix : string) : bool :=
  (length prefix <=? length s)%nat
  && String.eqb (substring 0 (length prefix) s) prefix.

(** [if HasPrefix(s, prefix) { return s[len(prefix):] }; return s] *)
Definition TrimPrefix (s prefix : string) : string :=
  if HasPrefix s prefix
  then substring (length prefix) (length s - length prefix) s
  else s.

(** [Index(s, substr) >= 0]: substr starts at some offset of s. *)
Fixpoint Contains (s substr : string) : bool :=
  HasPrefix s substr
  || match s with
     | EmptyString => false
     | String _ s' => Contains s' substr
     end.

(** The left-to-right scan of Replace with n = -1: at an occurrence of
    [old] emit [new] and skip the occurrence, otherwise copy one byte.
    [skip] counts the bytes of the current occurrence still to drop, so
    that occurrences never overlap. *)
Fixpoint replaceScan (old new : string) (skip : nat) (s : string) : string :=
  match s with
  | EmptyString => EmptyString
  | String c s' =>
      match skip with
      | S k => replaceScan old new k s'
      | O =>
          if HasPrefix s old
          then new ++ replaceScan old new (length old - 1) s'
          else String c (replaceScan old new 0 s')
      end
  end.

(** ReplaceAll for a non-empty [old], the only use in the program; with
    an empty [old] Go interleaves [new] between the runes of [s], which
    is not modelled: the string is returned as it is. *)
Definition ReplaceAll (s old new : string) : string :=
  match old with
  | EmptyString => s
  | String _ _ => replaceScan old new 0 s
  end.

(** The six ASCII white-space bytes of the asciiSpace table. *)
Definition asciiSpace (c : ascii) : bool :=
  match N_of_ascii c with
  | 9%N | 10%N | 11%N | 12%N | 13%N | 32%N => true
  | _ => false
  end.

(** UTF-8 encodings of the code points for which unicode.IsSpace holds:
    the six ASCII ones, U+0085, U+00A0, U+1680, U+2000..U+200A, U+2028,
    U+2029, U+202F, U+205F and U+3000.  Each encoding is the only valid
    one of its code point, and no byte below 0x80 occurs inside a
    multi-byte one, so that decoding the first (last) rune of a string
    gives a white-space rune exactly when the string starts (ends) with
    one of these byte sequences. *)
Definition spaceRunes : list (list ascii) :=
  map (map byte)
    [ [9]; [10]; [11]; [12]; [13]; [32];
      [0xC2; 0x85]; [0xC2; 0xA0];
      [0xE1; 0x9A; 0x80];
      [0xE2; 0x80; 0x80]; [0xE2; 0x80; 0x81]; [0xE2; 0x80; 0x82];
      [0xE2; 0x80; 0x83]; [0xE2; 0x80; 0x84]; [0xE2; 0x80; 0x85];
      [0xE2; 0x80; 0x86]; [0xE2; 0x80; 0x87]; [0xE2; 0x80; 0x88];
      [0xE2; 0x80; 0x89]; [0xE2; 0x80; 0x8A];
      [0xE2; 0x80; 0xA8]; [0xE2; 0x80; 0xA9]; [0xE2; 0x80; 0xAF];
      [0xE2; 0x81; 0x9F];
      [0xE3; 0x80; 0x80] ]%N.

Fixpoint startsWith (s p : list ascii) : bool :=
  match p, s with
  | [], _ => true
  | c :: p', d :: s' => Ascii.eqb c d && startsWith s' p'
  | _ :: _, [] => false
  end.

(** Width in bytes of the white-space rune at the head of [s], 0 when
    the first rune is not white space (or [s] is empty). *)
Definition spaceWidth (runes : list (list ascii)) (s : list ascii) : nat :=
  match find (startsWith s) runes with
  | Some r => List.length r
  | None => 0
  end.

(** TrimLeftFunc(s, unicode.IsSpace) over the table [runes]. *)
Fixpoint trimLeft (runes : list (list ascii)) (skip : nat) (s : list ascii)
  : list ascii :=
  match s with
  | [] => []
  | _ :: s' =>
      match skip with
      | S k => trimLeft runes k s'
      | O =>
          match spaceWidth runes s with
          | O => s
          | S k => trimLeft runes k s'
          end
      end
  end.

(** TrimRightFunc(s, unicode.IsSpace): the same scan from the end. *)
Definition trimRight (s : list ascii) : list ascii :=
  rev (trimLeft (map (@rev ascii) spaceRunes) 0 (rev s)).

(** TrimSpace: leading white space is removed first, then trailing. *)
Definition TrimSpace (s : string) : string :=
  string_of_list_ascii
    (trimRight (trimLeft spaceRunes 0 (list_ascii_of_string s))).

End strings.

Arguments strings.ReplaceAll : simpl never.
Arguments strings.TrimSpace : simpl never.

(** ** Package regexp

    The regular expressions of the program use literals, character
    classes, concatenation, alternation and repetition, with [^] only
    at the start of a pattern.  A pattern is kept as syntax and matched
    with derivatives.  MatchString only asks whether some match exists,
    so the lazy [.*?] and the greedy [.*] coincide.  All literals are
    ASCII and [.] excludes only the line feed, hence matching byte by
    byte agrees with matching rune by rune. *)

Module regexp.

Inductive regex : Type :=
| Fail                      (* no string *)
| Eps                       (* the empty string *)
| Cls (p : ascii -> bool)   (* one byte of a class *)
| Cat (r1 r2 : regex)
| Alt (r1 r2 : regex)
| Star (r : regex).

(** The strings a regular expression denotes. *)
Inductive Matches : regex -> string -> Prop :=
| MEps : Matches Eps ""
| MCls p c : p c = true -> Matches (Cls p) (String c "")
| MCat r1 r2 s1 s2 : Matches r1 s1 -> Matches r2 s2 -> Matches (Cat r1 r2) (s1 ++ s2)
| MAltL r1 r2 s : Matches r1 s -> Matches (Alt r1 r2) s
| MAltR r1 r2 s : Matches r2 s -> Matches (Alt r1 r2) s
| MStar0 r : Matches (Star r) ""
| MStarS r s1 s2 : Matches r s1 -> Matches (Star r) s2 -> Matches (Star r) (s1 ++ s2).

Definition Chr (c : ascii) : regex := Cls (Ascii.eqb c).

Fixpoint Lit (s : string) : regex :=
  match s with
  | EmptyString => Eps
  | String c s' => Cat (Chr c) (Lit s')
  end.

(** [.]: any byte but the line feed. *)
Definition Dot : regex := Cls (fun c => negb (Ascii.eqb c LF)).

(** [\s]: the Perl class [\t\n\f\r ]. *)
Definition Space : regex :=
  Cls (fun c =>
         match N_of_ascii c with
         | 9%N | 10%N | 12%N | 13%N | 32%N => true
         | _ => false
         end).

(** [\d]: [0-9]. *)
Definition Digit : regex :=
  Cls (fun c => (48 <=? N_of_ascii c)%N && (N_of_ascii c <=? 57)%N).

Definition Plus (r : regex) : regex := Cat r (Star r).

Fixpoint Times (n : nat) (r : regex) : regex :=
  match n with
  | O => Eps
  | S k => Cat r (Times k r)
  end.

Fixpoint UpTo (n : nat) (r : regex) : regex :=
  match n with
  | O => Eps
  | S k => Alt Eps (Cat r (UpTo k r))
  end.

(** [r{min,}] *)
Definition AtLeast (min : nat) (r : regex) : regex := Cat (Times min r) (Star r).

(** [r{min,max}] *)
Definition Between (min max : nat) (r : regex) : regex :=
  Cat (Times min r) (UpTo (max - min) r).

Fixpoint nullable (r : regex) : bool :=
  match r with
  | Fail => false
  | Eps => true
  | Cls _ => false
  | Cat r1 r2 => nullable r1 && nullable r2
  | Alt r1 r2 => nullable r1 || nullable r2
  | Star _ => true
  end.

Fixpoint deriv (c : ascii) (r : regex) : regex :=
  match r with
  | Fail => Fail
  | Eps => Fail
  | Cls p => if p c then Eps else Fail
  | Cat r1 r2 =>
      if nullable r1
      then Alt (Cat (deriv c r1) r2) (deriv c r2)
      else Cat (deriv c r1) r2
  | Alt r1 r2 => Alt (deriv c r1) (deriv c r2)
  | Star r1 => Cat (deriv c r1) (Star r1)
  end.

(** Some prefix of [s] matches [r]. *)
Fixpoint matchPrefix (r : regex) (s : string) : bool :=
  nullable r
  || match s with
     | EmptyString => false
     | String c s' => matchPrefix (deriv c r) s'
     end.

(** Some substring of [s] matches [r]. *)
Fixpoint matchAnywhere (r : regex) (s : string) : bool :=
  matchPrefix r s
  || match s with
     | EmptyString => false
     | String _ s' => matchAnywhere r s'
     end.

(** A compiled pattern: the expression as written in the source,
    whether it begins with [^], and the syntax of the rest. *)
Record Regexp : Type :=
  MustCompile { expr : string; anchored : bool; body : regex }.

Definition MatchString (re : Regexp) (s : string) : bool :=
  if anchored re then matchPrefix (body re) s else matchAnywhere (body re) s.

End regexp.

(** ** main.go: the render trigger heuristic *)

Import regexp.

Definition cat (rs : list regex) : regex := fold_right Cat Eps rs.

(** The table [patterns] of shouldRenderUpdate, in the order of the
    source, each with its description. *)
Definition patterns : list (Regexp * string) :=
  [ (MustCompile "^\[.*?\]:\s+" true
       (cat [Lit "["; Star Dot; Lit "]:"; Plus Space]),
     "reference link");
    (MustCompile "^\[\^.*?\]:\s+" true
       (cat [Lit "[^"; Star Dot; Lit "]:"; Plus Space]),
     "footnote definition");
    (MustCompile "^<!--" true (Lit "<!--"), "HTML comment start");
    (MustCompile "-->" false (Lit "-->"), "HTML comment end");
    (MustCompile "^#{1,6}\s+" true
       (Cat (Between 1 6 (Lit "#")) (Plus Space)),
     "heading");
    (MustCompile "^(\*\s*){3,}" true
       (AtLeast 3 (Cat (Lit "*") (Star Space))),
     "horizontal rule");
    (MustCompile "^(\-\s*){3,}" true
       (AtLeast 3 (Cat (Lit "-") (Star Space))),
     "horizontal rule");
    (MustCompile "^(\_\s*){3,}" true
       (AtLeast 3 (Cat (Lit "_") (Star Space))),
     "horizontal rule");
    (MustCompile "^:::.*" true (Cat (Lit ":::") (Star Dot)),
     "fenced div start/end");
    (MustCompile "^\|.*\|" true (cat [Lit "|"; Star Dot; Lit "|"]),
     "table line");
    (MustCompile "^(\s*\*\s+|\s*\d+\.\s+|\s*-\s+)" true
       (Alt (cat [Star Space; Lit "*"; Plus Space])
          (Alt (cat [Star Space; Plus Digit; Lit "."; Plus Space])
               (cat [Star Space; Lit "-"; Plus Space]))),
     "list item") ].

(** [previousLines[i]]: indexing outside the slice panics, which is the
    result [None]. *)
Definition index (previousLines : list string) (i : Z) : option string :=
  if (i <? 0)%Z then None else nth_error previousLines (Z.to_nat i).

Definition fence : string := "```".

(** The loop [for i := len(previousLines) - 2; i >= 0; i--] of
    shouldRenderUpdate.  [k] is [i + 1]: the body runs at index [k - 1],
    and the loop is left, with the result [true] of the statement after
    it, when [k] is 0. *)
Fixpoint fenceScan (previousLines : list string) (k : nat) : option bool :=
  match k with
  | O => Some true
  | S k' =>
      match index previousLines (Z.of_nat k') with
      | None => None
      | Some line =>
          if String.eqb (strings.TrimSpace line) fence then Some false
          else if strings.HasPrefix (strings.TrimSpace line) fence then Some true
          else fenceScan previousLines k'
      end
  end.

(** shouldRenderUpdate; [None] is a run-time panic. *)
Definition shouldRenderUpdate (currentLine : string) (previousLines : list string)
  : option bool :=
  let len := Z.of_nat (List.length previousLines) in
  if (Z.rem len 10 =? 0)%Z then Some true
  else if existsb (fun p => MatchString (fst p) (strings.TrimSpace currentLine))
                  patterns
  then Some true
  else if String.eqb (strings.TrimSpace currentLine) fence
  then fenceScan previousLines (Z.to_nat (len - 2 + 1))
  else if (2 <=? len)%Z then
    match index previousLines (len - 2) with
    | None => None
    | Some line =>
        let prevLine := strings.TrimSpace line in
        if (String.eqb prevLine "" && strings.HasPrefix currentLine "|")
           || (strings.HasPrefix prevLine "|" && String.eqb currentLine "")
        then Some true
        else Some false
    end
  else Some false.

(** ** The operating system seen from the program

    Output goes through fmt.Fprint to an io.Writer, the terminal mode
    through golang.org/x/term.  The world records every call that
    is made on a file or a writer, in order, and decides from [faults]
    whether the next call fails. *)

Definition fd : Type := Z.

(** An io.Writer value: an *os.File, or a writer of another type. *)
Inductive Writer : Type :=
| File (f : fd)
| Other (id : nat).

(** term.State: the saved mode of a terminal. *)
Inductive State : Type := Cooked | Raw.

Inductive call : Type :=
| Write (w : Writer) (data : string)
| MakeRaw (f : fd)
| GetSize (f : fd)
| Setenv (key : string) (value : Z)
| Restore (f : fd) (st : State).

Inductive error : Type :=
| ErrInvalid                           (* os.ErrInvalid, from a nil *os.File *)
| Errno                                (* an error of the operating system *)
| Errorf (msg : string) (cause : error). (* fmt.Errorf(msg + ": %w", cause) *)

Record world : Type := mkWorld {
  log : list call;          (* the calls made so far, oldest first *)
  faults : list bool;       (* outcomes of the next calls, [true] fails *)
  tty : fd -> bool;         (* term.IsTerminal *)
  termMode : State;         (* current mode of the terminal *)
  winsize : Z * Z           (* width and height of the terminal *)
}.

(** The outcome of a Go call returning an error: a value, an error, or
    a run-time panic. *)
Inductive result (A : Type) : Type :=
| Ok (a : A)
| Err (e : error)
| Panic.
Arguments Ok {A} a.
Arguments Err {A} e.
Arguments Panic {A}.

(** One call to the operating system: it is logged, and fails when the
    head of [faults] says so. *)
Definition syscall (c : call) (env : world) : bool * world :=
  match faults env with
  | failed :: rest =>
      (negb failed,
       mkWorld (log env ++ [c]) rest (tty env) (termMode env) (winsize env))
  | [] =>
      (true, mkWorld (log env ++ [c]) [] (tty env) (termMode env) (winsize env))
  end.

Definition setMode (st : State) (env : world) : world :=
  mkWorld (log env) (faults env) (tty env) st (winsize env).

(** fmt.Fprint(w, s) for a non-nil writer. *)
Definition Fprint (w : Writer) (s : string) (env : world) : result unit * world :=
  let (ok, env') := syscall (Write w s) env in
  (if ok then Ok tt else Err Errno, env').

(** fmt.Fprint(f, s) for [f] of type *os.File: the methods of a nil
    *os.File return os.ErrInvalid without reaching the system. *)
Definition FprintFile (file : option fd) (s : string) (env : world)
  : result unit * world :=
  match file with
  | None => (Err ErrInvalid, env)
  | Some f => Fprint (File f) s env
  end.

(** term.MakeRaw(int(f.Fd())): returns the previous mode.  The
    descriptor of a nil *os.File is invalid: the call fails, and is not
    recorded. *)
Definition termMakeRaw (file : option fd) (env : world) : result State * world :=
  match file with
  | None => (Err Errno, env)
  | Some f =>
      let (ok, env') := syscall (MakeRaw f) env in
      if ok then (Ok (termMode env), setMode Raw env') else (Err Errno, env')
  end.

(** term.GetSize(int(f.Fd())) *)
Definition termGetSize (file : option fd) (env : world) : result (Z * Z) * world :=
  match file with
  | None => (Err Errno, env)
  | Some f =>
      let (ok, env') := syscall (GetSize f) env in
      (if ok then Ok (winsize env) else Err Errno, env')
  end.

(** os.Setenv(key, fmt.Sprintf("%d", value)); its error is dropped by
    the program. *)
Definition osSetenv (key : string) (value : Z) (env : world) : world :=
  mkWorld (log env ++ [Setenv key value]) (faults env) (tty env) (termMode env)
          (winsize env).

(** term.Restore(int(f.Fd()), state) dereferences [state]: a nil state
    panics. *)
Definition termRestore (file : option fd) (state : option State) (env : world)
  : result unit * world :=
  match state with
  | None => (Panic, env)
  | Some st =>
      match file with
      | None => (Err Errno, env)
      | Some f =>
          let (ok, env') := syscall (Restore f st) env in
          if ok then (Ok tt, setMode st env') else (Err Errno, env')
      end
  end.

(** ** termbuf.go *)

Record termbuf : Type := mkTermbuf {
  isActive : bool;
  isTerminal : bool;
  originalTerm : option State;   (* *term.State, nil until MakeRaw succeeds *)
  file : option fd               (* *os.File, nil when w is not a file *)
}.

(** Methods of *termbuf: they read and update the receiver and the
    world, and stop at the first error or panic. *)
Definition M (A : Type) : Type := termbuf -> world -> result A * termbuf * world.

Definition ret {A} (a : A) : M A := fun tb env => (Ok a, tb, env).

Definition bind {A B} (m : M A) (k : A -> M B) : M B :=
  fun tb env =>
    match m tb env with
    | (Ok a, tb', env') => k a tb' env'
    | (Err e, tb', env') => (Err e, tb', env')
    | (Panic, tb', env') => (Panic, tb', env')
    end.

Declare Scope go_scope.
Delimit Scope go_scope with go.
Notation "x <- m ;; k" := (bind m (fun x => k))
  (at level 61, m at next level, right associativity) : go_scope.
Notation "m ;; k" := (bind m (fun _ => k))
  (at level 61, right associativity) : go_scope.
Local Open Scope go_scope.

(** Read the receiver. *)
Definition self : M termbuf := fun tb env => (Ok tb, tb, env).

(** Assign the fields of the receiver. *)
Definition assign (f : termbuf -> termbuf) : M unit :=
  fun tb env => (Ok tt, f tb, env).

(** Run an operation of the world. *)
Definition sys {A} (op : world -> result A * world) : M A :=
  fun tb env => let (r, env') := op env in (r, tb, env').

(** [if err != nil { return fmt.Errorf(msg + ": %w", err) }] *)
Definition orFail {A} (msg : string) (m : M A) : M A :=
  fun tb env =>
    match m tb env with
    | (Err e, tb', env') => (Err (Errorf msg e), tb', env')
    | other => other
    end.

(** A call whose error is handled in place and does not end the
    method; the handler sees [Some err] or [None]. *)
Definition catch {A} (m : M A) : M (option A * option error) :=
  fun tb env =>
    match m tb env with
    | (Ok a, tb', env') => (Ok (Some a, None), tb', env')
    | (Err e, tb', env') => (Ok (None, Some e), tb', env')
    | (Panic, tb', env') => (Panic, tb', env')
    end.

Definition setActive (b : bool) (tb : termbuf) : termbuf :=
  mkTermbuf b (isTerminal tb) (originalTerm tb) (file tb).

Definition setOriginalTerm (st : option State) (tb : termbuf) : termbuf :=
  mkTermbuf (isActive tb) (isTerminal tb) st (file tb).

Definition esc (s : string) : string := String ESC s.

Definition enterAlt : string := esc "[?1049h".
Definition clearHome : string := esc "[2J" ++ esc "[H".
Definition wrapOn : string := esc "[?7h".
Definition hideCursor : string := esc "[?25l".
Definition showCursor : string := esc "[?25h".
Definition leaveAlt : string := esc "[?1049l".

Definition NL : string := String LF "".
Definition CRLF : string := String CR (String LF "").

Definition newTermbuf (w : Writer) (env : world) : termbuf :=
  match w with
  | File f => mkTermbuf false (tty env f) None (Some f)
  | Other _ => mkTermbuf false false None None
  end.

Definition enterAltScreen : M unit :=
  tb <- self ;;
  if negb (isTerminal tb) || isActive tb then ret tt
  else
    r <- catch (sys (termMakeRaw (file tb))) ;;
    assign (setOriginalTerm (fst r)) ;;
    match snd r with
    | Some err => fun tb env =>
        (Err (Errorf "failed to set terminal to raw mode" err), tb, env)
    | None =>
        sz <- catch (sys (termGetSize (file tb))) ;;
        match fst sz with
        | Some (width, height) =>
            sys (fun env => (Ok tt, osSetenv "LINES" height
                                      (osSetenv "COLUMNS" width env)))
        | None => ret tt
        end ;;
        orFail "failed to enter alternate screen"
          (sys (FprintFile (file tb) enterAlt)) ;;
        orFail "failed to clear screen"
          (sys (FprintFile (file tb) clearHome)) ;;
        orFail "failed to set line wrapping"
          (sys (FprintFile (file tb) wrapOn)) ;;
        orFail "failed to hide cursor"
          (sys (FprintFile (file tb) hideCursor)) ;;
        assign (setActive true)
    end.

Definition clear : M unit :=
  tb <- self ;;
  if isTerminal tb && isActive tb
  then catch (sys (FprintFile (file tb) clearHome)) ;; ret tt
  else ret tt.

Definition exitAltScreen : M unit :=
  tb <- self ;;
  if negb (isTerminal tb) || negb (isActive tb) then ret tt
  else
    orFail "failed to show cursor"
      (sys (FprintFile (file tb) showCursor)) ;;
    orFail "failed to exit alternate screen"
      (sys (FprintFile (file tb) leaveAlt)) ;;
    orFail "failed to restore terminal state"
      (sys (termRestore (file tb) (originalTerm tb))) ;;
    assign (setActive false).

Definition writeToAlt (content : string) : M unit :=
  tb <- self ;;
  if negb (isTerminal tb) || negb (isActive tb) then ret tt
  else
    let content := strings.ReplaceAll content NL CRLF in
    sys (FprintFile (file tb) content).

Definition finalOutput (content : string) : M unit :=
  tb <- self ;;
  if isTerminal tb && isActive tb then
    exitAltScreen ;;
    let content := strings.ReplaceAll content NL CRLF in
    sys (FprintFile (file tb) content)
  else
    sys (FprintFile (file tb) content).

Definition NL2 : string := NL ++ NL.
Definition NL3 : string := NL ++ NL ++ NL.

(** A value together with the proof that it is the value of [a]. *)
Definition inspect {A : Type} (a : A) : {b : A | a = b} := exist _ a eq_refl.

(** The loop of normalizeLineEndings:
    [for strings.Contains(text, "\n\n\n") { text = strings.ReplaceAll(text, "\n\n\n", "\n\n") }].
    Every pass removes at least one byte, which is why it ends. *)
Equations? collapseBlankLines (text : string) : string by wf (length text) lt :=
  collapseBlankLines text with inspect (strings.Contains text NL3) := {
    | exist _ true more => collapseBlankLines (strings.ReplaceAll text NL3 NL2)
    | exist _ false _ => text }.
Proof.
  unfold strings.ReplaceAll; simpl.
  assert (bound : forall s skip, (skip <= length s)%nat ->
            (length (strings.replaceScan NL3 NL2 skip s) + skip <= length s)%nat).
  { induction s as [|c s IH]; intros skip Hs; simpl in *; [lia|].
    destruct skip as [|k].
    - destruct (strings.HasPrefix (String c s) NL3) eqn:E.
      + unfold strings.HasPrefix in E. apply andb_prop in E as [E _].
        apply Nat.leb_le in E. simpl in E.
        change (NL2 ++ ?x) with (String LF (String LF x)). simpl.
        specialize (IH 2%nat ltac:(lia)). lia.
      + simpl. specialize (IH 0%nat ltac:(lia)). lia.
    - specialize (IH k ltac:(lia)). lia. }
  clear collapseBlankLines. revert more. induction text as [|c s IH]; simpl.
  - discriminate.
  - intros more. destruct (strings.HasPrefix (String c s) NL3) eqn:E.
    + unfold strings.HasPrefix in E. apply andb_prop in E as [E _].
      apply Nat.leb_le in E. simpl in E.
      change (NL2 ++ ?x) with (String LF (String LF x)). simpl.
      specialize (bound s 2%nat ltac:(lia)). lia.
    + simpl in more. simpl. specialize (IH more). lia.
Qed.

Definition normalizeLineEndings (text : string) : string :=
  let text := strings.ReplaceAll text CRLF NL in
  collapseBlankLines text.

(** ** main.go: the diff step of renderIncrementalFromStdin *)

(** First version (output written straight to [w]): the statements
    between the render and [lastOutput = newOutput]. *)
Definition writeUpdate (w : Writer) (lastOutput newOutput : string) (env : world)
  : result unit * world :=
  if negb (strings.HasPrefix newOutput lastOutput) then
    let (_, env1) := Fprint w clearHome env in
    match Fprint w newOutput env1 with
    | (Err e, env2) => (Err (Errorf "unable to write to writer" e), env2)
    | other => other
    end
  else
    let newContent := strings.TrimPrefix newOutput lastOutput in
    match Fprint w newContent env with
    | (Err e, env1) => (Err (Errorf "unable to write to writer" e), env1)
    | other => other
    end.

(** Second version (output shown on the alternate screen): the block
    [if tb.isActive { ... lastOutput = newOutput }].  Errors of
    writeToAlt are logged and dropped.  The result is the value of
    [lastOutput] after the block. *)
Definition updateAltScreen (lastOutput newOutput : string) : M string :=
  tb <- self ;;
  if isActive tb then
    (if negb (strings.HasPrefix newOutput lastOutput) then
       clear ;;
       catch (writeToAlt newOutput) ;; ret tt
     else
       let newContent := strings.TrimPrefix newOutput lastOutput in
       catch (writeToAlt newContent) ;; ret tt) ;;
    ret newOutput
  else ret lastOutput.

(** ** The contract of the diff-patch writer, in the words of the
    specification *)

Inductive Mode : Type := FullRepaint | Append.

Record PatchResult : Type := mkPatch { mode : Mode; payload : string }.

(** If [next] has [previous] as a literal prefix the mode is Append and
    the payload is [next[len(previous):]]; otherwise the mode is
    FullRepaint and the payload is [next] in full. *)
Definition Patch (previous next : string) : PatchResult :=
  if String.prefix previous next
  then mkPatch Append
         (substring (length previous) (length next - length previous) next)
  else mkPatch FullRepaint next.

(** What the first version writes for a patch result. *)
Definition emit (w : Writer) (p : PatchResult) (env : world) : result unit * world :=
  match mode p with
  | FullRepaint =>
      let (_, env1) := Fprint w clearHome env in
      match Fprint w (payload p) env1 with
      | (Err e, env2) => (Err (Errorf "unable to write to writer" e), env2)
      | other => other
      end
  | Append =>
      match Fprint w (payload p) env with
      | (Err e, env1) => (Err (Errorf "unable to write to writer" e), env1)
      | other => other
      end
  end.

(** What the second version shows for a patch result. *)
Definition emitAlt (p : PatchResult) : M unit :=
  match mode p with
  | FullRepaint => clear ;; catch (writeToAlt (payload p)) ;; ret tt
  | Append => catch (writeToAlt (payload p)) ;; ret tt
  end.

(** The bytes handed to writer [w] by the calls of a log, in order. *)
Definition sameWriter (a b : Writer) : bool :=
  match a, b with
  | File f, File g => (f =? g)%Z
  | Other i, Other j => (i =? j)%nat
  | _, _ => false
  end.

Fixpoint written (w : Writer) (calls : list call) : string :=
  match calls with
  | [] => ""
  | Write w' data :: rest =>
      if sameWriter w w' then data ++ written w rest else written w rest
  | _ :: rest => written w rest
  end.

(** ** The stream loop seen by the trigger heuristic *)

(** The first statements of the loop body of renderIncrementalFromStdin:
    [previousLines = append(previousLines, line)] and then
    [shouldRender := shouldRenderUpdate(line, previousLines)], for each
    line of the input in turn. *)
Fixpoint feed (previousLines : list string) (input : list string)
  : list (option bool) :=
  match input with
  | [] => []
  | line :: rest =>
      let previousLines := (previousLines ++ [line])%list in
      shouldRenderUpdate line previousLines :: feed previousLines rest
  end.

(** A line whose trimmed text starts with three backticks. *)
Definition isFence (line : string) : bool :=
  strings.HasPrefix (strings.TrimSpace line) fence.

(** The lines of the history before the current one: [previousLines]
    without its last element. *)
Definition earlier (previousLines : list string) : list string :=
  removelast previousLines.

(** ** Sequences of termbuf operations *)

Inductive op : Type :=
| OpEnter
| OpClear
| OpWrite (content : string)
| OpExit
| OpFinal (content : string).

Definition runOp (o : op) : M unit :=
  match o with
  | OpEnter => enterAltScreen
  | OpClear => clear
  | OpWrite content => writeToAlt content
  | OpExit => exitAltScreen
  | OpFinal content => finalOutput content
  end.

(** The caller logs the errors and goes on; a panic ends the program. *)
Fixpoint run (ops : list op) (tb : termbuf) (env : world) : termbuf * world :=
  match ops with
  | [] => (tb, env)
  | o :: rest =>
      match runOp o tb env with
      | (Panic, tb', env') => (tb', env')
      | (_, tb', env') => run rest tb' env'
      end
  end.

Fixpoint finals (ops : list op) : list string :=
  match ops with
  | [] => []
  | OpFinal content :: rest => content :: finals rest
  | _ :: rest => finals rest
  end.

(** The termbuf is usable: a terminal has a file, and an active surface
    is on a terminal and has a saved mode to restore. *)
Definition wellFormed (tb : termbuf) : Prop :=
  (isTerminal tb = true -> file tb <> None)
  /\ (isActive tb = true -> isTerminal tb = true /\ originalTerm tb <> None).

(** The results of the operations of a sequence, up to a panic. *)
Fixpoint outcomes (ops : list op) (tb : termbuf) (env : world)
  : list (result unit) :=
  match ops with
  | [] => []
  | o :: rest =>
      match runOp o tb env with
      | (Panic, _, _) => [Panic]
      | (r, tb', env') => r :: outcomes rest tb' env'
      end
  end.

(** The invariant of the terminal surface. *)
Definition activeOnTerminal (tb : termbuf) : Prop :=
  isActive tb = true -> isTerminal tb = true.

(** A method is stable when it leaves [isTerminal] and [file] as they
    are: newTermbuf sets them and no method assigns them. *)
Definition stable {A : Type} (m : M A) : Prop :=
  forall tb env,
    isTerminal (snd (fst (m tb env))) = isTerminal tb
    /\ file (snd (fst (m tb env))) = file tb.

(** The outcome of the [n]-th coming call of the world. *)
Definition fails (n : nat) (env : world) : bool := nth n (faults env) false.

(** The number of fence lines before the current line is odd. *)
Definition oddFencesBefore (previousLines : list string) : bool :=
  Nat.odd (List.length (filter isFence (earlier previousLines))).

(** Worlds of the examples: standard output is a pipe, or a terminal
    in its usual mode. *)
Definition stdout : Writer := File 1%Z.
Definition pipeWorld : world := mkWorld [] [] (fun _ => false) Cooked (80, 24)%Z.
Definition ttyWorld : world := mkWorld [] [] (fun _ => true) Cooked (80, 24)%Z.

(** A terminal on which the seventh call fails: the six calls of
    enterAltScreen succeed, the next one does not. *)
Definition flakyWorld : world :=
  mkWorld [] [false; false; false; false; false; false; true]
          (fun _ => true) Cooked (80, 24)%Z.

(** The start of renderIncrementalFromStdin on standard output:
    [tb := newTermbuf(w)] and [tb.enterAltScreen()]. *)
Definition entered (env : world) : termbuf * world :=
  let '(_, tb, env') := enterAltScreen (newTermbuf stdout env) env in (tb, env').

(** ** main.go: rendering, and the loops of renderIncrementalFromStdin *)

(** What the program uses of glamour and of the utils package: the
    error of glamour.NewTermRenderer, the method Render of the
    renderer, utils.RemoveFrontmatter, the value of
    utils.IsMarkdownFile(src.URL), and utils.WrapCodeBlock at the
    extension of src.URL. *)
Record Renderer : Type := mkRenderer {
  NewTermRenderer : option error;
  Render : string -> result string;
  RemoveFrontmatter : string -> string;
  IsMarkdownFile : bool;
  WrapCodeBlock : string -> string
}.

Definition setupRenderer (r : Renderer) : result unit :=
  match NewTermRenderer r with
  | Some err => Err (Errorf "unable to create renderer" err)
  | None => Ok tt
  end.

Definition renderContentIncremental (r : Renderer) (content : string)
  : result string :=
  let contentWithoutFrontmatter := RemoveFrontmatter r content in
  let contentStr := contentWithoutFrontmatter in
  let isCode := negb (IsMarkdownFile r) in
  let contentStr := if isCode then WrapCodeBlock r contentStr else contentStr in
  match Render r contentStr with
  | Err err => Err (Errorf "unable to render markdown" err)
  | other => other
  end.

(** renderContent: render once and write the result. *)
Definition renderContent (r : Renderer) (content : string) (w : Writer)
           (env : world) : result unit * world :=
  match renderContentIncremental r content with
  | Ok out =>
      match Fprint w out env with
      | (Err err, env') => (Err (Errorf "unable to write to writer" err), env')
      | other => other
      end
  | Err err => (Err err, env)
  | Panic => (Panic, env)
  end.

(** The text accumulated in [buffer] after the lines of [input]: each
    line followed by a line feed. *)
Fixpoint joined (input : list string) : string :=
  match input with
  | [] => ""
  | line :: rest => line ++ NL ++ joined rest
  end.

(** First version of renderIncrementalFromStdin.  The scanner is given
    by the lines it returns and the error of scanner.Err() after the
    last one. *)
Module Plain.

(** [for scanner.Scan() { ... }], from the values of [buffer],
    [previousLines] and [lastOutput]; the result is the final value of
    [buffer] and of [lastOutput]. *)
Fixpoint loop (r : Renderer) (w : Writer) (input : list string)
         (buffer : string) (previousLines : list string) (lastOutput : string)
         (env : world) : result (string * string) * world :=
  match input with
  | [] => (Ok (buffer, lastOutput), env)
  | line :: rest =>
      let buffer := buffer ++ line ++ NL in
      let previousLines := (previousLines ++ [line])%list in
      match shouldRenderUpdate line previousLines with
      | None => (Panic, env)
      | Some false => loop r w rest buffer previousLines lastOutput env
      | Some true =>
          match renderContentIncremental r buffer with
          | Ok newOutput =>
              match writeUpdate w lastOutput newOutput env with
              | (Ok _, env') => loop r w rest buffer previousLines newOutput env'
              | (Err err, env') => (Err err, env')
              | (Panic, env') => (Panic, env')
              end
          | Err err => (Err err, env)
          | Panic => (Panic, env)
          end
      end
  end.

Definition renderIncrementalFromStdin (r : Renderer) (w : Writer)
           (input : list string) (scanErr : option error) (env : world)
  : result unit * world :=
  match setupRenderer r with
  | Err err => (Err err, env)
  | Panic => (Panic, env)
  | Ok _ =>
      match loop r w input "" [] "" env with
      | (Err err, env') => (Err err, env')
      | (Panic, env') => (Panic, env')
      | (Ok (buffer, lastOutput), env') =>
          match scanErr with
          | Some err => (Err (Errorf "error reading from stdin" err), env')
          | None =>
              match renderContentIncremental r buffer with
              | Err err => (Err err, env')
              | Panic => (Panic, env')
              | Ok newOutput =>
                  if negb (String.eqb newOutput lastOutput)
                  then writeUpdate w lastOutput newOutput env'
                  else (Ok tt, env')
              end
          end
      end
  end.

End Plain.

(** Second version of renderIncrementalFromStdin, on the alternate
    screen.  Each line of the input comes with the outcome of the
    [select] that follows it: whether a signal of the inactivity
    goroutine was received and more than inactivityTimeout had passed
    since the line was read. *)
Module Alt.

(** The branch [case <-timeoutChan] when its condition holds. *)
Definition onTimeout (r : Renderer) (buffer lastOutput finalOutput : string)
  : M (string * string) :=
  if negb (String.eqb buffer "") then
    match renderContentIncremental r buffer with
    | Err err => fun tb env => (Err err, tb, env)
    | Panic => fun tb env => (Panic, tb, env)
    | Ok newOutput =>
        tb <- self ;;
        if isActive tb then
          if negb (String.eqb newOutput lastOutput) then
            (if negb (strings.HasPrefix newOutput lastOutput) then
               clear ;;
               catch (writeToAlt newOutput) ;; ret tt
             else
               let newContent := strings.TrimPrefix newOutput lastOutput in
               catch (writeToAlt newContent) ;; ret tt) ;;
            ret (newOutput, newOutput)
          else ret (lastOutput, newOutput)
        else ret (lastOutput, newOutput)
    end
  else ret (lastOutput, finalOutput).

(** The loop [for { hasMore := scanner.Scan() ... }] up to the end of
    the input; the result is the final value of [buffer]. *)
Fixpoint loop (r : Renderer) (input : list (string * bool))
         (buffer : string) (previousLines : list string)
         (lastOutput finalOutput : string) : M string :=
  match input with
  | [] => ret buffer
  | (line, stalled) :: rest =>
      let buffer := buffer ++ line ++ NL in
      let previousLines := (previousLines ++ [line])%list in
      match shouldRenderUpdate line previousLines with
      | None => fun tb env => (Panic, tb, env)
      | Some shouldRender =>
          outs <-
            (if shouldRender then
               match renderContentIncremental r buffer with
               | Err err => fun tb env => (Err err, tb, env)
               | Panic => fun tb env => (Panic, tb, env)
               | Ok newOutput =>
                   lastOutput <- updateAltScreen lastOutput newOutput ;;
                   ret (lastOutput, newOutput)
               end
             else ret (lastOutput, finalOutput)) ;;
          outs <-
            (if stalled
             then onTimeout r buffer (fst outs) (snd outs)
             else ret outs) ;;
          loop r rest buffer previousLines (fst outs) (snd outs)
      end
  end.

(** The body of the function after [tb.enterAltScreen()] and the
    [defer]: the renderer, the loop, the final render and
    finalOutput. *)
Definition body (r : Renderer) (input : list (string * bool))
           (scanErr : option error) : M unit :=
  match setupRenderer r with
  | Err err => fun tb env => (Err err, tb, env)
  | Panic => fun tb env => (Panic, tb, env)
  | Ok _ =>
      buffer <- loop r input "" [] "" "" ;;
      match scanErr with
      | Some err => fun tb env =>
          (Err (Errorf "error reading from stdin" err), tb, env)
      | None =>
          match renderContentIncremental r buffer with
          | Err err => fun tb env => (Err err, tb, env)
          | Panic => fun tb env => (Panic, tb, env)
          | Ok newOutput =>
              orFail "failed to output final content" (finalOutput newOutput)
          end
      end
  end.

(** [defer func() { tb.exitAltScreen() }()]: exitAltScreen runs when
    the body returns or panics; its error is logged and dropped. *)
Definition deferExit (m : M unit) : M unit :=
  fun tb env =>
    match m tb env with
    | (res, tb', env') =>
        match exitAltScreen tb' env' with
        | (Panic, tb'', env'') => (Panic, tb'', env'')
        | (_, tb'', env'') => (res, tb'', env'')
        end
    end.

(** renderIncrementalFromStdin.  The loader is a goroutine that writes
    to [w] on its own; runs that start it ([useLoader] on an active
    surface) are not described, and the result is [None]. *)
Definition renderIncrementalFromStdin (r : Renderer) (w : Writer)
           (useLoader : bool) (input : list (string * bool))
           (scanErr : option error) (env : world)
  : option (result unit * termbuf * world) :=
  let tb := newTermbuf w env in
  match catch enterAltScreen tb env with
  | (Panic, tb', env') => Some (Panic, tb', env')
  | (_, tb', env') =>
      if useLoader && isActive tb' then None
      else Some (deferExit (body r input scanErr) tb' env')
  end.

End Alt.

(** A renderer that returns its input. *)
Definition echo : Renderer :=
  mkRenderer None (fun s => Ok s) (fun s => s) true (fun s => s).

(** What stands on a screen that received [out]: the render [shown],
    alone or after a clear-and-home sequence. *)
Definition shows (out shown : string) : Prop :=
  out = shown \/ exists pre, out = pre ++ clearHome ++ shown.

(** A renderer is additive when the render of a longer text starts with
    the render of the text. *)
Definition additive (r : Renderer) : Prop :=
  forall a b x y,
    renderContentIncremental r a = Ok x ->
    renderContentIncremental r (a ++ b) = Ok y ->
    strings.HasPrefix y x = true.

(** The surface entered on terminal [f], whose mode was [m0]. *)
Definition Entered (f : fd) (m0 : State) (tb : termbuf) (env : world) : Prop :=
  tb = mkTermbuf true true (Some m0) (Some f)
  /\ faults env = [] /\ termMode env = Raw.

(** The surface left, the terminal back in mode [m0]. *)
Definition Left (m0 : State) (tb : termbuf) (env : world) : Prop :=
  isActive tb = false /\ faults env = [] /\ termMode env = m0.

(** A method keeps a property of the termbuf and the world. *)
Definition keeps {A : Type} (P : termbuf -> world -> Prop) (m : M A) : Prop :=
  forall tb env, P tb env -> P (snd (fst (m tb env))) (snd (m tb env)).

(** The termbuf and the world are [tb0] and [env0]. *)
Definition Same (tb0 : termbuf) (env0 : world) (tb : termbuf) (env : world)
  : Prop :=
  tb = tb0 /\ env = env0.

(** CR CR LF, the text from which replacing CR LF by LF makes a new
    CR LF. *)
Definition CRCRLF : string := String CR CRLF.

(** ** The shapes of the lines that the patterns match *)

(** The class [\s] of the patterns, [.] and [\d]. *)
Definition spaceClass (c : ascii) : bool :=
  match N_of_ascii c with
  | 9%N | 10%N | 12%N | 13%N | 32%N => true
  | _ => false
  end.

Definition dotClass (c : ascii) : bool := negb (Ascii.eqb c LF).

Definition digitClass (c : ascii) : bool :=
  (48 <=? N_of_ascii c)%N && (N_of_ascii c <=? 57)%N.

(** Every byte of the string is in the class. *)
Fixpoint allb (p : ascii -> bool) (s : string) : bool :=
  match s with
  | EmptyString => true
  | String c s' => p c && allb p s'
  end.

(** [n] copies of a byte. *)
Fixpoint copies (c : ascii) (n : nat) : string :=
  match n with
  | O => ""
  | S k => String c (copies c k)
  end.

(** The lines of markdown that the table [patterns] is written for,
    by their shape. *)
Inductive Structural : string -> Prop :=
| ReferenceLink mid w rest :
    allb dotClass mid = true -> spaceClass w = true ->
    Structural ("[" ++ mid ++ "]:" ++ String w rest)
| CommentStart rest : Structural ("<!--" ++ rest)
| CommentEnd before rest : Structural (before ++ "-->" ++ rest)
| Heading n w rest :
    (1 <= n <= 6)%nat -> spaceClass w = true ->
    Structural (copies "#" n ++ String w rest)
| HorizontalRule c w1 w2 rest :
    c = "*"%char \/ c = "-"%char \/ c = "_"%char ->
    allb spaceClass w1 = true -> allb spaceClass w2 = true ->
    Structural (String c w1 ++ String c w2 ++ String c rest)
| FencedDiv rest : Structural (":::" ++ rest)
| TableLine mid rest :
    allb dotClass mid = true -> Structural ("|" ++ mid ++ "|" ++ rest)
| BulletItem lead c w rest :
    c = "*"%char \/ c = "-"%char ->
    allb spaceClass lead = true -> spaceClass w = true ->
    Structural (lead ++ String c (String w rest))
| NumberedItem lead d ds w rest :
    allb spaceClass lead = true -> allb digitClass (String d ds) = true ->
    spaceClass w = true ->
    Structural (lead ++ String d ds ++ "." ++ String w rest).

(** The second rule of shouldRenderUpdate: some pattern matches the
    line. *)
Definition matchesPattern (line : string) : bool :=
  existsb (fun p => MatchString (fst p) line) patterns.

(** Some byte of the string is in the class. *)
Fixpoint anyb (p : ascii -> bool) (s : string) : bool :=
  match s with
  | EmptyString => false
  | String c s' => p c || anyb p s'
  end.

(** The bytes one of which every structural line holds. *)
Definition markup (c : ascii) : bool :=
  anyb (Ascii.eqb c) "[<-#*_:|.".

(** ** loader.go *)

(** time.Duration and time.Time in nanoseconds. *)
Definition Millisecond : Z := 1000000.

(** [xs[i]] for a slice of strings: outside the slice it panics. *)
Definition at_ (xs : list string) (i : Z) : result string :=
  if (i <? 0)%Z then Panic
  else match nth_error xs (Z.to_nat i) with
       | Some x => Ok x
       | None => Panic
       end.

(** [a % b] on int: a zero divisor panics. *)
Definition modulo (a b : Z) : result Z :=
  if (b =? 0)%Z then Panic else Ok (Z.rem a b).

(** What the goroutine of an animation receives in one round of its
    [select]: the closed stopChan, a value of msgChan, or a tick, the
    last two with the time at which they are handled. *)
Inductive event : Type :=
| Stopped
| Message (now : Z)
| Tick (now : Z).

(** The sequence written before a frame and on stop: carriage return,
    erase line. *)
Definition clearLine : string := String CR (esc "[K").

Module loader.

Definition loaderDots : Z := 0.
Definition loaderBraille : Z := 1.

Record loader : Type := mkLoader {
  loaderType : Z;
  frames : list string;
  current : Z;
  active : bool;
  lastUpdate : Z;
  msgChan : nat;       (* values waiting in the channel, of capacity 1 *)
  stopChan : bool      (* whether the channel is closed *)
}.

(** newLoader at time [now]. *)
Definition newLoader (lt : Z) (now : Z) : loader :=
  let frames :=
    if (lt =? loaderDots)%Z then ["."; ".."; "..."; ""]
    else if (lt =? loaderBraille)%Z
         then ["⠋"; "⠙"; "⠹"; "⠸"; "⠼"; "⠴"; "⠦"; "⠧"; "⠇"; "⠏"]
         else [] in
  mkLoader lt frames 0 false now 0 false.

(** start: the goroutine it launches is [animate] below. *)
Definition start (l : loader) : loader :=
  mkLoader (loaderType l) (frames l) (current l) true (lastUpdate l)
           (msgChan l) (stopChan l).

(** update: a send that does not block; the value is dropped when the
    channel is full. *)
Definition update (l : loader) : loader :=
  if active l then
    if (msgChan l <? 1)%nat
    then mkLoader (loaderType l) (frames l) (current l) (active l) (lastUpdate l)
                  (S (msgChan l)) (stopChan l)
    else l
  else l.

(** stop: closing a closed channel panics. *)
Definition stop (l : loader) : result loader :=
  if active l then
    if stopChan l then Panic
    else Ok (mkLoader (loaderType l) (frames l) (current l) false (lastUpdate l)
                      (msgChan l) true)
  else Ok l.

(** Whether the goroutine can receive the event. *)
Definition ready (ev : event) (l : loader) : bool :=
  match ev with
  | Stopped => stopChan l
  | Message _ => (0 <? msgChan l)%nat
  | Tick _ => true
  end.

(** One round of the loop of the goroutine; [None] when it returns. *)
Definition animate (w : Writer) (ev : event) (l : loader) (env : world)
  : result (option loader) * world :=
  match ev with
  | Stopped =>
      let (_, env') := Fprint w clearLine env in (Ok None, env')
  | Message now =>
      (Ok (Some (mkLoader (loaderType l) (frames l) (current l) (active l) now
                          (Nat.pred (msgChan l)) (stopChan l))), env)
  | Tick now =>
      if (20 * Millisecond <? now - lastUpdate l)%Z then
        match modulo (current l + 1) (Z.of_nat (List.length (frames l))) with
        | Ok current' =>
            match at_ (frames l) current' with
            | Ok frame =>
                let (_, env') := Fprint w (clearLine ++ frame) env in
                (Ok (Some (mkLoader (loaderType l) (frames l) current' (active l)
                                    (lastUpdate l) (msgChan l) (stopChan l))),
                 env')
            | Err e => (Err e, env)
            | Panic => (Panic, env)
            end
        | Err e => (Err e, env)
        | Panic => (Panic, env)
        end
      else (Ok (Some l), env)
  end.

(** The calls of the methods and the rounds of the goroutines, as they
    interleave. *)
Inductive action : Type :=
| Start
| Update
| Stop
| Round (ev : event).

(** A run of a loader with [goroutines] animation goroutines alive.  A
    round is taken by one of them, when there is one and it can
    receive the event; otherwise nothing happens. *)
Fixpoint run (w : Writer) (acts : list action) (l : loader) (goroutines : nat)
         (env : world) : result (loader * nat) * world :=
  match acts with
  | [] => (Ok (l, goroutines), env)
  | Start :: rest => run w rest (start l) (S goroutines) env
  | Update :: rest => run w rest (update l) goroutines env
  | Stop :: rest =>
      match stop l with
      | Ok l' => run w rest l' goroutines env
      | Err e => (Err e, env)
      | Panic => (Panic, env)
      end
  | Round ev :: rest =>
      if (0 <? goroutines)%nat && ready ev l then
        match animate w ev l env with
        | (Ok (Some l'), env') => run w rest l' goroutines env'
        | (Ok None, env') => run w rest l (Nat.pred goroutines) env'
        | (Err e, env') => (Err e, env')
        | (Panic, env') => (Panic, env')
        end
      else run w rest l goroutines env
  end.

(** The number of calls of start in a run. *)
Fixpoint starts (acts : list action) : nat :=
  match acts with
  | [] => 0
  | Start :: rest => S (starts rest)
  | _ :: rest => starts rest
  end.

End loader.

(** The frame index is inside the table of frames. *)
Definition inFrames (l : loader.loader) : Prop :=
  (0 <= loader.current l < Z.of_nat (List.length (loader.frames l)))%Z.

(** Actions that neither start nor stop the loader. *)
Definition quiet (acts : list loader.action) : bool :=
  forallb (fun a => match a with
                    | loader.Update | loader.Round _ => true
                    | _ => false
                    end) acts.

(** Rounds of the goroutine that receive the ticks at the given times. *)
Definition ticks (ts : list Z) : list loader.action :=
  map (fun t => loader.Round (Tick t)) ts.

(** The frame at an index counted around the table. *)
Definition frameAt (l : loader.loader) (i : Z) : string :=
  nth (Z.to_nat (i mod Z.of_nat (List.length (loader.frames l))))
      (loader.frames l) "".

(** ** spinner.go: the spinner *)

Module spinner.

(** SpinnerType is a string. *)
Definition SpinnerType : Type := string.

Definition SpinnerDots : SpinnerType := "dots".
Definition SpinnerDots2 : SpinnerType := "dots2".
Definition SpinnerDots3 : SpinnerType := "dots3".
Definition SpinnerDots4 : SpinnerType := "dots4".
Definition SpinnerDots5 : SpinnerType := "dots5".
Definition SpinnerDots6 : SpinnerType := "dots6".
Definition SpinnerDots7 : SpinnerType := "dots7".
Definition SpinnerDots8 : SpinnerType := "dots8".
Definition SpinnerDots9 : SpinnerType := "dots9".
Definition SpinnerDots10 : SpinnerType := "dots10".
Definition SpinnerDots11 : SpinnerType := "dots11".
Definition SpinnerDots12 : SpinnerType := "dots12".
Definition SpinnerDots13 : SpinnerType := "dots13".
Definition SpinnerLine : SpinnerType := "line".
Definition SpinnerLine2 : SpinnerType := "line2".
Definition SpinnerPipe : SpinnerType := "pipe".
Definition SpinnerSimpleDots : SpinnerType := "simpleDots".
Definition SpinnerStar : SpinnerType := "star".
Definition SpinnerStar2 : SpinnerType := "star2".
Definition SpinnerFlip : SpinnerType := "flip".
Definition SpinnerBalloon : SpinnerType := "balloon".
Definition SpinnerBalloon2 : SpinnerType := "balloon2".
Definition SpinnerNoise : SpinnerType := "noise".
Definition SpinnerBounce : SpinnerType := "bounce".
Definition SpinnerBoxBounce : SpinnerType := "boxBounce".
Definition SpinnerCircle : SpinnerType := "circle".
Definition SpinnerSquareCorners : SpinnerType := "squareCorners".
Definition SpinnerCircleHalves : SpinnerType := "circleHalves".
Definition SpinnerToggle : SpinnerType := "toggle".
Definition SpinnerArrow : SpinnerType := "arrow".
Definition SpinnerBouncingBar : SpinnerType := "bouncingBar".
Definition SpinnerBouncingBall : SpinnerType := "bouncingBall".
Definition SpinnerBinary : SpinnerType := "binary".

(** The one-byte string of a backslash. *)
Definition backslash : string := String (ascii_of_nat 92) "".

Record spinnerDefinition : Type := mkDefinition {
  Interval : Z;
  Frames : list string
}.

(** The map spinnerDefinitions, in the order of the source. *)
Definition spinnerDefinitions : list (SpinnerType * spinnerDefinition) :=
  [(SpinnerDots,
    mkDefinition (60 * Millisecond)%Z
      ["⠋"; "⠙"; "⠹"; "⠸"; "⠼"; "⠴"; "⠦"; "⠧"; "⠇"; "⠏"]);
   (SpinnerDots2,
    mkDefinition (60 * Millisecond)%Z
      ["⣾"; "⣽"; "⣻"; "⢿"; "⡿"; "⣟"; "⣯"; "⣷"]);
   (SpinnerDots3,
    mkDefinition (60 * Millisecond)%Z
      ["⠋"; "⠙"; "⠚"; "⠞"; "⠖"; "⠦"; "⠴"; "⠲"; "⠳"; "⠓"]);
   (SpinnerDots4,
    mkDefinition (60 * Millisecond)%Z
      ["⠄"; "⠆"; "⠇"; "⠋"; "⠙"; "⠸"; "⠰"; "⠠"; "⠰"; "⠸"; "⠙"; "⠋"; "⠇"; "⠆"]);
   (SpinnerLine,
    mkDefinition (115 * Millisecond)%Z
      ["-"; backslash; "|"; "/"]);
   (SpinnerLine2,
    mkDefinition (75 * Millisecond)%Z
      ["⠂"; "-"; "–"; "—"; "–"; "-"]);
   (SpinnerPipe,
    mkDefinition (75 * Millisecond)%Z
      ["┤"; "┘"; "┴"; "└"; "├"; "┌"; "┬"; "┐"]);
   (SpinnerSimpleDots,
    mkDefinition (200 * Millisecond)%Z
      [".  "; ".. "; "..."; "   "]);
   (SpinnerStar,
    mkDefinition (80 * Millisecond)%Z
      ["✶"; "✸"; "✹"; "✺"; "✹"; "✷"]);
   (SpinnerBounce,
    mkDefinition (80 * Millisecond)%Z
      ["⠁"; "⠂"; "⠄"; "⠂"]);
   (SpinnerBoxBounce,
    mkDefinition (80 * Millisecond)%Z
      ["▖"; "▘"; "▝"; "▗"]);
   (SpinnerCircle,
    mkDefinition (60 * Millisecond)%Z
      ["◡"; "⊙"; "◠"]);
   (SpinnerCircleHalves,
    mkDefinition (60 * Millisecond)%Z
      ["◐"; "◓"; "◑"; "◒"]);
   (SpinnerToggle,
    mkDefinition (175 * Millisecond)%Z
      ["⊶"; "⊷"]);
   (SpinnerArrow,
    mkDefinition (100 * Millisecond)%Z
      ["←"; "↖"; "↑"; "↗"; "→"; "↘"; "↓"; "↙"]);
   (SpinnerBouncingBar,
    mkDefinition (60 * Millisecond)%Z
      ["[    ]"; "[=   ]"; "[==  ]"; "[=== ]"; "[====]"; "[ ===]"; "[  ==]"; "[   =]"; "[    ]"; "[   =]"; "[  ==]"; "[ ===]"; "[====]"; "[=== ]"; "[==  ]"; "[=   ]"]);
   (SpinnerBouncingBall,
    mkDefinition (60 * Millisecond)%Z
      [" ●    "; "  ●   "; "   ●  "; "    ● "; "     ●"; "    ● "; "   ●  "; "  ●   "; " ●    "; "●     "]);
   (SpinnerBinary,
    mkDefinition (60 * Millisecond)%Z
      ["010010"; "001100"; "100101"; "111010"; "111101"; "010111"; "101011"; "111000"; "110011"; "110101"])].

Fixpoint lookup (st : SpinnerType) (m : list (SpinnerType * spinnerDefinition))
  : option spinnerDefinition :=
  match m with
  | [] => None
  | (k, d) :: rest => if String.eqb st k then Some d else lookup st rest
  end.

(** [m[st]]: the zero value when the key is missing. *)
Definition index (m : list (SpinnerType * spinnerDefinition)) (st : SpinnerType)
  : spinnerDefinition :=
  match lookup st m with
  | Some d => d
  | None => mkDefinition 0 []
  end.

Record Spinner : Type := mkSpinner {
  definition : spinnerDefinition;
  current : Z;
  active : bool;
  lastUpdate : Z;
  msgChan : nat;       (* values waiting in the channel, of capacity 1 *)
  stopChan : bool;     (* whether the channel is closed *)
  styled : bool
}.

(** NewSpinner at time [now]. *)
Definition NewSpinner (st : SpinnerType) (now : Z) : Spinner :=
  let def :=
    match lookup st spinnerDefinitions with
    | Some def => def
    | None => index spinnerDefinitions SpinnerDots
    end in
  mkSpinner def 0 false now 0 false true.

(** Start.  The goroutine it launches begins with time.NewTicker, which
    panics on an interval that is not positive; its loop is [animate]
    below. *)
Definition Start (s : Spinner) : result Spinner :=
  if (Interval (definition s) <=? 0)%Z then Panic
  else Ok (mkSpinner (definition s) (current s) true (lastUpdate s)
                     (msgChan s) (stopChan s) (styled s)).

Definition Update (s : Spinner) : Spinner :=
  if active s then
    if (msgChan s <? 1)%nat
    then mkSpinner (definition s) (current s) (active s) (lastUpdate s)
                   (S (msgChan s)) (stopChan s) (styled s)
    else s
  else s.

Definition Stop (s : Spinner) : result Spinner :=
  if active s then
    if stopChan s then Panic
    else Ok (mkSpinner (definition s) (current s) false (lastUpdate s)
                       (msgChan s) true (styled s))
  else Ok s.

Definition DisableStyling (s : Spinner) : Spinner :=
  mkSpinner (definition s) (current s) (active s) (lastUpdate s)
            (msgChan s) (stopChan s) false.

Definition EnableStyling (s : Spinner) : Spinner :=
  mkSpinner (definition s) (current s) (active s) (lastUpdate s)
            (msgChan s) (stopChan s) true.

Definition GetSpinnerType (spinnerStyle : string) : SpinnerType :=
  if String.eqb spinnerStyle "dots" then SpinnerDots
  else if String.eqb spinnerStyle "dots2" then SpinnerDots2
  else if String.eqb spinnerStyle "dots3" then SpinnerDots3
  else if String.eqb spinnerStyle "dots4" then SpinnerDots4
  else if String.eqb spinnerStyle "line" then SpinnerLine
  else if String.eqb spinnerStyle "simpleDots" then SpinnerSimpleDots
  else if String.eqb spinnerStyle "star" then SpinnerStar
  else if String.eqb spinnerStyle "bounce" then SpinnerBounce
  else if String.eqb spinnerStyle "boxBounce" then SpinnerBoxBounce
  else if String.eqb spinnerStyle "circle" then SpinnerCircle
  else if String.eqb spinnerStyle "arrow" then SpinnerArrow
  else if String.eqb spinnerStyle "binary" then SpinnerBinary
  else if String.eqb spinnerStyle "bouncingBar" then SpinnerBouncingBar
  else if String.eqb spinnerStyle "bouncingBall" then SpinnerBouncingBall
  else SpinnerDots.

(** Whether the goroutine can receive the event. *)
Definition ready (ev : event) (s : Spinner) : bool :=
  match ev with
  | Stopped => stopChan s
  | Message _ => (0 <? msgChan s)%nat
  | Tick _ => true
  end.

(** One round of the loop of the goroutine; [None] when it returns.
    [Render color] is the Render method of the package variable
    spinnerStyle, whose foreground SetColor has set to [color]. *)
Definition animate (w : Writer) (Render : string -> string -> string)
           (color : string) (ev : event) (s : Spinner) (env : world)
  : result (option Spinner) * world :=
  match ev with
  | Stopped =>
      let (_, env') := Fprint w clearLine env in (Ok None, env')
  | Message now =>
      (Ok (Some (mkSpinner (definition s) (current s) (active s) now
                           (Nat.pred (msgChan s)) (stopChan s) (styled s))),
       env)
  | Tick now =>
      if (100 * Millisecond <? now - lastUpdate s)%Z then
        match modulo (current s + 1)
                     (Z.of_nat (List.length (Frames (definition s)))) with
        | Ok current' =>
            match at_ (Frames (definition s)) current' with
            | Ok frame =>
                let frame := if styled s then Render color frame else frame in
                let (_, env') := Fprint w (clearLine ++ frame) env in
                (Ok (Some (mkSpinner (definition s) current' (active s)
                                     (lastUpdate s) (msgChan s) (stopChan s)
                                     (styled s))),
                 env')
            | Err e => (Err e, env)
            | Panic => (Panic, env)
            end
        | Err e => (Err e, env)
        | Panic => (Panic, env)
        end
      else (Ok (Some s), env)
  end.

(** The calls of the methods and the rounds of the goroutines, as they
    interleave. *)
Inductive action : Type :=
| CallStart
| CallUpdate
| CallStop
| CallSetColor (color : string)
| CallDisableStyling
| CallEnableStyling
| Round (ev : event).

(** A run of a spinner with [goroutines] animation goroutines alive and
    the foreground of spinnerStyle set to [color]. *)
Fixpoint run (w : Writer) (Render : string -> string -> string)
         (acts : list action) (s : Spinner) (color : string) (goroutines : nat)
         (env : world) : result (Spinner * string * nat) * world :=
  match acts with
  | [] => (Ok (s, color, goroutines), env)
  | CallStart :: rest =>
      match Start s with
      | Ok s' => run w Render rest s' color (S goroutines) env
      | Err e => (Err e, env)
      | Panic => (Panic, env)
      end
  | CallUpdate :: rest => run w Render rest (Update s) color goroutines env
  | CallStop :: rest =>
      match Stop s with
      | Ok s' => run w Render rest s' color goroutines env
      | Err e => (Err e, env)
      | Panic => (Panic, env)
      end
  | CallSetColor c :: rest => run w Render rest s c goroutines env
  | CallDisableStyling :: rest =>
      run w Render rest (DisableStyling s) color goroutines env
  | CallEnableStyling :: rest =>
      run w Render rest (EnableStyling s) color goroutines env
  | Round ev :: rest =>
      if (0 <? goroutines)%nat && ready ev s then
        match animate w Render color ev s env with
        | (Ok (Some s'), env') => run w Render rest s' color goroutines env'
        | (Ok None, env') => run w Render rest s color (Nat.pred goroutines) env'
        | (Err e, env') => (Err e, env')
        | (Panic, env') => (Panic, env')
        end
      else run w Render rest s color goroutines env
  end.

(** The number of calls of Start in a run. *)
Fixpoint starts (acts : list action) : nat :=
  match acts with
  | [] => 0
  | CallStart :: rest => S (starts rest)
  | _ :: rest => starts rest
  end.

End spinner.

(** A definition a spinner can animate: a positive interval and at
    least one frame. *)
Definition usable (d : spinner.spinnerDefinition) : Prop :=
  (0 < spinner.Interval d)%Z /\ spinner.Frames d <> [].

(** What a spinner keeps through a run: a usable definition and an
    index that is not negative. *)
Definition sound (s : spinner.Spinner) : Prop :=
  usable (spinner.definition s) /\ (0 <= spinner.current s)%Z.

(** ** main.go: validateOptions *)

Module options.

(** What validateOptions reads: the values of Viper and whether the
    flags were given on the command line. *)
Record config : Type := mkConfig {
  getWidth : Z;                 (* viper.GetUint("width") *)
  getMouse : bool;
  getPager : bool;
  getTui : bool;
  getAll : bool;
  getPreserveNewLines : bool;
  getStyle : string;
  styleChanged : bool;          (* cmd.Flags().Changed("style") *)
  widthChanged : bool           (* cmd.Flags().Changed("width") *)
}.

(** The package variables validateOptions assigns. *)
Record globals : Type := mkGlobals {
  width : Z;
  mouse : bool;
  pager : bool;
  tui : bool;
  showAllFiles : bool;
  preserveNewLines : bool;
  style : string
}.

(** The outcome of os.Stat. *)
Inductive stat : Type := Found | NotExist | StatError.

Inductive failure : Type :=
| PagerAndTui                       (* cannot use both pager and tui *)
| StyleDoesNotExist (path : string) (* specified style does not exist *)
| UnableToStat.                     (* unable to stat file *)

(** The conversion uint(w) of an int. *)
Definition uint (w : Z) : Z := w mod 2 ^ 64.

Section Validate.

(** styles.DefaultStyles[style] != nil, utils.ExpandPath and os.Stat. *)
Variable DefaultStyles : string -> bool.
Variable ExpandPath : string -> string.
Variable Stat : string -> stat.

Definition validateStyle (style : string) : option failure :=
  if negb (String.eqb style "auto") && negb (DefaultStyles style) then
    let style := ExpandPath style in
    match Stat style with
    | NotExist => Some (StyleDoesNotExist style)
    | StatError => Some UnableToStat
    | Found => None
    end
  else None.

(** validateOptions: the error it returns, the package variables as it
    leaves them, and the world. *)
Definition validateOptions (c : config) (g : globals) (env : world)
  : option failure * globals * world :=
  let g := mkGlobals (getWidth c) (getMouse c) (getPager c) (getTui c)
                     (getAll c) (getPreserveNewLines c) (style g) in
  if pager g && tui g then (Some PagerAndTui, g, env)
  else
    let g := mkGlobals (width g) (mouse g) (pager g) (tui g) (showAllFiles g)
                       (preserveNewLines g) (getStyle c) in
    match validateStyle (style g) with
    | Some err => (Some err, g, env)
    | None =>
        let isTerminal := tty env 1%Z in
        let g :=
          if negb isTerminal && negb (styleChanged c)
          then mkGlobals (width g) (mouse g) (pager g) (tui g) (showAllFiles g)
                         (preserveNewLines g) "notty"
          else g in
        if negb (widthChanged c) then
          let '(width1, env1) :=
            if isTerminal && (width g =? 0)%Z then
              let (r, env1) := termGetSize (Some 1%Z) env in
              let width1 :=
                match r with
                | Ok (w, _) => uint w
                | _ => width g
                end in
              (if (120 <? width1)%Z then 120%Z else width1, env1)
            else (width g, env) in
          let width2 := if (width1 =? 0)%Z then 80%Z else width1 in
          (None,
           mkGlobals width2 (mouse g) (pager g) (tui g) (showAllFiles g)
                     (preserveNewLines g) (style g),
           env1)
        else (None, g, env)
    end.

End Validate.

End options.

(** ** main.go: the cursor position *)

Module position.

Record terminalPosition : Type := mkPosition {
  row : Z;
  column : Z
}.

Inductive failure : Type :=
| NotATerminal                         (* not a terminal *)
| Sys (e : error)                      (* the error of a call, as it is *)
| InvalidResponse (response : string)  (* invalid terminal response *)
| InvalidFormat (response : string)    (* invalid terminal response format *)
| NumError.                            (* *strconv.NumError: syntax or range *)

Inductive outcome (A : Type) : Type :=
| Done (a : A)
| Failed (e : failure)
| Panicked.
Arguments Done {A} a.
Arguments Failed {A} e.
Arguments Panicked {A}.

(** strings.HasSuffix *)
Definition HasSuffix (s suffix : string) : bool :=
  (String.length suffix <=? String.length s)%nat
  && String.eqb (substring (String.length s - String.length suffix)
                           (String.length suffix) s) suffix.

(** [s[lo:hi]]: it panics unless 0 <= lo <= hi <= len(s). *)
Definition slice (s : string) (lo hi : Z) : outcome string :=
  if ((0 <=? lo) && (lo <=? hi) && (hi <=? Z.of_nat (String.length s)))%Z
  then Done (substring (Z.to_nat lo) (Z.to_nat (hi - lo)) s)
  else Panicked.

(** strings.Split for a separator of one byte. *)
Fixpoint Split (s : string) (sep : ascii) : list string :=
  match s with
  | EmptyString => [""]
  | String c rest =>
      if Ascii.eqb c sep then "" :: Split rest sep
      else match Split rest sep with
           | x :: xs => String c x :: xs
           | [] => [String c ""]
           end
  end.

(** The loop of strconv.Atoi over the digits: [None] at a byte that is
    no decimal digit. *)
Fixpoint digits (s : string) (n : Z) : option Z :=
  match s with
  | EmptyString => Some n
  | String ch rest =>
      let d := (Z.of_nat (nat_of_ascii ch) - 48)%Z in
      if ((0 <=? d) && (d <=? 9))%Z then digits rest (n * 10 + d)%Z else None
  end.

(** strconv.Atoi on a 64-bit platform: an optional sign, at least one
    decimal digit, and a value that fits an int. *)
Definition Atoi (s : string) : outcome Z :=
  match s with
  | EmptyString => Failed NumError
  | String s0 rest =>
      let body := if Ascii.eqb s0 "-" || Ascii.eqb s0 "+" then rest else s in
      match body with
      | EmptyString => Failed NumError
      | _ =>
          match digits body 0 with
          | None => Failed NumError
          | Some n =>
              let n := if Ascii.eqb s0 "-" then (- n)%Z else n in
              if ((- 2 ^ 63 <=? n) && (n <=? 2 ^ 63 - 1))%Z then Done n
              else Failed NumError
          end
      end
  end.

(** The verb %d of fmt.Sprintf on an int. *)
Definition Itoa (n : Z) : string :=
  DecimalString.NilZero.string_of_int (Z.to_int n).

(** The query of the cursor position and the size of the buffer the
    answer is read into. *)
Definition query : string := esc "[6n".
Definition bufSize : nat := 32.

(** What file.Read gives: the bytes that have arrived, or an error. *)
Inductive readResult : Type :=
| Bytes (arrived : string)
| ReadError (err : error).

(** The deferred term.Restore(fd, oldState) on the way out: its error
    is dropped. *)
Definition deferRestore (file : option fd) (oldState : State)
           (r : outcome terminalPosition) (env : world)
  : outcome terminalPosition * world :=
  match termRestore file (Some oldState) env with
  | (Panic, env') => (Panicked, env')
  | (_, env') => (r, env')
  end.

(** getTerminalPosition.  Of the bytes that have arrived the buffer
    takes the first 32.  The deferred Restore runs on every return
    after MakeRaw has succeeded. *)
Definition getTerminalPosition (file : option fd) (read : readResult)
           (env : world) : outcome terminalPosition * world :=
  let isTerminal := match file with Some f => tty env f | None => false end in
  if negb isTerminal then (Failed NotATerminal, env)
  else
    match termMakeRaw file env with
    | (Panic, env1) => (Panicked, env1)
    | (Err err, env1) => (Failed (Sys err), env1)
    | (Ok oldState, env1) =>
        match FprintFile file query env1 with
        | (Panic, env2) => deferRestore file oldState Panicked env2
        | (Err err, env2) => deferRestore file oldState (Failed (Sys err)) env2
        | (Ok _, env2) =>
            match read with
            | ReadError err => deferRestore file oldState (Failed (Sys err)) env2
            | Bytes arrived =>
                let response := substring 0 bufSize arrived in
                if negb (strings.HasPrefix response (esc "["))
                   || negb (HasSuffix response "R")
                then deferRestore file oldState
                       (Failed (InvalidResponse response)) env2
                else
                  match slice response 2
                              (Z.of_nat (String.length response) - 1) with
                  | Panicked => deferRestore file oldState Panicked env2
                  | Failed e => deferRestore file oldState (Failed e) env2
                  | Done response =>
                      match Split response ";" with
                      | [part0; part1] =>
                          match Atoi part0 with
                          | Done row =>
                              match Atoi part1 with
                              | Done col =>
                                  deferRestore file oldState
                                    (Done (mkPosition row col)) env2
                              | Failed e =>
                                  deferRestore file oldState (Failed e) env2
                              | Panicked =>
                                  deferRestore file oldState Panicked env2
                              end
                          | Failed e => deferRestore file oldState (Failed e) env2
                          | Panicked => deferRestore file oldState Panicked env2
                          end
                      | _ =>
                          deferRestore file oldState
                            (Failed (InvalidFormat response)) env2
                      end
                  end
            end
        end
    end.

(** moveTo *)
Definition moveTo (pos : terminalPosition) : string :=
  esc "[" ++ Itoa (row pos) ++ ";" ++ Itoa (column pos) ++ "H".

(** The report a terminal sends for a cursor position. *)
Definition report (row col : Z) : string :=
  esc "[" ++ Itoa row ++ ";" ++ Itoa col ++ "R".

End position.

(** The bytes of a decimal number: the digits and the minus sign. *)
Definition numeric (c : ascii) : bool :=
  Ascii.eqb c "-" || ((48 <=? nat_of_ascii c)%nat && (nat_of_ascii c <=? 57)%nat).

(** The values of an int. *)
Definition isInt (n : Z) : Prop := (- 2 ^ 63 <= n <= 2 ^ 63 - 1)%Z.

(** * Properties *)

(** ** Package strings *)

(** Go's own examples of these functions. *)
Example TrimSpace_ascii :
  strings.TrimSpace (bytes [32; 9; 10; 32; 72; 101; 108; 108; 111; 44; 32; 71;
                            111; 112; 104; 101; 114; 115; 32; 10; 9; 13; 10]%N)
  = "Hello, Gophers".
Proof. reflexivity. Qed.

Example TrimSpace_unicode :
  strings.TrimSpace (bytes [0xE2; 0x80; 0x83; 0x60; 0x60; 0x60; 0xC2; 0xA0;
                            0xE3; 0x80; 0x80]%N)
  = "```".
Proof. reflexivity. Qed.

Example TrimSpace_inner : strings.TrimSpace " a  b " = "a  b".
Proof. reflexivity. Qed.

Example ReplaceAll_left_to_right : strings.ReplaceAll "aaaaa" "aa" "b" = "bba".
Proof. reflexivity. Qed.

Example ReplaceAll_oink :
  strings.ReplaceAll "oink oink oink" "oink" "moo" = "moo moo moo".
Proof. reflexivity. Qed.

Example Contains_examples :
  strings.Contains "seafood" "foo" = true
  /\ strings.Contains "seafood" "bar" = false
  /\ strings.Contains "seafood" "" = true
  /\ strings.Contains "" "" = true.
Proof. repeat split. Qed.

Lemma length_append (s t : string) : length (s ++ t) = (length s + length t)%nat.
Proof. induction s as [|c s IH]; simpl; congruence. Qed.

Lemma substring_append_l (p t : string) : substring 0 (length p) (p ++ t) = p.
Proof. induction p as [|c p IH]; simpl; [destruct t; reflexivity | now rewrite IH]. Qed.

Lemma substring_all (t : string) : substring 0 (length t) t = t.
Proof. induction t as [|c t IH]; simpl; congruence. Qed.

Lemma substring_append_r (p t : string) :
  substring (length p) (length t) (p ++ t) = t.
Proof. induction p as [|c p IH]; simpl; [apply substring_all | exact IH]. Qed.

Lemma substring_split (n : nat) (s : string) :
  (n <= length s)%nat ->
  substring 0 n s ++ substring n (length s - n) s = s.
Proof.
  revert s; induction n as [|n IH]; intros s Hn.
  - simpl. rewrite Nat.sub_0_r.
    destruct s; [reflexivity | simpl; f_equal; apply substring_all].
  - destruct s as [|c s]; simpl in *; [lia|].
    f_equal. apply IH. lia.
Qed.

Lemma HasPrefix_append (p t : string) : strings.HasPrefix (p ++ t) p = true.
Proof.
  unfold strings.HasPrefix. rewrite substring_append_l, String.eqb_refl, andb_true_r.
  apply Nat.leb_le. rewrite length_append. lia.
Qed.

Lemma HasPrefix_inv (s p : string) :
  strings.HasPrefix s p = true ->
  s = p ++ substring (length p) (length s - length p) s.
Proof.
  unfold strings.HasPrefix. intros H. apply andb_prop in H as [Hl He].
  apply Nat.leb_le in Hl. apply String.eqb_eq in He.
  rewrite <- He at 1. symmetry. now apply substring_split.
Qed.

Lemma HasPrefix_iff (s p : string) :
  strings.HasPrefix s p = true <-> exists t, s = p ++ t.
Proof.
  split.
  - intros H. eexists. now apply HasPrefix_inv.
  - intros [t ->]. apply HasPrefix_append.
Qed.

Lemma TrimPrefix_append (p t : string) : strings.TrimPrefix (p ++ t) p = t.
Proof.
  unfold strings.TrimPrefix. rewrite HasPrefix_append, length_append.
  replace (length p + length t - length p)%nat with (length t) by lia.
  apply substring_append_r.
Qed.

Lemma prefix_HasPrefix (s p : string) : String.prefix p s = strings.HasPrefix s p.
Proof.
  destruct (strings.HasPrefix s p) eqn:H.
  - apply HasPrefix_iff in H as [t ->]. apply String.prefix_correct.
    apply substring_append_l.
  - destruct (String.prefix p s) eqn:P; [|reflexivity].
    apply String.prefix_correct in P.
    assert (strings.HasPrefix s p = true); [|congruence].
    apply HasPrefix_iff. exists (substring (length p) (length s - length p) s).
    rewrite <- P at 1.
    destruct (Nat.le_gt_cases (length p) (length s)) as [L|L].
    + symmetry. now apply substring_split.
    + exfalso. assert (E : length (substring 0 (length p) s) = length p) by congruence.
      clear - E L. revert E L. generalize (length p) as n.
      induction s as [|c s IH]; intros [|n]; simpl; try lia.
      intros E L. apply (IH n); lia.
Qed.

(** ** Package regexp: matching by derivatives is matching *)

Lemma append_empty_inv (s t : string) : s ++ t = "" -> s = "" /\ t = "".
Proof. destruct s; simpl; [auto | discriminate]. Qed.

Lemma nullable_Matches (r : regex) : nullable r = true <-> Matches r "".
Proof.
  split.
  - induction r; simpl; intros H; try discriminate.
    + constructor.
    + apply andb_prop in H as [H1 H2].
      change "" with ("" ++ ""). constructor; auto.
    + apply orb_prop in H as [H|H]; [apply MAltL | apply MAltR]; auto.
    + constructor.
  - intros H. remember "" as s eqn:E.
    induction H; simpl; try reflexivity; try discriminate.
    + apply append_empty_inv in E as [-> ->].
      now rewrite IHMatches1, IHMatches2.
    + now rewrite IHMatches.
    + rewrite IHMatches by exact E. apply orb_true_r.
Qed.

Lemma deriv_sound (c : ascii) (r : regex) (s : string) :
  Matches (deriv c r) s -> Matches r (String c s).
Proof.
  revert s. induction r; simpl; intros s H.
  - inversion H.
  - inversion H.
  - destruct (p c) eqn:E; inversion H; subst. now constructor.
  - assert (L : forall s, Matches (Cat (deriv c r1) r2) s ->
                          Matches (Cat r1 r2) (String c s)).
    { intros s0 H0. inversion H0; subst.
      change (String c (s1 ++ s2)) with (String c s1 ++ s2).
      constructor; auto. }
    destruct (nullable r1) eqn:N; [|auto].
    inversion H; subst; [auto|].
    change (String c s) with ("" ++ String c s).
    constructor; [now apply nullable_Matches | auto].
  - inversion H; subst; [apply MAltL | apply MAltR]; auto.
  - inversion H; subst.
    change (String c (s1 ++ s2)) with (String c s1 ++ s2).
    constructor; auto.
Qed.

Lemma deriv_complete (c : ascii) (r : regex) (s : string) :
  Matches r (String c s) -> Matches (deriv c r) s.
Proof.
  intros H. remember (String c s) as cs eqn:E. revert c s E.
  induction H; intros c0 s0 E; simpl; try discriminate.
  - inversion E; subst. rewrite H. constructor.
  - destruct s1 as [|c1 s1]; simpl in E.
    + subst s2. apply nullable_Matches in H. rewrite H.
      apply MAltR. now apply IHMatches2.
    + inversion E; subst.
      assert (M : Matches (Cat (deriv c0 r1) r2) (s1 ++ s2))
        by (constructor; auto).
      destruct (nullable r1); [now apply MAltL | exact M].
  - apply MAltL. auto.
  - apply MAltR. auto.
  - destruct s1 as [|c1 s1]; simpl in E.
    + subst s2. now apply IHMatches2.
    + inversion E; subst. constructor; auto.
Qed.

(** matchPrefix finds a prefix in the language of the expression. *)
Lemma matchPrefix_spec (r : regex) (s : string) :
  matchPrefix r s = true <-> exists p t, s = p ++ t /\ Matches r p.
Proof.
  revert r. induction s as [|c s IH]; intros r; simpl.
  - rewrite orb_false_r, nullable_Matches. split.
    + intros H. now exists "", "".
    + intros (p & t & E & H). symmetry in E.
      apply append_empty_inv in E as [-> _]. exact H.
  - split.
    + intros H. apply orb_prop in H as [H|H].
      * exists "", (String c s). split; [reflexivity | now apply nullable_Matches].
      * apply IH in H as (p & t & -> & H).
        exists (String c p), t. split; [reflexivity | now apply deriv_sound].
    + intros (p & t & E & H). destruct p as [|c1 p]; simpl in E.
      * apply nullable_Matches in H. now rewrite H.
      * inversion E; subst. apply orb_true_iff. right.
        apply IH. exists p, t. split; [reflexivity | now apply deriv_complete].
Qed.

(** matchAnywhere finds a substring in the language of the expression. *)
Lemma matchAnywhere_spec (r : regex) (s : string) :
  matchAnywhere r s = true <-> exists a p t, s = a ++ p ++ t /\ Matches r p.
Proof.
  induction s as [|c s IH]; cbn [matchAnywhere].
  - rewrite orb_false_r, matchPrefix_spec. split.
    + intros (p & t & E & H). now exists "", p, t.
    + intros (a & p & t & E & H). symmetry in E.
      apply append_empty_inv in E as [-> E]. now exists p, t.
  - rewrite orb_true_iff, matchPrefix_spec, IH. split.
    + intros [(p & t & E & H) | (a & p & t & E & H)].
      * now exists "", p, t.
      * exists (String c a), p, t. simpl. now rewrite E.
    + intros (a & p & t & E & H). destruct a as [|c1 a]; simpl in E.
      * left. now exists p, t.
      * inversion E; subst. right. now exists a, p, t.
Qed.

(** MatchString: an anchored pattern matches at the start of the
    string, another one anywhere in it. *)
Lemma MatchString_spec (re : Regexp) (s : string) :
  MatchString re s = true <->
  exists a p t, s = a ++ p ++ t /\ Matches (body re) p
                /\ (anchored re = true -> a = "").
Proof.
  unfold MatchString. destruct (anchored re).
  - rewrite matchPrefix_spec. split.
    + intros (p & t & E & H). now exists "", p, t.
    + intros (a & p & t & E & H & A). rewrite (A eq_refl) in E. now exists p, t.
  - rewrite matchAnywhere_spec. split.
    + intros (a & p & t & E & H). exists a, p, t. repeat split; auto. discriminate.
    + intros (a & p & t & E & H & _). now exists a, p, t.
Qed.

(** The patterns on a few lines. *)
Example MatchString_examples :
  map (fun line => map (fun p => MatchString (fst p) line) patterns)
      ["[id]: http://x"; "[^1]: note"; "text --> more"; "###### h"; "####### h";
       "#h"; "* * *"; "--"; "- item"; "12. item"; "| a | b |"; "| a"; "```"]
  = [ [true; false; false; false; false; false; false; false; false; false; false];
      [true; true; false; false; false; false; false; false; false; false; false];
      [false; false; false; true; false; false; false; false; false; false; false];
      [false; false; false; false; true; false; false; false; false; false; false];
      [false; false; false; false; false; false; false; false; false; false; false];
      [false; false; false; false; false; false; false; false; false; false; false];
      [false; false; false; false; false; true; false; false; false; false; true];
      [false; false; false; false; false; false; false; false; false; false; false];
      [false; false; false; false; false; false; false; false; false; false; true];
      [false; false; false; false; false; false; false; false; false; false; true];
      [false; false; false; false; false; false; false; false; false; true; false];
      [false; false; false; false; false; false; false; false; false; false; false];
      [false; false; false; false; false; false; false; false; false; false; false] ].
Proof. vm_compute. reflexivity. Qed.

(** ** The operating system *)

Lemma syscall_log (c : call) (env : world) :
  log (snd (syscall c env)) = (log env ++ [c])%list.
Proof. unfold syscall. destruct (faults env) as [|b rest]; reflexivity. Qed.

Lemma syscall_tty (c : call) (env : world) : tty (snd (syscall c env)) = tty env.
Proof. unfold syscall. destruct (faults env) as [|b rest]; reflexivity. Qed.

Lemma syscall_ok (c : call) (env : world) :
  fst (syscall c env) = negb (fails 0 env).
Proof. unfold syscall, fails. destruct (faults env) as [|b rest]; reflexivity. Qed.

Lemma syscall_faults (c : call) (env : world) :
  faults (snd (syscall c env)) = tl (faults env).
Proof. unfold syscall. destruct (faults env) as [|b rest]; reflexivity. Qed.

Lemma Fprint_log (w : Writer) (s : string) (env : world) :
  log (snd (Fprint w s env)) = (log env ++ [Write w s])%list.
Proof.
  unfold Fprint. pose proof (syscall_log (Write w s) env) as H.
  destruct (syscall (Write w s) env) as [ok env']. exact H.
Qed.

Lemma Fprint_result (w : Writer) (s : string) (env : world) :
  fst (Fprint w s env) = if fails 0 env then Err Errno else Ok tt.
Proof.
  unfold Fprint. pose proof (syscall_ok (Write w s) env) as H.
  destruct (syscall (Write w s) env) as [ok env']. simpl in *. subst ok.
  destruct (fails 0 env); reflexivity.
Qed.

Lemma written_app (w : Writer) (l1 l2 : list call) :
  written w (l1 ++ l2) = written w l1 ++ written w l2.
Proof.
  induction l1 as [|c l1 IH]; simpl; [reflexivity|].
  destruct c; try exact IH.
  destruct (sameWriter w w0); [|exact IH].
  rewrite IH. clear. induction data; simpl; congruence.
Qed.

(** ** The diff step *)

(** The first version of the diff step implements the contract. *)
Lemma writeUpdate_emit (w : Writer) (lastOutput newOutput : string) (env : world) :
  writeUpdate w lastOutput newOutput env = emit w (Patch lastOutput newOutput) env.
Proof.
  unfold writeUpdate, emit, Patch, strings.TrimPrefix.
  rewrite prefix_HasPrefix.
  destruct (strings.HasPrefix newOutput lastOutput); reflexivity.
Qed.

(** So does the second one, on the alternate screen. *)
Lemma updateAltScreen_emitAlt (lastOutput newOutput : string) (tb : termbuf)
      (env : world) :
  updateAltScreen lastOutput newOutput tb env =
  if isActive tb
  then (emitAlt (Patch lastOutput newOutput) ;; ret newOutput) tb env
  else (Ok lastOutput, tb, env).
Proof.
  unfold updateAltScreen, emitAlt, Patch, strings.TrimPrefix, bind at 1, self.
  rewrite prefix_HasPrefix.
  destruct (isActive tb); [|reflexivity].
  destruct (strings.HasPrefix newOutput lastOutput); reflexivity.
Qed.

Lemma Patch_append (previous suffix : string) :
  Patch previous (previous ++ suffix) = mkPatch Append suffix.
Proof.
  unfold Patch. rewrite prefix_HasPrefix, HasPrefix_append, length_append.
  replace (length previous + length suffix - length previous)%nat
    with (length suffix) by lia.
  now rewrite substring_append_r.
Qed.

Lemma emit_append_log (w : Writer) (payload : string) (env : world) :
  log (snd (emit w (mkPatch Append payload) env)) =
  (log env ++ [Write w payload])%list.
Proof.
  unfold emit; simpl. pose proof (Fprint_log w payload env) as H.
  destruct (Fprint w payload env) as [[u|e|] env']; exact H.
Qed.

(** On an active terminal writeToAlt hands the text, with CR LF line
    ends, to the file in a single write. *)
Lemma writeToAlt_active (content : string) (tb : termbuf) (env : world) (f : fd) :
  isActive tb = true -> isTerminal tb = true -> file tb = Some f ->
  writeToAlt content tb env =
  (fst (Fprint (File f) (strings.ReplaceAll content NL CRLF) env), tb,
   snd (Fprint (File f) (strings.ReplaceAll content NL CRLF) env)).
Proof.
  intros Ha Ht Hf. unfold writeToAlt, bind, self, sys, FprintFile.
  rewrite Ha, Ht, Hf. simpl.
  destruct (Fprint (File f) (strings.ReplaceAll content NL CRLF) env); reflexivity.
Qed.

Lemma emitAlt_append_log (payload : string) (tb : termbuf) (env : world) (f : fd) :
  isActive tb = true -> isTerminal tb = true -> file tb = Some f ->
  log (snd (emitAlt (mkPatch Append payload) tb env)) =
  (log env ++ [Write (File f) (strings.ReplaceAll payload NL CRLF)])%list.
Proof.
  intros Ha Ht Hf. unfold emitAlt; simpl. unfold bind, catch.
  rewrite (writeToAlt_active payload tb env f Ha Ht Hf).
  pose proof (Fprint_log (File f) (strings.ReplaceAll payload NL CRLF) env) as H.
  destruct (Fprint (File f) (strings.ReplaceAll payload NL CRLF) env)
    as [[u|e|] env']; exact H.
Qed.

(** When [next] does not start with [previous] the step repaints: the
    payload is [next] in full, written after the clear-and-home
    sequence. *)
Lemma patch_otherwise_repaints (previous next : string) (w : Writer) (env : world) :
  strings.HasPrefix next previous = false ->
  Patch previous next = mkPatch FullRepaint next
  /\ log (snd (writeUpdate w previous next env))
     = (log env ++ [Write w clearHome; Write w next])%list.
Proof.
  intros H. split.
  - unfold Patch. now rewrite prefix_HasPrefix, H.
  - unfold writeUpdate. rewrite H. simpl.
    pose proof (Fprint_log w clearHome env) as L1.
    destruct (Fprint w clearHome env) as [r1 env1]. simpl in L1.
    pose proof (Fprint_log w next env1) as L2.
    destruct (Fprint w next env1) as [[u|e|] env2]; simpl in *;
      now rewrite L2, L1, <- app_assoc.
Qed.

(** The first call, with an empty previous render, appends the whole
    render. *)
Lemma patch_first_render (next : string) : Patch "" next = mkPatch Append next.
Proof. exact (Patch_append "" next). Qed.

(** C1.  When [next] has [previous] as a literal prefix, the diff step
    is in mode Append and its payload is [next] with that prefix
    removed: [previous ++ payload = next].  Both versions of the step
    then make a single write, of the payload, and do not clear the
    screen. *)
Theorem patch_prefix_appends (previous next : string) (w : Writer) (env : world) :
  (exists suffix, next = previous ++ suffix) ->
  let payload := strings.TrimPrefix next previous in
  strings.HasPrefix next previous = true
  /\ Patch previous next = mkPatch Append payload
  /\ payload = substring (length previous) (length next - length previous) next
  /\ previous ++ payload = next
  /\ writeUpdate w previous next env = emit w (mkPatch Append payload) env
  /\ log (snd (writeUpdate w previous next env)) = (log env ++ [Write w payload])%list
  /\ forall tb f,
       isActive tb = true -> isTerminal tb = true -> file tb = Some f ->
       updateAltScreen previous next tb env
       = (emitAlt (mkPatch Append payload) ;; ret next) tb env
       /\ log (snd (updateAltScreen previous next tb env))
          = (log env ++ [Write (File f) (strings.ReplaceAll payload NL CRLF)])%list.
Proof.
  intros [suffix ->] payload. subst payload.
  rewrite TrimPrefix_append.
  assert (P : Patch previous (previous ++ suffix) = mkPatch Append suffix)
    by apply Patch_append.
  repeat split.
  - apply HasPrefix_append.
  - exact P.
  - rewrite length_append.
    replace (length previous + length suffix - length previous)%nat
      with (length suffix) by lia.
    now rewrite substring_append_r.
  - now rewrite writeUpdate_emit, P.
  - rewrite writeUpdate_emit, P. apply emit_append_log.
  - rewrite updateAltScreen_emitAlt, H, P. reflexivity.
  - rewrite updateAltScreen_emitAlt, H, P.
    pose proof (emitAlt_append_log suffix tb env f H H0 H1) as L.
    unfold bind, ret.
    destruct (emitAlt (mkPatch Append suffix) tb env) as [[[u|e|] tb'] env'];
      exact L.
Qed.

Lemma patch_prefix_appends_witness :
  strings.HasPrefix "# A para" "# A" = true
  /\ Patch "# A" "# A para" = mkPatch Append " para"
  /\ log (snd (writeUpdate stdout "# A" "# A para" pipeWorld))
     = [Write stdout " para"].
Proof.
  destruct (patch_prefix_appends "# A" "# A para" stdout pipeWorld
              (ex_intro _ " para" eq_refl))
    as (H1 & H2 & _ & _ & _ & H6 & _).
  split; [exact H1 | split; [exact H2 | exact H6]].
Defined.

(** C6.  The diff step applied to [(x, x)] is in mode Append with an
    empty payload: the screen is not cleared and no byte is handed to
    the writer. *)
Theorem patch_same_is_noop (x : string) (w : Writer) (env : world) :
  strings.HasPrefix x x = true
  /\ strings.TrimPrefix x x = ""
  /\ Patch x x = mkPatch Append ""
  /\ writeUpdate w x x env = emit w (mkPatch Append "") env
  /\ log (snd (writeUpdate w x x env)) = (log env ++ [Write w ""])%list
  /\ written w (log (snd (writeUpdate w x x env))) = written w (log env)
  /\ forall tb f,
       isActive tb = true -> isTerminal tb = true -> file tb = Some f ->
       updateAltScreen x x tb env = (emitAlt (mkPatch Append "") ;; ret x) tb env
       /\ written (File f) (log (snd (updateAltScreen x x tb env)))
          = written (File f) (log env).
Proof.
  assert (E : x = x ++ "") by (induction x; simpl; congruence).
  assert (T : strings.TrimPrefix x x = "").
  { rewrite E at 1. apply TrimPrefix_append. }
  assert (P : Patch x x = mkPatch Append "").
  { rewrite E at 2. apply Patch_append. }
  assert (L : log (snd (writeUpdate w x x env)) = (log env ++ [Write w ""])%list).
  { rewrite writeUpdate_emit, P. apply emit_append_log. }
  assert (A : forall s, s ++ "" = s) by (induction s; simpl; congruence).
  repeat split.
  - rewrite E at 1. apply HasPrefix_append.
  - exact T.
  - exact P.
  - now rewrite writeUpdate_emit, P.
  - exact L.
  - rewrite L, written_app. simpl.
    destruct (sameWriter w w); simpl; apply A.
  - rewrite updateAltScreen_emitAlt, H, P. reflexivity.
  - rewrite updateAltScreen_emitAlt, H, P.
    pose proof (emitAlt_append_log "" tb env f H H0 H1) as L'.
    unfold bind, ret.
    destruct (emitAlt (mkPatch Append "") tb env) as [[[u|e|] tb'] env'];
      simpl in *; rewrite L', written_app; simpl;
      destruct (f =? f)%Z; simpl; apply A.
Qed.

(** ** The render trigger heuristic *)

Lemma index_in_range (previousLines : list string) (i : nat) :
  (i < List.length previousLines)%nat ->
  exists line, index previousLines (Z.of_nat i) = Some line
               /\ nth_error previousLines i = Some line.
Proof.
  intros H. unfold index.
  destruct (Z.ltb_spec (Z.of_nat i) 0) as [L|_]; [lia|].
  rewrite Nat2Z.id.
  destruct (nth_error previousLines i) as [line|] eqn:E.
  - now exists line.
  - apply nth_error_None in E. lia.
Qed.

(** The backward scan never indexes outside the history. *)
Lemma fenceScan_total (previousLines : list string) (k : nat) :
  (k <= List.length previousLines)%nat ->
  exists b, fenceScan previousLines k = Some b.
Proof.
  induction k as [|k IH]; intros H; simpl.
  - now exists true.
  - destruct (index_in_range previousLines k) as (line & -> & _); [lia|].
    destruct (String.eqb (strings.TrimSpace line) fence); [now exists false|].
    destruct (strings.HasPrefix (strings.TrimSpace line) fence); [now exists true|].
    apply IH. lia.
Qed.

Lemma firstn_snoc (A : Type) (l : list A) (k : nat) (x : A) :
  nth_error l k = Some x -> firstn (S k) l = (firstn k l ++ [x])%list.
Proof.
  revert k; induction l as [|a l IH]; intros [|k] H; simpl in *; try discriminate.
  - now inversion H.
  - f_equal. now apply IH.
Qed.

(** The scan finds the nearest fence line below index [k], and its
    answer only depends on whether that line is a bare fence. *)
Lemma fenceScan_nearest (previousLines : list string) (k : nat) :
  (k <= List.length previousLines)%nat ->
  fenceScan previousLines k =
  Some match find isFence (rev (firstn k previousLines)) with
       | None => true
       | Some line => negb (String.eqb (strings.TrimSpace line) fence)
       end.
Proof.
  induction k as [|k IH]; intros H; [reflexivity|].
  destruct (index_in_range previousLines k) as (line & E & N); [lia|].
  cbn [fenceScan]. rewrite E.
  rewrite (firstn_snoc _ _ _ _ N), rev_app_distr. cbn [rev app find].
  unfold isFence at 1.
  destruct (String.eqb (strings.TrimSpace line) fence) eqn:Q.
  - pose proof Q as Q'. apply String.eqb_eq in Q'. rewrite Q'.
    change (strings.HasPrefix fence fence) with true. cbv iota.
    now rewrite Q.
  - destruct (strings.HasPrefix (strings.TrimSpace line) fence).
    + now rewrite Q.
    + apply IH. lia.
Qed.

Lemma rem10_multiple (k : nat) : Z.rem (Z.of_nat (10 * k)) 10 = 0%Z.
Proof.
  rewrite Nat2Z.inj_mul, Z.mul_comm. apply Z.rem_mul. discriminate.
Qed.

(** C4.  When the length of the line history is a multiple of 10, zero
    included, shouldRenderUpdate returns true, whatever the current
    line and the history hold. *)
Theorem periodic_trigger (currentLine : string) (previousLines : list string) :
  (exists k, List.length previousLines = (10 * k)%nat) ->
  shouldRenderUpdate currentLine previousLines = Some true.
Proof.
  intros [k H]. unfold shouldRenderUpdate.
  rewrite H, rem10_multiple. reflexivity.
Qed.

Lemma periodic_trigger_witness :
  shouldRenderUpdate "plain text"
    ["a"; "b"; "c"; "d"; "e"; "f"; "g"; "h"; "i"; "plain text"] = Some true.
Proof.
  apply periodic_trigger. exists 1%nat. reflexivity.
Defined.

(** A heading triggers whatever the history is. *)
Lemma heading_triggers (previousLines : list string) :
  shouldRenderUpdate "# Title" previousLines = Some true.
Proof.
  unfold shouldRenderUpdate. cbv zeta.
  destruct (Z.rem (Z.of_nat (List.length previousLines)) 10 =? 0)%Z; reflexivity.
Qed.

(** Plain text after plain text does not trigger off the multiples
    of 10. *)
Example plain_text_defers :
  shouldRenderUpdate "plain text" ["some"; "plain text"] = Some false.
Proof. reflexivity. Qed.

(** C5.  Fed one at a time, each appended to the history before the
    evaluation, the lines "# A", "para", "| a | b |", "" and "more"
    trigger at line 1 (the heading pattern), at line 3 (the table
    pattern) and at line 4 (a blank line after a line starting with a
    pipe, no pattern matching the blank line), and not at lines 2
    and 5. *)
Theorem five_line_scenario :
  feed [] ["# A"; "para"; "| a | b |"; ""; "more"]
  = [Some true; Some false; Some true; Some true; Some false]
  /\ map (fun p => MatchString (fst p) (strings.TrimSpace "# A")) patterns
     = [false; false; false; false; true; false; false; false; false; false; false]
  /\ map (fun p => MatchString (fst p) (strings.TrimSpace "| a | b |")) patterns
     = [false; false; false; false; false; false; false; false; false; true; false]
  /\ existsb (fun p => MatchString (fst p) (strings.TrimSpace "")) patterns = false.
Proof. repeat split; vm_compute; reflexivity. Qed.

(** C9.  shouldRenderUpdate returns a result on every input: neither
    the backward scan from index [len - 2] nor the access to the line
    before the current one leaves the history.  On an empty history the
    result is true, by the rule on multiples of 10. *)
Theorem shouldRenderUpdate_total :
  (forall currentLine previousLines,
      exists b, shouldRenderUpdate currentLine previousLines = Some b)
  /\ (forall previousLines k,
         (k <= Z.to_nat (Z.of_nat (List.length previousLines) - 2 + 1))%nat ->
         fenceScan previousLines k <> None)
  /\ (forall previousLines,
         (2 <= List.length previousLines)%nat ->
         index previousLines (Z.of_nat (List.length previousLines) - 2) <> None)
  /\ (forall currentLine, shouldRenderUpdate currentLine [] = Some true).
Proof.
  assert (S : forall previousLines k,
             (k <= Z.to_nat (Z.of_nat (List.length previousLines) - 2 + 1))%nat ->
             exists b, fenceScan previousLines k = Some b).
  { intros l k H. apply fenceScan_total. lia. }
  assert (I : forall previousLines,
             (2 <= List.length previousLines)%nat ->
             exists line,
               index previousLines (Z.of_nat (List.length previousLines) - 2)
               = Some line).
  { intros l H.
    destruct (index_in_range l (List.length l - 2)) as (line & E & _); [lia|].
    exists line. rewrite <- E. f_equal. lia. }
  repeat split.
  - intros cur l. unfold shouldRenderUpdate. cbv zeta.
    destruct (Z.rem (Z.of_nat (List.length l)) 10 =? 0)%Z; [now exists true|].
    destruct (existsb _ patterns); [now exists true|].
    destruct (String.eqb (strings.TrimSpace cur) fence).
    + apply S. lia.
    + destruct (Z.leb_spec 2 (Z.of_nat (List.length l))) as [L|L]; [|now exists false].
      destruct (I l) as [line ->]; [lia|].
      match goal with |- context [if ?c then _ else _] => destruct c end;
        eexists; reflexivity.
  - intros l k H. destruct (S l k H) as [b ->]. discriminate.
  - intros l H. destruct (I l H) as [line ->]. discriminate.
Qed.

(** C2, as the code has it.  For a current line whose trimmed text is
    the bare fence, shouldRenderUpdate returns true when the length of
    the history is a multiple of 10.  Otherwise the answer comes from
    the nearest earlier line whose trimmed text starts with three
    backticks: true when that line carries more text after the
    backticks, false when it is itself a bare fence, however many fence
    lines precede; and true when there is no such line. *)
Theorem bare_fence_trigger (currentLine : string) (previousLines : list string) :
  strings.TrimSpace currentLine = fence ->
  shouldRenderUpdate currentLine previousLines =
  Some ((Z.rem (Z.of_nat (List.length previousLines)) 10 =? 0)%Z
        || match find isFence (rev (earlier previousLines)) with
           | None => true
           | Some line => negb (String.eqb (strings.TrimSpace line) fence)
           end).
Proof.
  intros H. unfold shouldRenderUpdate. cbv zeta. rewrite H.
  destruct (Z.rem (Z.of_nat (List.length previousLines)) 10 =? 0)%Z; [reflexivity|].
  replace (existsb (fun p => MatchString (fst p) fence) patterns) with false
    by (vm_compute; reflexivity).
  rewrite String.eqb_refl.
  rewrite fenceScan_nearest by lia.
  unfold earlier. rewrite removelast_firstn_len.
  replace (Z.to_nat (Z.of_nat (List.length previousLines) - 2 + 1))
    with (Nat.pred (List.length previousLines)) by lia.
  reflexivity.
Qed.

Lemma bare_fence_trigger_witness :
  shouldRenderUpdate "  ```" ["```go"; "x := 1"; "  ```"] = Some true.
Proof.
  exact (bare_fence_trigger "  ```" ["```go"; "x := 1"; "  ```"] eq_refl).
Defined.

(** C2, as the specification words it, fails: one fence line, an odd
    number, precedes the closing fence of a block opened by a bare
    fence, and the result is false. *)
Lemma bare_fence_odd_count_defers :
  strings.TrimSpace "```" = fence
  /\ oddFencesBefore ["```"; "code"; "```"] = true
  /\ shouldRenderUpdate "```" ["```"; "code"; "```"] = Some false.
Proof. repeat split; vm_compute; reflexivity. Qed.

(** ** normalizeLineEndings *)

(** Each pass of the collapsing loop shortens the text. *)
Lemma collapse_pass_shortens (text : string) :
  strings.Contains text NL3 = true ->
  (length (strings.ReplaceAll text NL3 NL2) < length text)%nat.
Proof. apply collapseBlankLines_obligation_1. Qed.

(** The loop stops on a text without three line feeds in a row. *)
Lemma collapseBlankLines_no_blank_run (text : string) :
  strings.Contains (collapseBlankLines text) NL3 = false.
Proof.
  funelim (collapseBlankLines text).
  - assumption.
  - assumption.
Qed.

Lemma normalizeLineEndings_no_blank_run (text : string) :
  strings.Contains (normalizeLineEndings text) NL3 = false.
Proof. apply collapseBlankLines_no_blank_run. Qed.

(** C10, at the input CR CR LF: the single pass that replaces CR LF
    by LF joins the first CR with the new LF, and the result of
    normalizeLineEndings is CR LF. *)
Theorem normalizeLineEndings_keeps_crlf :
  normalizeLineEndings (String CR CRLF) = CRLF
  /\ strings.Contains (normalizeLineEndings (String CR CRLF)) CRLF = true
  /\ strings.Contains (normalizeLineEndings (String CR CRLF)) NL3 = false.
Proof. repeat split. Qed.

(** ** termbuf *)

Section Stable.

Context {A B : Type}.

Lemma stable_ret (a : A) : stable (ret a).
Proof. intros tb env. split; reflexivity. Qed.

Lemma stable_self : stable self.
Proof. intros tb env. split; reflexivity. Qed.

Lemma stable_sys (op : world -> result A * world) : stable (sys op).
Proof. intros tb env. unfold sys. destruct (op env). split; reflexivity. Qed.

Lemma stable_bind (m : M A) (k : A -> M B) :
  stable m -> (forall a, stable (k a)) -> stable (bind m k).
Proof.
  intros Hm Hk tb env. unfold bind. specialize (Hm tb env).
  destruct (m tb env) as [[[a|e|] tb'] env']; simpl in *; try exact Hm.
  destruct (Hk a tb' env') as [H1 H2]. destruct Hm as [H3 H4].
  split; congruence.
Qed.

Lemma stable_orFail (msg : string) (m : M A) : stable m -> stable (orFail msg m).
Proof.
  intros Hm tb env. unfold orFail. specialize (Hm tb env).
  destruct (m tb env) as [[[a|e|] tb'] env']; exact Hm.
Qed.

Lemma stable_catch (m : M A) : stable m -> stable (catch m).
Proof.
  intros Hm tb env. unfold catch. specialize (Hm tb env).
  destruct (m tb env) as [[[a|e|] tb'] env']; exact Hm.
Qed.

End Stable.

Lemma stable_setActive (b : bool) : stable (assign (setActive b)).
Proof. intros tb env. split; reflexivity. Qed.

Lemma stable_setOriginalTerm (st : option State) :
  stable (assign (setOriginalTerm st)).
Proof. intros tb env. split; reflexivity. Qed.

Create HintDb stable.
#[local] Hint Resolve stable_ret stable_self stable_sys stable_orFail stable_catch
  stable_setActive stable_setOriginalTerm : stable.

Ltac stable_tac :=
  repeat first
    [ progress auto with stable
    | apply stable_bind; [| intro]
    | match goal with
      | |- stable (if ?c then _ else _) => destruct c
      | |- stable (match ?x with _ => _ end) => destruct x
      | |- stable (fun tb env => (Err _, tb, env)) =>
          intros ? ?; split; reflexivity
      end ].

Lemma enterAltScreen_stable : stable enterAltScreen.
Proof. unfold enterAltScreen. stable_tac. Qed.

Lemma clear_stable : stable clear.
Proof. unfold clear. stable_tac. Qed.

Lemma exitAltScreen_stable : stable exitAltScreen.
Proof. unfold exitAltScreen. stable_tac. Qed.

Lemma writeToAlt_stable (content : string) : stable (writeToAlt content).
Proof. unfold writeToAlt. stable_tac. Qed.

Lemma finalOutput_stable (content : string) : stable (finalOutput content).
Proof.
  unfold finalOutput. apply stable_bind; [apply stable_self | intro tb].
  destruct (isTerminal tb && isActive tb).
  - apply stable_bind; [apply exitAltScreen_stable | intro; apply stable_sys].
  - apply stable_sys.
Qed.

Lemma runOp_stable (o : op) : stable (runOp o).
Proof.
  destruct o; simpl.
  - apply enterAltScreen_stable.
  - apply clear_stable.
  - apply writeToAlt_stable.
  - apply exitAltScreen_stable.
  - apply finalOutput_stable.
Qed.

(** What the methods do when the destination is not a terminal:
    nothing, except finalOutput, which hands the content as it is to
    the file. *)
Lemma runOp_not_terminal (o : op) (tb : termbuf) (env : world) :
  isTerminal tb = false ->
  runOp o tb env =
  match o with
  | OpFinal content =>
      (fst (FprintFile (file tb) content env), tb,
       snd (FprintFile (file tb) content env))
  | _ => (Ok tt, tb, env)
  end.
Proof.
  intros H. destruct o; simpl;
    unfold enterAltScreen, clear, writeToAlt, exitAltScreen, finalOutput,
      bind, self, sys, ret;
    rewrite H; simpl; try reflexivity.
  destruct (FprintFile (file tb) content env); reflexivity.
Qed.

Lemma FprintFile_log (file : option fd) (s : string) (env : world) :
  log (snd (FprintFile file s env)) =
  (log env ++ match file with
              | Some f => [Write (File f) s]
              | None => []
              end)%list.
Proof.
  destruct file as [f|]; simpl.
  - apply Fprint_log.
  - now rewrite app_nil_r.
Qed.

Lemma FprintFile_no_panic (file : option fd) (s : string) (env : world) :
  fst (FprintFile file s env) <> Panic.
Proof.
  destruct file as [f|]; simpl; [|discriminate].
  rewrite Fprint_result. destruct (fails 0 env); discriminate.
Qed.

(** On a destination that is not a terminal, a sequence of operations
    leaves the termbuf as it is, and the calls it makes are the writes
    of the contents given to finalOutput, in order and unchanged. *)
Lemma run_not_terminal (ops : list op) (tb : termbuf) (env : world) :
  isTerminal tb = false ->
  fst (run ops tb env) = tb
  /\ log (snd (run ops tb env)) =
     (log env ++ match file tb with
                 | Some f => map (Write (File f)) (finals ops)
                 | None => []
                 end)%list.
Proof.
  intros H. revert env. induction ops as [|o ops IH]; intros env.
  - simpl. split; [reflexivity|].
    destruct (file tb); now rewrite app_nil_r.
  - cbn [run]. rewrite (runOp_not_terminal o tb env H).
    destruct o; try exact (IH env).
    pose proof (FprintFile_log (file tb) content env) as L.
    pose proof (FprintFile_no_panic (file tb) content env) as P.
    destruct (FprintFile (file tb) content env) as [r env']. simpl in *.
    destruct (IH env') as [I1 I2].
    destruct r; try congruence;
      (split; [exact I1|]; rewrite I2, L; destruct (file tb);
       simpl; now rewrite <- app_assoc).
Qed.

Lemma enterAltScreen_not_terminal (tb : termbuf) (env : world) :
  isTerminal tb = false -> enterAltScreen tb env = (Ok tt, tb, env).
Proof. intros H. exact (runOp_not_terminal OpEnter tb env H). Qed.

Lemma runOp_invariant (o : op) (tb : termbuf) (env : world) :
  activeOnTerminal tb -> activeOnTerminal (snd (fst (runOp o tb env))).
Proof.
  intros I. unfold activeOnTerminal in *.
  destruct (runOp_stable o tb env) as [T _].
  destruct (isTerminal tb) eqn:E; [intros _; exact T|].
  rewrite (runOp_not_terminal o tb env E).
  destruct o; simpl; rewrite ?E; exact I.
Qed.

Lemma run_invariant (ops : list op) (tb : termbuf) (env : world) :
  activeOnTerminal tb -> activeOnTerminal (fst (run ops tb env)).
Proof.
  revert tb env. induction ops as [|o ops IH]; intros tb env I; [exact I|].
  cbn [run]. pose proof (runOp_invariant o tb env I) as I'.
  destruct (runOp o tb env) as [[[u|e|] tb'] env']; simpl in I';
    [apply IH | apply IH | ]; exact I'.
Qed.

(** C8.  The surface is active only on a terminal: a new termbuf is
    inactive, enterAltScreen leaves an inactive termbuf inactive unless
    the destination is a terminal, every operation keeps the invariant,
    and so does every sequence of operations on a new termbuf.  On a
    destination that is not a terminal the only calls made are the
    writes of the contents given to finalOutput, unchanged: none of the
    escape sequences of termbuf is written there. *)
Theorem termbuf_active_only_on_terminal :
  (forall w env, isActive (newTermbuf w env) = false)
  /\ (forall tb env,
         isActive tb = false ->
         isActive (snd (fst (enterAltScreen tb env))) = true ->
         isTerminal tb = true)
  /\ (forall o tb env,
         activeOnTerminal tb -> activeOnTerminal (snd (fst (runOp o tb env))))
  /\ (forall ops w env env',
         activeOnTerminal (fst (run ops (newTermbuf w env) env')))
  /\ (forall ops tb env,
         isTerminal tb = false ->
         fst (run ops tb env) = tb
         /\ log (snd (run ops tb env)) =
            (log env ++ match file tb with
                        | Some f => map (Write (File f)) (finals ops)
                        | None => []
                        end)%list).
Proof.
  split; [|split; [|split; [|split]]].
  - intros [f|id] env; reflexivity.
  - intros tb env Hi Ha.
    destruct (isTerminal tb) eqn:E; [reflexivity|].
    rewrite (enterAltScreen_not_terminal tb env E) in Ha. simpl in Ha. congruence.
  - exact runOp_invariant.
  - intros ops w env env'. apply run_invariant.
    destruct w; intros H; discriminate H.
  - intros ops tb env H. now apply run_not_terminal.
Qed.

Lemma newTermbuf_wellFormed (w : Writer) (env : world) : wellFormed (newTermbuf w env).
Proof.
  destruct w; split; simpl; intros H; try discriminate.
Qed.

Lemma enterAltScreen_wellFormed (tb : termbuf) (env : world) :
  wellFormed tb ->
  wellFormed (snd (fst (enterAltScreen tb env)))
  /\ fst (fst (enterAltScreen tb env)) <> Panic.
Proof.
  destruct tb as [a t o fl]. destruct env as [lg fs ty md ws].
  unfold wellFormed; simpl. intros [F A].
  unfold enterAltScreen, bind, self, catch, orFail, sys, assign, ret,
    FprintFile, Fprint, termMakeRaw, termGetSize, osSetenv, syscall, setMode,
    setActive, setOriginalTerm.
  simpl.
  destruct t; simpl; [|split; [split|]; auto; discriminate].
  destruct a; simpl; [split; [split|]; auto; discriminate|].
  destruct fl as [f|]; [|exfalso; now apply F].
  destruct fs as [|[] [|[] [|[] [|[] [|[] [|[] rest]]]]]]; destruct ws; simpl;
    (split; [split; intros; try split; try discriminate; auto | discriminate]).
Qed.

Lemma exitAltScreen_wellFormed (tb : termbuf) (env : world) :
  wellFormed tb ->
  wellFormed (snd (fst (exitAltScreen tb env)))
  /\ fst (fst (exitAltScreen tb env)) <> Panic.
Proof.
  destruct tb as [a t o fl]. destruct env as [lg fs ty md ws].
  unfold wellFormed; simpl. intros [F A].
  unfold exitAltScreen, bind, self, orFail, sys, assign, ret,
    FprintFile, Fprint, termRestore, syscall, setMode, setActive.
  simpl.
  destruct t; simpl; [|split; [split|]; auto; discriminate].
  destruct a; simpl; [|split; [split|]; auto; discriminate].
  destruct fl as [f|]; [|exfalso; now apply F].
  destruct o as [st|]; [|exfalso; now apply A].
  destruct fs as [|[] [|[] [|[] rest]]]; simpl;
    (split; [split; intros; try split; try discriminate; auto | discriminate]).
Qed.

Lemma runOp_wellFormed (o : op) (tb : termbuf) (env : world) :
  wellFormed tb ->
  wellFormed (snd (fst (runOp o tb env)))
  /\ fst (fst (runOp o tb env)) <> Panic.
Proof.
  intros W. destruct o; simpl.
  - now apply enterAltScreen_wellFormed.
  - unfold clear, bind, self, catch, sys, ret.
    destruct (isTerminal tb && isActive tb); simpl; [|split; [exact W | discriminate]].
    pose proof (FprintFile_no_panic (file tb) clearHome env) as P.
    destruct (FprintFile (file tb) clearHome env) as [[u|e|] env']; simpl in *;
      try (split; [exact W | discriminate]). congruence.
  - unfold writeToAlt, bind, self, sys, ret.
    destruct (negb (isTerminal tb) || negb (isActive tb)); simpl;
      [split; [exact W | discriminate]|].
    pose proof (FprintFile_no_panic (file tb)
                  (strings.ReplaceAll content NL CRLF) env) as P.
    destruct (FprintFile (file tb) (strings.ReplaceAll content NL CRLF) env)
      as [r env']; simpl in *. split; [exact W | exact P].
  - now apply exitAltScreen_wellFormed.
  - unfold finalOutput, bind, self. cbv beta iota.
    destruct (isTerminal tb && isActive tb).
    + destruct (exitAltScreen_wellFormed tb env W) as [W' P'].
      destruct (exitAltScreen_stable tb env) as [_ Fl].
      destruct (exitAltScreen tb env) as [[[u|e|] tb'] env']; simpl in *;
        try (split; [exact W' | congruence]).
      unfold sys.
      pose proof (FprintFile_no_panic (file tb)
                    (strings.ReplaceAll content NL CRLF) env') as P.
      destruct (FprintFile (file tb) (strings.ReplaceAll content NL CRLF) env')
        as [r env'']; simpl in *. split; [exact W' | exact P].
    + unfold sys.
      pose proof (FprintFile_no_panic (file tb) content env) as P.
      destruct (FprintFile (file tb) content env) as [r env']; simpl in *.
      split; [exact W | exact P].
Qed.

(** No sequence of operations on a well-formed termbuf, a new one in
    particular, panics: the state restored by exitAltScreen is never
    nil. *)
Lemma run_no_panic (ops : list op) (tb : termbuf) (env : world) :
  wellFormed tb -> ~ In Panic (outcomes ops tb env).
Proof.
  revert tb env. induction ops as [|o ops IH]; intros tb env W; [intros []|].
  cbn [outcomes]. destruct (runOp_wellFormed o tb env W) as [W' P].
  destruct (runOp o tb env) as [[[u|e|] tb'] env']; simpl in *;
    try congruence; (intros [H|H]; [discriminate | now apply (IH tb' env')]).
Qed.


Lemma log_app3 (l : list call) (a b c : call) :
  (((l ++ [a]) ++ [b]) ++ [c] = l ++ [a; b; c])%list.
Proof. now rewrite <- !app_assoc. Qed.

Lemma log_app2 (l : list call) (a b : call) :
  ((l ++ [a]) ++ [b] = l ++ [a; b])%list.
Proof. now rewrite <- !app_assoc. Qed.

(** C3, as the code has it.  On an active terminal exitAltScreen shows
    the cursor, leaves the alternate buffer and restores the mode
    saved by enterAltScreen, in that order, and then marks the surface
    inactive.  The first of the three steps that fails ends the
    method: its error is returned, the steps after it are not
    attempted, and the surface stays marked active. *)
Theorem exitAltScreen_stops_at_first_error
        (tb : termbuf) (env : world) (f : fd) (st : State) :
  isTerminal tb = true -> isActive tb = true ->
  file tb = Some f -> originalTerm tb = Some st ->
  let show := Write (File f) showCursor in
  let leave := Write (File f) leaveAlt in
  let restore := Restore f st in
  let '(r, tb', env') := exitAltScreen tb env in
  if fails 0 env then
    r = Err (Errorf "failed to show cursor" Errno)
    /\ log env' = (log env ++ [show])%list
    /\ tb' = tb /\ termMode env' = termMode env
  else if fails 1 env then
    r = Err (Errorf "failed to exit alternate screen" Errno)
    /\ log env' = (log env ++ [show; leave])%list
    /\ tb' = tb /\ termMode env' = termMode env
  else if fails 2 env then
    r = Err (Errorf "failed to restore terminal state" Errno)
    /\ log env' = (log env ++ [show; leave; restore])%list
    /\ tb' = tb /\ termMode env' = termMode env
  else
    r = Ok tt
    /\ log env' = (log env ++ [show; leave; restore])%list
    /\ tb' = setActive false tb /\ termMode env' = st.
Proof.
  destruct tb as [a t o fl]. destruct env as [lg fs ty md ws].
  simpl. intros -> -> -> ->.
  unfold exitAltScreen, bind, self, orFail, sys, assign, FprintFile, Fprint,
    termRestore, syscall, fails, setMode, setActive.
  destruct fs as [|[] [|[] [|[] rest]]]; simpl;
    rewrite ?log_app3, ?log_app2; repeat split; reflexivity.
Qed.

(** On the surface that enterAltScreen leaves on a terminal. *)
Lemma exitAltScreen_stops_at_first_error_witness :
  let '(r, tb', env') :=
    exitAltScreen (fst (entered ttyWorld)) (snd (entered ttyWorld)) in
  r = Ok tt
  /\ log env' =
     (log (snd (entered ttyWorld))
      ++ [Write stdout showCursor; Write stdout leaveAlt; Restore 1%Z Cooked])%list
  /\ tb' = setActive false (fst (entered ttyWorld))
  /\ termMode env' = Cooked.
Proof.
  exact (exitAltScreen_stops_at_first_error
           (fst (entered ttyWorld)) (snd (entered ttyWorld)) 1%Z Cooked
           eq_refl eq_refl eq_refl eq_refl).
Defined.

(** C3, as the specification words it, fails: on a surface entered on
    a terminal, when the write that shows the cursor fails the
    alternate buffer is not left and the terminal mode is not
    restored; the terminal stays in raw mode. *)
Lemma exitAltScreen_not_best_effort :
  isActive (fst (entered flakyWorld)) = true
  /\ termMode flakyWorld = Cooked
  /\ let '(r, tb', env') :=
       exitAltScreen (fst (entered flakyWorld)) (snd (entered flakyWorld)) in
     r = Err (Errorf "failed to show cursor" Errno)
     /\ log env' = (log (snd (entered flakyWorld)) ++ [Write stdout showCursor])%list
     /\ ~ In (Write stdout leaveAlt) (log env')
     /\ ~ In (Restore 1%Z Cooked) (log env')
     /\ isActive tb' = true
     /\ termMode env' = Raw.
Proof.
  vm_compute. repeat split; try reflexivity;
    intros H; repeat (destruct H as [H|H]; [discriminate H|]); exact H.
Qed.

(** What finalOutput does when the surface is not active and the
    destination is a file: one write of the content as it is, whose
    outcome is the result. *)
Lemma finalOutput_inactive_file (content : string) (tb : termbuf) (env : world)
      (f : fd) :
  isActive tb = false -> file tb = Some f ->
  finalOutput content tb env =
  (fst (Fprint (File f) content env), tb, snd (Fprint (File f) content env)).
Proof.
  intros Ha Hf. unfold finalOutput, bind, self, sys, FprintFile.
  rewrite Ha, Hf, andb_false_r.
  destruct (Fprint (File f) content env); reflexivity.
Qed.

(** C7, at a destination that is not an *os.File: newTermbuf keeps a
    nil file, and finalOutput, which writes to that file, returns
    os.ErrInvalid without writing the content. *)
Theorem finalOutput_nil_file (content : string) (id : nat) (env : world) :
  isTerminal (newTermbuf (Other id) env) = false
  /\ isActive (snd (fst (enterAltScreen (newTermbuf (Other id) env) env))) = false
  /\ finalOutput content (newTermbuf (Other id) env) env
     = (Err ErrInvalid, newTermbuf (Other id) env, env).
Proof. repeat split. Qed.

(** ** The stream loops *)

Lemma append_assoc (a b c : string) : (a ++ b) ++ c = a ++ b ++ c.
Proof. induction a as [|x a IH]; simpl; congruence. Qed.

Lemma append_nil_r (a : string) : a ++ "" = a.
Proof. induction a as [|x a IH]; simpl; congruence. Qed.

Lemma sameWriter_refl (w : Writer) : sameWriter w w = true.
Proof. destruct w; simpl; [apply Z.eqb_refl | apply Nat.eqb_refl]. Qed.

(** The calls of one diff step of the first version. *)
Lemma writeUpdate_log (w : Writer) (lastOutput newOutput : string) (env : world) :
  log (snd (writeUpdate w lastOutput newOutput env)) =
  (log env ++ if strings.HasPrefix newOutput lastOutput
              then [Write w (strings.TrimPrefix newOutput lastOutput)]
              else [Write w clearHome; Write w newOutput])%list.
Proof.
  destruct (strings.HasPrefix newOutput lastOutput) eqn:H.
  - pose proof H as H'. apply HasPrefix_iff in H' as [t ->].
    rewrite writeUpdate_emit, Patch_append, TrimPrefix_append.
    apply emit_append_log.
  - now destruct (patch_otherwise_repaints lastOutput newOutput w env H).
Qed.


Lemma writeUpdate_shows (w : Writer) (lastOutput newOutput base out : string)
      (env : world) :
  written w (log env) = base ++ out ->
  shows out lastOutput ->
  exists out',
    written w (log (snd (writeUpdate w lastOutput newOutput env))) = base ++ out'
    /\ shows out' newOutput.
Proof.
  intros W S. rewrite writeUpdate_log, written_app, W.
  destruct (strings.HasPrefix newOutput lastOutput) eqn:H.
  - apply HasPrefix_iff in H as [t ->]. rewrite TrimPrefix_append.
    exists (out ++ t). simpl. rewrite sameWriter_refl, append_nil_r, append_assoc.
    split; [reflexivity|].
    destruct S as [-> | [pre ->]]; [now left | right].
    exists pre. now rewrite !append_assoc.
  - exists (out ++ clearHome ++ newOutput). simpl.
    rewrite !sameWriter_refl, append_nil_r, append_assoc.
    split; [reflexivity | right; now exists out].
Qed.

Lemma Plain_loop_shows (r : Renderer) (w : Writer) (input : list string) :
  forall buffer previousLines lastOutput env buffer' lastOutput' env' base out,
    Plain.loop r w input buffer previousLines lastOutput env
    = (Ok (buffer', lastOutput'), env') ->
    written w (log env) = base ++ out ->
    shows out lastOutput ->
    buffer' = buffer ++ joined input
    /\ exists out', written w (log env') = base ++ out' /\ shows out' lastOutput'.
Proof.
  induction input as [|line rest IH]; intros buffer prev last env buffer' last'
    env' base out L W S; cbn [Plain.loop] in L.
  - inversion L; subst. split; [now rewrite append_nil_r | now exists out].
  - cbv zeta in L.
    assert (J : (buffer ++ line ++ NL) ++ joined rest
                = buffer ++ joined (line :: rest)).
    { cbn [joined]. now rewrite !append_assoc. }
    destruct (shouldRenderUpdate line (prev ++ [line])) as [[|]|]; try discriminate.
    + destruct (renderContentIncremental r (buffer ++ line ++ NL))
        as [newOutput|e|]; try discriminate.
      destruct (writeUpdate_shows w last newOutput base out env W S)
        as (out1 & W1 & S1).
      destruct (writeUpdate w last newOutput env) as [[u|e|] env1];
        try discriminate.
      destruct (IH _ _ _ _ _ _ _ _ _ L W1 S1) as [B R].
      split; [now rewrite B | exact R].
    + destruct (IH _ _ _ _ _ _ _ _ _ L W S) as [B R].
      split; [now rewrite B | exact R].
Qed.

(** X1.  When the first version of renderIncrementalFromStdin returns
    without error, the last render is the render of all the lines,
    each followed by a line feed, and the bytes handed to the writer
    are that render, alone or after other output and a clear-and-home
    sequence. *)
Theorem plain_stream_shows_final_render
        (r : Renderer) (w : Writer) (input : list string) (env env' : world) :
  Plain.renderIncrementalFromStdin r w input None env = (Ok tt, env') ->
  exists final out,
    renderContentIncremental r (joined input) = Ok final
    /\ written w (log env') = written w (log env) ++ out
    /\ shows out final.
Proof.
  unfold Plain.renderIncrementalFromStdin. intros H.
  destruct (setupRenderer r); try discriminate.
  destruct (Plain.loop r w input "" [] "" env) as [[[buffer last]|e|] env1] eqn:L;
    try discriminate.
  destruct (Plain_loop_shows r w input "" [] "" env buffer last env1
              (written w (log env)) "" L) as (B & out1 & W1 & S1).
  { now rewrite append_nil_r. }
  { now left. }
  simpl in B. subst buffer.
  destruct (renderContentIncremental r (joined input)) as [final|e|];
    try discriminate.
  exists final.
  destruct (String.eqb final last) eqn:Q; simpl in H.
  - apply String.eqb_eq in Q. subst last. inversion H; subst.
    now exists out1.
  - destruct (writeUpdate_shows w last final _ out1 env1 W1 S1) as (out2 & W2 & S2).
    rewrite H in W2. now exists out2.
Qed.

Lemma plain_stream_shows_final_render_witness :
  exists final out,
    renderContentIncremental echo (joined ["# A"; "para"]) = Ok final
    /\ written stdout
         (log (snd (Plain.renderIncrementalFromStdin echo stdout ["# A"; "para"]
                      None pipeWorld)))
       = written stdout (log pipeWorld) ++ out
    /\ shows out final.
Proof.
  exact (plain_stream_shows_final_render echo stdout ["# A"; "para"] pipeWorld _
           eq_refl).
Defined.

Lemma HasPrefix_empty (s : string) : strings.HasPrefix s "" = true.
Proof. apply HasPrefix_iff. now exists s. Qed.

Lemma Plain_loop_additive (r : Renderer) (w : Writer) (input : list string) :
  additive r ->
  forall buffer previousLines lastOutput env buffer' lastOutput' env' base,
    Plain.loop r w input buffer previousLines lastOutput env
    = (Ok (buffer', lastOutput'), env') ->
    written w (log env) = base ++ lastOutput ->
    (lastOutput = "" \/ exists a b, buffer = a ++ b
                                 /\ renderContentIncremental r a = Ok lastOutput) ->
    written w (log env') = base ++ lastOutput'
    /\ (lastOutput' = "" \/ exists a b, buffer' = a ++ b
                                     /\ renderContentIncremental r a = Ok lastOutput').
Proof.
  intros A. induction input as [|line rest IH]; intros buffer prev last env buffer'
    last' env' base L W S; cbn [Plain.loop] in L.
  - inversion L; subst. now split.
  - cbv zeta in L.
    destruct (shouldRenderUpdate line (prev ++ [line])) as [[|]|]; try discriminate.
    + destruct (renderContentIncremental r (buffer ++ line ++ NL))
        as [newOutput|e|] eqn:R; try discriminate.
      assert (P : strings.HasPrefix newOutput last = true).
      { destruct S as [-> | (a & b & -> & Ra)]; [apply HasPrefix_empty|].
        rewrite append_assoc in R. exact (A _ _ _ _ Ra R). }
      pose proof (writeUpdate_log w last newOutput env) as G. rewrite P in G.
      destruct (writeUpdate w last newOutput env) as [[u|e|] env1];
        try discriminate.
      simpl in G. apply (IH _ _ _ _ _ _ _ base L).
      * rewrite G, written_app, W. simpl.
        rewrite sameWriter_refl, append_nil_r, append_assoc. f_equal.
        apply HasPrefix_iff in P as [t ->]. now rewrite TrimPrefix_append.
      * right. exists (buffer ++ line ++ NL), "". now rewrite append_nil_r.
    + apply (IH _ _ _ _ _ _ _ base L W).
      destruct S as [-> | (a & b & -> & Ra)]; [now left | right].
      exists a, (b ++ line ++ NL). now rewrite append_assoc.
Qed.

(** X2.  With an additive renderer the first version never repaints:
    when it returns without error, the bytes handed to the writer are
    exactly the render of all the lines. *)
Theorem plain_stream_additive
        (r : Renderer) (w : Writer) (input : list string) (env env' : world) :
  additive r ->
  Plain.renderIncrementalFromStdin r w input None env = (Ok tt, env') ->
  exists final,
    renderContentIncremental r (joined input) = Ok final
    /\ written w (log env') = written w (log env) ++ final.
Proof.
  intros A. unfold Plain.renderIncrementalFromStdin. intros H.
  destruct (setupRenderer r); try discriminate.
  destruct (Plain.loop r w input "" [] "" env) as [[[buffer last]|e|] env1] eqn:L;
    try discriminate.
  pose proof (Plain_loop_shows r w input "" [] "" env buffer last env1
                (written w (log env)) "" L) as [B _].
  { now rewrite append_nil_r. }
  { now left. }
  simpl in B. subst buffer.
  destruct (Plain_loop_additive r w input A "" [] "" env _ last env1
              (written w (log env)) L) as [W1 S1].
  { now rewrite append_nil_r. }
  { now left. }
  destruct (renderContentIncremental r (joined input)) as [final|e|] eqn:R;
    try discriminate.
  exists final. split; [reflexivity|].
  destruct (String.eqb final last) eqn:Q; simpl in H.
  - apply String.eqb_eq in Q. subst last. now inversion H; subst.
  - assert (P : strings.HasPrefix final last = true).
    { destruct S1 as [-> | (a1 & b1 & E & Ra)]; [apply HasPrefix_empty|].
      rewrite E in R. exact (A _ _ _ _ Ra R). }
    pose proof (writeUpdate_log w last final env1) as G. rewrite P, H in G.
    simpl in G. rewrite G, written_app, W1. simpl.
    rewrite sameWriter_refl, append_nil_r, append_assoc. f_equal.
    apply HasPrefix_iff in P as [t ->]. now rewrite TrimPrefix_append.
Qed.

Lemma echo_additive : additive echo.
Proof.
  intros a b x y Hx Hy. unfold renderContentIncremental in *. simpl in *.
  inversion Hx; inversion Hy; subst. apply HasPrefix_append.
Qed.

Lemma plain_stream_additive_witness :
  exists final,
    renderContentIncremental echo (joined ["# A"; "para"]) = Ok final
    /\ written stdout
         (log (snd (Plain.renderIncrementalFromStdin echo stdout ["# A"; "para"]
                      None pipeWorld)))
       = written stdout (log pipeWorld) ++ final.
Proof.
  exact (plain_stream_additive echo stdout ["# A"; "para"] pipeWorld _
           echo_additive eq_refl).
Defined.

(** *** The second version on a terminal on which no call fails *)


Lemma keeps_ret {A : Type} (P : termbuf -> world -> Prop) (a : A) :
  keeps P (ret a).
Proof. intros tb env H. exact H. Qed.

Lemma keeps_bind {A B : Type} (P : termbuf -> world -> Prop) (m : M A)
      (k : A -> M B) :
  keeps P m -> (forall a, keeps P (k a)) -> keeps P (bind m k).
Proof.
  intros Hm Hk tb env H. unfold bind. specialize (Hm tb env H).
  destruct (m tb env) as [[[a|e|] tb'] env']; simpl in *; try exact Hm.
  now apply Hk.
Qed.

Lemma keeps_catch {A : Type} (P : termbuf -> world -> Prop) (m : M A) :
  keeps P m -> keeps P (catch m).
Proof.
  intros Hm tb env H. unfold catch. specialize (Hm tb env H).
  destruct (m tb env) as [[[a|e|] tb'] env']; exact Hm.
Qed.

Lemma keeps_orFail {A : Type} (P : termbuf -> world -> Prop) (msg : string)
      (m : M A) :
  keeps P m -> keeps P (orFail msg m).
Proof.
  intros Hm tb env H. unfold orFail. specialize (Hm tb env H).
  destruct (m tb env) as [[[a|e|] tb'] env']; exact Hm.
Qed.

Lemma keeps_self (P : termbuf -> world -> Prop) : keeps P self.
Proof. intros tb env H. exact H. Qed.

Lemma keeps_stop {A : Type} (P : termbuf -> world -> Prop) (res : result A) :
  keeps P (fun tb env => (res, tb, env)).
Proof. intros tb env H. exact H. Qed.

Lemma writeToAlt_Entered (f : fd) (m0 : State) (content : string) :
  keeps (Entered f m0) (writeToAlt content).
Proof.
  intros tb [lg fs ty md ws] (-> & F & T). simpl in F, T. subst.
  repeat split.
Qed.

Lemma clear_Entered (f : fd) (m0 : State) : keeps (Entered f m0) clear.
Proof.
  intros tb [lg fs ty md ws] (-> & F & T). simpl in F, T. subst.
  repeat split.
Qed.

Lemma updateAltScreen_Entered (f : fd) (m0 : State) (lastOutput newOutput : string) :
  keeps (Entered f m0) (updateAltScreen lastOutput newOutput).
Proof.
  unfold updateAltScreen. apply keeps_bind; [apply keeps_self | intros tb].
  destruct (isActive tb); [|apply keeps_ret].
  apply keeps_bind; [|intros; apply keeps_ret].
  destruct (negb (strings.HasPrefix newOutput lastOutput)).
  - apply keeps_bind; [apply clear_Entered | intros].
    apply keeps_bind; [|intros; apply keeps_ret].
    apply keeps_catch, writeToAlt_Entered.
  - apply keeps_bind; [|intros; apply keeps_ret].
    apply keeps_catch, writeToAlt_Entered.
Qed.

Lemma onTimeout_Entered (f : fd) (m0 : State) (r : Renderer)
      (buffer lastOutput finalOutput : string) :
  keeps (Entered f m0) (Alt.onTimeout r buffer lastOutput finalOutput).
Proof.
  unfold Alt.onTimeout.
  destruct (negb (String.eqb buffer "")); [|apply keeps_ret].
  destruct (renderContentIncremental r buffer) as [newOutput|e|];
    try apply keeps_stop.
  apply keeps_bind; [apply keeps_self | intros tb].
  destruct (isActive tb); [|apply keeps_ret].
  destruct (negb (String.eqb newOutput lastOutput)); [|apply keeps_ret].
  apply keeps_bind; [|intros; apply keeps_ret].
  destruct (negb (strings.HasPrefix newOutput lastOutput)).
  - apply keeps_bind; [apply clear_Entered | intros].
    apply keeps_bind; [|intros; apply keeps_ret].
    apply keeps_catch, writeToAlt_Entered.
  - apply keeps_bind; [|intros; apply keeps_ret].
    apply keeps_catch, writeToAlt_Entered.
Qed.

Lemma Alt_loop_Entered (f : fd) (m0 : State) (r : Renderer)
      (input : list (string * bool)) :
  forall buffer previousLines lastOutput finalOutput,
    keeps (Entered f m0)
          (Alt.loop r input buffer previousLines lastOutput finalOutput).
Proof.
  induction input as [|[line stalled] rest IH]; intros; cbn [Alt.loop].
  - apply keeps_ret.
  - cbv zeta.
    destruct (shouldRenderUpdate line (previousLines ++ [line]))
      as [shouldRender|]; [|apply keeps_stop].
    apply keeps_bind.
    + destruct shouldRender; [|apply keeps_ret].
      destruct (renderContentIncremental r (buffer ++ line ++ NL));
        try apply keeps_stop.
      apply keeps_bind; [apply updateAltScreen_Entered | intros; apply keeps_ret].
    + intros outs. apply keeps_bind.
      * destruct stalled; [apply onTimeout_Entered | apply keeps_ret].
      * intros outs'. apply IH.
Qed.

Lemma exitAltScreen_Entered (f : fd) (m0 : State) (tb : termbuf) (env : world) :
  Entered f m0 tb env ->
  fst (fst (exitAltScreen tb env)) = Ok tt
  /\ Left m0 (snd (fst (exitAltScreen tb env))) (snd (exitAltScreen tb env))
  /\ log (snd (exitAltScreen tb env))
     = (log env ++ [Write (File f) showCursor; Write (File f) leaveAlt;
                    Restore f m0])%list.
Proof.
  destruct env as [lg fs ty md ws]. intros (-> & F & T). simpl in F, T. subst.
  unfold Left. simpl. rewrite log_app3. repeat split.
Qed.

Lemma exitAltScreen_Left (m0 : State) (tb : termbuf) (env : world) :
  Left m0 tb env -> exitAltScreen tb env = (Ok tt, tb, env).
Proof.
  intros (A & _). unfold exitAltScreen, bind, self, ret.
  rewrite A, orb_true_r. reflexivity.
Qed.

Lemma enterAltScreen_calm (f : fd) (env : world) :
  tty env f = true -> faults env = [] ->
  fst (fst (enterAltScreen (newTermbuf (File f) env) env)) = Ok tt
  /\ Entered f (termMode env)
             (snd (fst (enterAltScreen (newTermbuf (File f) env) env)))
             (snd (enterAltScreen (newTermbuf (File f) env) env)).
Proof.
  destruct env as [lg fs ty md [wd ht]]. simpl. intros T F. subst fs.
  unfold enterAltScreen, bind, self. simpl. rewrite T. simpl.
  repeat split.
Qed.

Lemma finalOutput_Entered (f : fd) (m0 : State) (content : string)
      (tb : termbuf) (env : world) :
  Entered f m0 tb env ->
  fst (fst (finalOutput content tb env)) = Ok tt
  /\ Left m0 (snd (fst (finalOutput content tb env)))
          (snd (finalOutput content tb env))
  /\ log (snd (finalOutput content tb env))
     = (log env ++ [Write (File f) showCursor; Write (File f) leaveAlt;
                    Restore f m0;
                    Write (File f) (strings.ReplaceAll content NL CRLF)])%list.
Proof.
  destruct env as [lg fs ty md ws]. intros (-> & F & T). simpl in F, T. subst.
  unfold Left. simpl. rewrite log_app3, <- app_assoc. repeat split.
Qed.

(** The value of the loop of the second version is the text of all the
    lines. *)
Lemma Alt_loop_buffer (r : Renderer) (input : list (string * bool)) :
  forall buffer previousLines lastOutput finalOutput tb env buffer' tb' env',
    Alt.loop r input buffer previousLines lastOutput finalOutput tb env
    = (Ok buffer', tb', env') ->
    buffer' = buffer ++ joined (map fst input).
Proof.
  induction input as [|[line stalled] rest IH]; intros until env'; intros L;
    cbn [Alt.loop] in L.
  - inversion L. now rewrite append_nil_r.
  - cbv zeta in L.
    destruct (shouldRenderUpdate line (previousLines ++ [line]))
      as [shouldRender|]; [|discriminate].
    unfold bind in L at 1.
    match type of L with
    | context [match ?m tb env with _ => _ end] =>
        destruct (m tb env) as [[[outs|e|] tb1] env1]; try discriminate
    end.
    unfold bind in L at 1.
    match type of L with
    | context [match ?m tb1 env1 with _ => _ end] =>
        destruct (m tb1 env1) as [[[outs'|e|] tb2] env2]; try discriminate
    end.
    apply IH in L. rewrite L. cbn [map fst joined]. now rewrite !append_assoc.
Qed.

(** The body of the second version ends with an error or a panic and
    the surface still entered, or without error after finalOutput, the
    surface left and the mode restored. *)
Lemma Alt_body_calm (f : fd) (m0 : State) (r : Renderer)
      (input : list (string * bool)) (scanErr : option error)
      (tb : termbuf) (env : world) :
  Entered f m0 tb env ->
  let '(res, tb', env') := Alt.body r input scanErr tb env in
  (Entered f m0 tb' env' /\ res <> Ok tt)
  \/ (Left m0 tb' env' /\ res = Ok tt
      /\ exists final pre,
           renderContentIncremental r (joined (map fst input)) = Ok final
           /\ log env' =
              (pre ++ [Write (File f) showCursor; Write (File f) leaveAlt;
                       Restore f m0;
                       Write (File f) (strings.ReplaceAll final NL CRLF)])%list).
Proof.
  intros E. unfold Alt.body.
  destruct (setupRenderer r) as [[]|e|] eqn:S;
    try (left; split; [exact E | discriminate]).
  unfold bind.
  pose proof (Alt_loop_Entered f m0 r input "" [] "" "" tb env E) as E1.
  destruct (Alt.loop r input "" [] "" "" tb env) as [[[buffer|e|] tb1] env1] eqn:L;
    simpl in E1; try (left; split; [exact E1 | discriminate]).
  apply Alt_loop_buffer in L. simpl in L. subst buffer.
  destruct scanErr; [left; split; [exact E1 | discriminate]|].
  destruct (renderContentIncremental r (joined (map fst input)))
    as [final|e|]; try (left; split; [exact E1 | discriminate]).
  destruct (finalOutput_Entered f m0 final tb1 env1 E1) as (R & Lf & G).
  unfold orFail.
  destruct (finalOutput final tb1 env1) as [[res tb2] env2]. simpl in *. subst res.
  right. split; [exact Lf|]. split; [reflexivity|].
  exists final, (log env1). split; [reflexivity | exact G].
Qed.

(** The second version on a terminal on which no call fails: how it
    returns. *)
Lemma Alt_run_calm (r : Renderer) (f : fd) (input : list (string * bool))
      (scanErr : option error) (env : world) :
  tty env f = true -> faults env = [] ->
  exists res tb' env',
    Alt.renderIncrementalFromStdin r (File f) false input scanErr env
    = Some (res, tb', env')
    /\ Left (termMode env) tb' env'
    /\ (res = Ok tt ->
        exists final pre,
          renderContentIncremental r (joined (map fst input)) = Ok final
          /\ log env' =
             (pre ++ [Write (File f) showCursor; Write (File f) leaveAlt;
                      Restore f (termMode env);
                      Write (File f) (strings.ReplaceAll final NL CRLF)])%list).
Proof.
  intros T F. unfold Alt.renderIncrementalFromStdin, catch.
  destruct (enterAltScreen_calm f env T F) as [R E].
  destruct (enterAltScreen (newTermbuf (File f) env) env) as [[res0 tb0] env0].
  simpl in R, E. subst res0. cbn [andb].
  unfold Alt.deferExit.
  pose proof (Alt_body_calm f (termMode env) r input scanErr tb0 env0 E) as B.
  destruct (Alt.body r input scanErr tb0 env0) as [[res tb1] env1].
  destruct B as [[E1 N] | (L1 & -> & final & pre & Rf & G)].
  - destruct (exitAltScreen_Entered f (termMode env) tb1 env1 E1) as (X & L2 & _).
    destruct (exitAltScreen tb1 env1) as [[rx tb2] env2]. simpl in *. subst rx.
    exists res, tb2, env2. split; [reflexivity|]. split; [exact L2|].
    intros ->. now elim N.
  - rewrite (exitAltScreen_Left _ tb1 env1 L1).
    exists (Ok tt), tb1, env1. split; [reflexivity|]. split; [exact L1|].
    intros _. now exists final, pre.
Qed.

(** X3.  On a terminal on which no call fails, the second version of
    renderIncrementalFromStdin, run without the loader, returns with
    the surface inactive and the terminal in the mode it had at the
    start, whether it ends with the final output, with an error of the
    renderer or with an error of the scanner. *)
Theorem alt_stream_restores_terminal
        (r : Renderer) (f : fd) (input : list (string * bool))
        (scanErr : option error) (env : world) :
  tty env f = true -> faults env = [] ->
  exists res tb' env',
    Alt.renderIncrementalFromStdin r (File f) false input scanErr env
    = Some (res, tb', env')
    /\ isActive tb' = false
    /\ termMode env' = termMode env.
Proof.
  intros T F.
  destruct (Alt_run_calm r f input scanErr env T F)
    as (res & tb' & env' & R & (A & _ & M) & _).
  now exists res, tb', env'.
Qed.

Lemma alt_stream_restores_terminal_witness :
  exists res tb' env',
    Alt.renderIncrementalFromStdin echo stdout false
      [("# A", false); ("para", true)] (Some Errno) ttyWorld
    = Some (res, tb', env')
    /\ isActive tb' = false
    /\ termMode env' = termMode ttyWorld.
Proof.
  exact (alt_stream_restores_terminal echo 1%Z [("# A", false); ("para", true)]
           (Some Errno) ttyWorld eq_refl eq_refl).
Defined.

(** X4.  On such a terminal, when the second version returns without
    error its last four calls show the cursor, leave the alternate
    buffer, restore the mode and write, with CR LF line ends, the
    render of all the lines. *)
Theorem alt_stream_final_flush_last
        (r : Renderer) (f : fd) (input : list (string * bool)) (env : world)
        (tb' : termbuf) (env' : world) :
  tty env f = true -> faults env = [] ->
  Alt.renderIncrementalFromStdin r (File f) false input None env
  = Some (Ok tt, tb', env') ->
  exists final pre,
    renderContentIncremental r (joined (map fst input)) = Ok final
    /\ log env' =
       (pre ++ [Write (File f) showCursor; Write (File f) leaveAlt;
                Restore f (termMode env);
                Write (File f) (strings.ReplaceAll final NL CRLF)])%list.
Proof.
  intros T F H.
  destruct (Alt_run_calm r f input None env T F)
    as (res & tb1 & env1 & R & _ & G).
  rewrite H in R. inversion R; subst. now apply G.
Qed.

Lemma alt_stream_final_flush_last_witness :
  exists tb' env' final pre,
    Alt.renderIncrementalFromStdin echo stdout false
      [("# A", false); ("para", true)] None ttyWorld
    = Some (Ok tt, tb', env')
    /\ renderContentIncremental echo
         (joined (map fst [("# A", false); ("para", true)])) = Ok final
    /\ log env' =
       (pre ++ [Write stdout showCursor; Write stdout leaveAlt;
                Restore 1%Z (termMode ttyWorld);
                Write stdout (strings.ReplaceAll final NL CRLF)])%list.
Proof.
  eexists _, _.
  assert (R : Alt.renderIncrementalFromStdin echo stdout false
                [("# A", false); ("para", true)] None ttyWorld
              = Some (Ok tt, _, _)) by (vm_compute; reflexivity).
  destruct (alt_stream_final_flush_last echo 1%Z [("# A", false); ("para", true)]
              ttyWorld _ _ eq_refl eq_refl R) as (final & pre & Rf & G).
  exists final, pre. split; [exact R | split; [exact Rf | exact G]].
Defined.

(** *** The second version on a destination that is not a terminal *)


Lemma updateAltScreen_inactive (tb0 : termbuf) (env0 : world)
      (lastOutput newOutput : string) :
  isActive tb0 = false ->
  keeps (Same tb0 env0) (updateAltScreen lastOutput newOutput).
Proof.
  intros A tb env [-> ->]. unfold updateAltScreen, bind, self, ret.
  rewrite A. now split.
Qed.

Lemma onTimeout_inactive (tb0 : termbuf) (env0 : world) (r : Renderer)
      (buffer lastOutput finalOutput : string) :
  isActive tb0 = false ->
  keeps (Same tb0 env0) (Alt.onTimeout r buffer lastOutput finalOutput).
Proof.
  intros A tb env [-> ->]. unfold Alt.onTimeout, bind, self, ret.
  destruct (negb (String.eqb buffer "")); [|now split].
  destruct (renderContentIncremental r buffer); try now split.
  rewrite A. now split.
Qed.

Lemma Alt_loop_inactive (tb0 : termbuf) (env0 : world) (r : Renderer)
      (input : list (string * bool)) :
  isActive tb0 = false ->
  forall buffer previousLines lastOutput finalOutput,
    keeps (Same tb0 env0)
          (Alt.loop r input buffer previousLines lastOutput finalOutput).
Proof.
  intros A. induction input as [|[line stalled] rest IH]; intros; cbn [Alt.loop].
  - apply keeps_ret.
  - cbv zeta.
    destruct (shouldRenderUpdate line (previousLines ++ [line]))
      as [shouldRender|]; [|apply keeps_stop].
    apply keeps_bind.
    + destruct shouldRender; [|apply keeps_ret].
      destruct (renderContentIncremental r (buffer ++ line ++ NL));
        try apply keeps_stop.
      apply keeps_bind; [now apply updateAltScreen_inactive
                        | intros; apply keeps_ret].
    + intros outs. apply keeps_bind.
      * destruct stalled; [now apply onTimeout_inactive | apply keeps_ret].
      * intros outs'. apply IH.
Qed.

(** X5.  When standard output is a file that is not a terminal, the
    second version of renderIncrementalFromStdin, with or without the
    loader, makes no call for the alternate screen: either it makes no
    call at all, or its only call is the write of the render of all the
    lines, as it is; the latter when it returns without error. *)
Theorem alt_stream_on_pipe
        (r : Renderer) (f : fd) (useLoader : bool) (input : list (string * bool))
        (scanErr : option error) (env : world) :
  tty env f = false ->
  exists res tb' env',
    Alt.renderIncrementalFromStdin r (File f) useLoader input scanErr env
    = Some (res, tb', env')
    /\ isActive tb' = false
    /\ (log env' = log env /\ res <> Ok tt
        \/ exists final,
             renderContentIncremental r (joined (map fst input)) = Ok final
             /\ log env' = (log env ++ [Write (File f) final])%list
             /\ (res = Ok tt
                 \/ res = Err (Errorf "failed to output final content" Errno))).
Proof.
  intros T. unfold Alt.renderIncrementalFromStdin, catch. simpl. rewrite T.
  set (tb0 := mkTermbuf false false None (Some f)).
  rewrite (enterAltScreen_not_terminal tb0 env eq_refl).
  cbn [isActive tb0 andb]. rewrite andb_false_r.
  unfold Alt.deferExit, Alt.body.
  assert (X : forall tb1 env1, isActive tb1 = false ->
                exitAltScreen tb1 env1 = (Ok tt, tb1, env1)).
  { intros tb1 env1 A. unfold exitAltScreen, bind, self, ret.
    now rewrite A, orb_true_r. }
  destruct (setupRenderer r) as [[]|e|].
  2,3: rewrite (X tb0 env eq_refl); eexists _, _, _;
       (split; [reflexivity|]; split; [reflexivity|]; left;
        split; [reflexivity | discriminate]).
  unfold bind.
  pose proof (Alt_loop_inactive tb0 env r input eq_refl "" [] "" "" tb0 env
                (conj eq_refl eq_refl)) as S.
  destruct (Alt.loop r input "" [] "" "" tb0 env) as [[[buffer|e|] tb1] env1] eqn:L;
    simpl in S; destruct S as [-> ->].
  2,3: rewrite (X tb0 env eq_refl); eexists _, _, _;
       (split; [reflexivity|]; split; [reflexivity|]; left;
        split; [reflexivity | discriminate]).
  apply Alt_loop_buffer in L. simpl in L. subst buffer.
  destruct scanErr.
  { rewrite (X tb0 env eq_refl). eexists _, _, _.
    split; [reflexivity|]. split; [reflexivity|]. left.
    split; [reflexivity | discriminate]. }
  destruct (renderContentIncremental r (joined (map fst input))) as [final|e|].
  2,3: rewrite (X tb0 env eq_refl); eexists _, _, _;
       (split; [reflexivity|]; split; [reflexivity|]; left;
        split; [reflexivity | discriminate]).
  unfold orFail. rewrite (finalOutput_inactive_file final tb0 env f eq_refl eq_refl).
  pose proof (Fprint_log (File f) final env) as G.
  pose proof (Fprint_result (File f) final env) as R.
  destruct (Fprint (File f) final env) as [res env2]. simpl in *.
  destruct (fails 0 env); subst res; rewrite (X tb0 env2 eq_refl);
    eexists _, _, _; (split; [reflexivity|]; split; [reflexivity|]; right;
                      exists final; split; [reflexivity|]; split; [exact G|]);
    [now right | now left].
Qed.

Lemma alt_stream_on_pipe_witness :
  exists res tb' env',
    Alt.renderIncrementalFromStdin echo stdout true
      [("# A", false); ("para", true)] None pipeWorld
    = Some (res, tb', env')
    /\ isActive tb' = false
    /\ (log env' = log pipeWorld /\ res <> Ok tt
        \/ exists final,
             renderContentIncremental echo
               (joined (map fst [("# A", false); ("para", true)])) = Ok final
             /\ log env' = (log pipeWorld ++ [Write stdout final])%list
             /\ (res = Ok tt
                 \/ res = Err (Errorf "failed to output final content" Errno))).
Proof.
  exact (alt_stream_on_pipe echo 1%Z true [("# A", false); ("para", true)] None
           pipeWorld eq_refl).
Defined.

(** ** termbuf: more on the surface *)

(** Split on the outcome of the next call of the world, as far as the
    goal asks for it. *)
Ltac next_fault :=
  match goal with
  | |- context [match ?fs with [] => _ | _ :: _ => _ end] =>
      is_var fs; destruct fs as [|[] fs]; simpl
  end.

(** X6.  No sequence of operations on a termbuf made by newTermbuf
    panics, whatever the writer and whichever calls fail: exitAltScreen
    never restores from a nil state. *)
Theorem termbuf_never_panics (w : Writer) (ops : list op) (env env' : world) :
  ~ In Panic (outcomes ops (newTermbuf w env) env').
Proof. apply run_no_panic, newTermbuf_wellFormed. Qed.

(** X7.  On a terminal on which no call fails, enterAltScreen followed
    by exitAltScreen brings the terminal back to the mode it had: the
    calls are MakeRaw, GetSize, the two Setenv, the four escape
    sequences of entry, then show cursor, leave and Restore with the
    mode saved by MakeRaw; the surface is active in between and
    inactive at the end. *)
Theorem enter_exit_round_trip (f : fd) (env : world) :
  tty env f = true -> faults env = [] ->
  let '(r1, tb1, env1) := enterAltScreen (newTermbuf (File f) env) env in
  let '(r2, tb2, env2) := exitAltScreen tb1 env1 in
  r1 = Ok tt /\ isActive tb1 = true /\ termMode env1 = Raw
  /\ r2 = Ok tt /\ isActive tb2 = false /\ termMode env2 = termMode env
  /\ log env2 =
     (log env ++ [MakeRaw f; GetSize f;
                  Setenv "COLUMNS" (fst (winsize env));
                  Setenv "LINES" (snd (winsize env));
                  Write (File f) enterAlt; Write (File f) clearHome;
                  Write (File f) wrapOn; Write (File f) hideCursor;
                  Write (File f) showCursor; Write (File f) leaveAlt;
                  Restore f (termMode env)])%list.
Proof.
  destruct env as [lg fs ty md [wd ht]]. simpl. intros T F. subst fs.
  unfold enterAltScreen, exitAltScreen, bind, self. simpl. rewrite T. simpl.
  repeat split. rewrite <- !app_assoc. reflexivity.
Qed.

Lemma enter_exit_round_trip_witness :
  let '(r1, tb1, env1) := enterAltScreen (newTermbuf stdout ttyWorld) ttyWorld in
  let '(r2, tb2, env2) := exitAltScreen tb1 env1 in
  r1 = Ok tt /\ isActive tb1 = true /\ termMode env1 = Raw
  /\ r2 = Ok tt /\ isActive tb2 = false /\ termMode env2 = Cooked
  /\ log env2 =
     [MakeRaw 1%Z; GetSize 1%Z; Setenv "COLUMNS" 80%Z; Setenv "LINES" 24%Z;
      Write stdout enterAlt; Write stdout clearHome;
      Write stdout wrapOn; Write stdout hideCursor;
      Write stdout showCursor; Write stdout leaveAlt; Restore 1%Z Cooked].
Proof.
  exact (enter_exit_round_trip 1%Z ttyWorld eq_refl eq_refl).
Defined.

(** X8.  When enterAltScreen fails after MakeRaw has succeeded (one of
    the four escape sequences could not be written), the terminal is
    left in raw mode with the surface inactive, and exitAltScreen,
    which the caller defers, then does nothing: the mode is not
    restored. *)
Theorem enter_failure_leaves_raw_mode (f : fd) (env : world) (e : error) :
  tty env f = true -> fails 0 env = false ->
  fst (fst (enterAltScreen (newTermbuf (File f) env) env)) = Err e ->
  let '(_, tb1, env1) := enterAltScreen (newTermbuf (File f) env) env in
  isActive tb1 = false
  /\ termMode env1 = Raw
  /\ exitAltScreen tb1 env1 = (Ok tt, tb1, env1).
Proof.
  destruct env as [lg fs ty md [wd ht]]. unfold fails. simpl. intros T F.
  unfold enterAltScreen, exitAltScreen, bind, self, catch, orFail, sys, assign,
    ret, FprintFile, Fprint, termMakeRaw, termGetSize, osSetenv, syscall,
    setMode, setActive, setOriginalTerm.
  simpl. rewrite T. simpl.
  destruct fs as [|[] fs]; simpl in *; try discriminate;
    repeat first [ next_fault
                 | let H := fresh in intros H; discriminate H
                 | intros _; repeat split; reflexivity ].
Qed.

Lemma enter_failure_leaves_raw_mode_witness :
  let '(_, tb1, env1) :=
    enterAltScreen
      (newTermbuf stdout (mkWorld [] [false; false; true] (fun _ => true)
                                  Cooked (80, 24)%Z))
      (mkWorld [] [false; false; true] (fun _ => true) Cooked (80, 24)%Z) in
  isActive tb1 = false
  /\ termMode env1 = Raw
  /\ exitAltScreen tb1 env1 = (Ok tt, tb1, env1).
Proof.
  exact (enter_failure_leaves_raw_mode 1%Z
           (mkWorld [] [false; false; true] (fun _ => true) Cooked (80, 24)%Z)
           (Errorf "failed to enter alternate screen" Errno)
           eq_refl eq_refl eq_refl).
Defined.

Lemma log_app4 (l : list call) (a b c d : call) :
  ((((l ++ [a]) ++ [b]) ++ [c]) ++ [d] = l ++ [a; b; c; d])%list.
Proof. now rewrite <- !app_assoc. Qed.

(** X9.  On an active terminal finalOutput shows the cursor, leaves the
    alternate buffer, restores the mode and then writes the content
    with CR LF line ends, and stops at the first of these four calls
    that fails: the content reaches the terminal only when the three
    steps of exitAltScreen have succeeded, and an error of its write
    is returned as it is, the surface being inactive by then. *)
Theorem finalOutput_stops_at_first_error
        (content : string) (tb : termbuf) (env : world) (f : fd) (st : State) :
  isTerminal tb = true -> isActive tb = true ->
  file tb = Some f -> originalTerm tb = Some st ->
  let show := Write (File f) showCursor in
  let leave := Write (File f) leaveAlt in
  let restore := Restore f st in
  let out := Write (File f) (strings.ReplaceAll content NL CRLF) in
  let '(r, tb', env') := finalOutput content tb env in
  if fails 0 env then
    r = Err (Errorf "failed to show cursor" Errno)
    /\ log env' = (log env ++ [show])%list /\ tb' = tb
  else if fails 1 env then
    r = Err (Errorf "failed to exit alternate screen" Errno)
    /\ log env' = (log env ++ [show; leave])%list /\ tb' = tb
  else if fails 2 env then
    r = Err (Errorf "failed to restore terminal state" Errno)
    /\ log env' = (log env ++ [show; leave; restore])%list /\ tb' = tb
  else if fails 3 env then
    r = Err Errno
    /\ log env' = (log env ++ [show; leave; restore; out])%list
    /\ tb' = setActive false tb /\ termMode env' = st
  else
    r = Ok tt
    /\ log env' = (log env ++ [show; leave; restore; out])%list
    /\ tb' = setActive false tb /\ termMode env' = st.
Proof.
  destruct tb as [a t o fl]. destruct env as [lg fs ty md ws].
  simpl. intros -> -> -> ->.
  unfold finalOutput, exitAltScreen, bind, self, orFail, sys, assign, FprintFile,
    Fprint, termRestore, syscall, fails, setMode, setActive.
  destruct fs as [|[] [|[] [|[] [|[] rest]]]]; simpl;
    rewrite ?log_app4, ?log_app3, ?log_app2; repeat split; reflexivity.
Qed.

Lemma finalOutput_stops_at_first_error_witness :
  let '(r, tb', env') :=
    finalOutput ("a" ++ NL) (fst (entered ttyWorld)) (snd (entered ttyWorld)) in
  r = Ok tt
  /\ log env' =
     (log (snd (entered ttyWorld))
      ++ [Write stdout showCursor; Write stdout leaveAlt; Restore 1%Z Cooked;
          Write stdout (strings.ReplaceAll ("a" ++ NL) NL CRLF)])%list
  /\ tb' = setActive false (fst (entered ttyWorld))
  /\ termMode env' = Cooked.
Proof.
  exact (finalOutput_stops_at_first_error ("a" ++ NL)
           (fst (entered ttyWorld)) (snd (entered ttyWorld)) 1%Z Cooked
           eq_refl eq_refl eq_refl eq_refl).
Defined.

(** *** Line ends *)

Lemma HasPrefix_cons (c a : ascii) (s p : string) :
  strings.HasPrefix (String c s) (String a p)
  = Ascii.eqb c a && strings.HasPrefix s p.
Proof.
  unfold strings.HasPrefix. simpl.
  destruct (length p <=? length s)%nat; simpl.
  - destruct (Ascii.eqb c a); reflexivity.
  - now rewrite andb_false_r.
Qed.

Lemma HasPrefix_nil_l (a : ascii) (p : string) :
  strings.HasPrefix "" (String a p) = false.
Proof. reflexivity. Qed.

(** The text with CR LF line ends: the scan of ReplaceAll(s, "\n",
    "\r\n") puts a CR before every LF. *)
Lemma toCRLF_cons (c : ascii) (s : string) :
  strings.ReplaceAll (String c s) NL CRLF
  = if Ascii.eqb c LF then String CR (String LF (strings.ReplaceAll s NL CRLF))
    else String c (strings.ReplaceAll s NL CRLF).
Proof.
  unfold strings.ReplaceAll, NL. cbn [strings.replaceScan].
  rewrite HasPrefix_cons, HasPrefix_empty, andb_true_r. simpl.
  destruct (Ascii.eqb c LF); reflexivity.
Qed.

Lemma toCRLF_head (s : string) :
  strings.HasPrefix (strings.ReplaceAll s NL CRLF) NL = false.
Proof.
  destruct s as [|c s]; [reflexivity|]. rewrite toCRLF_cons.
  destruct (Ascii.eqb_spec c LF) as [->|N]; unfold NL; rewrite HasPrefix_cons.
  - reflexivity.
  - apply Ascii.eqb_neq in N. now rewrite N.
Qed.

(** X10.  The conversion of line ends made by writeToAlt and
    finalOutput, LF to CR LF, is undone by the first step of
    normalizeLineEndings, CR LF to LF, on every text, also one that
    holds CR LF already. *)
Theorem crlf_round_trip (s : string) :
  strings.ReplaceAll (strings.ReplaceAll s NL CRLF) CRLF NL = s.
Proof.
  induction s as [|c s IH]; [reflexivity|].
  rewrite toCRLF_cons.
  pose proof (toCRLF_head s) as Hd.
  remember (strings.ReplaceAll s NL CRLF) as t eqn:Et.
  unfold strings.ReplaceAll, CRLF, NL in *.
  destruct (Ascii.eqb_spec c LF) as [->|N].
  - cbn [strings.replaceScan].
    rewrite !HasPrefix_cons, HasPrefix_empty. simpl.
    destruct t as [|d t]; simpl in *; [now rewrite <- IH|].
    now rewrite <- IH.
  - cbn [strings.replaceScan]. rewrite HasPrefix_cons.
    destruct (Ascii.eqb_spec c CR) as [->|N'].
    + rewrite Hd. simpl. now rewrite IH.
    + simpl. now rewrite IH.
Qed.

(** ** normalizeLineEndings: what the result is *)

Lemma replaceScan_absent (old new s : string) :
  strings.Contains s old = false -> strings.replaceScan old new 0 s = s.
Proof.
  induction s as [|c s IH]; [reflexivity|]. cbn [strings.Contains strings.replaceScan].
  intros H. apply orb_false_elim in H as [H1 H2].
  rewrite H1. f_equal. now apply IH.
Qed.

Lemma ReplaceAll_absent (old new s : string) :
  strings.Contains s old = false -> strings.ReplaceAll s old new = s.
Proof.
  intros H. unfold strings.ReplaceAll. destruct old; [reflexivity|].
  now apply replaceScan_absent.
Qed.

Lemma replaceScan_length (old new : string) :
  (length new <= length old)%nat -> (1 <= length old)%nat ->
  forall s skip,
    (skip <= length s)%nat ->
    (length (strings.replaceScan old new skip s) + skip <= length s)%nat.
Proof.
  intros Hn Ho. induction s as [|c s IH]; intros skip Hs; simpl in *; [lia|].
  destruct skip as [|k].
  - destruct (strings.HasPrefix (String c s) old) eqn:E.
    + unfold strings.HasPrefix in E. apply andb_prop in E as [E _].
      apply Nat.leb_le in E. simpl in E. rewrite length_append.
      specialize (IH (length old - 1)%nat ltac:(lia)). lia.
    + simpl. specialize (IH 0%nat ltac:(lia)). lia.
  - specialize (IH k ltac:(lia)). lia.
Qed.

Lemma ReplaceAll_length (old new s : string) :
  (length new <= length old)%nat ->
  (length (strings.ReplaceAll s old new) <= length s)%nat.
Proof.
  intros H. unfold strings.ReplaceAll. destruct old as [|a old]; [lia|].
  pose proof (replaceScan_length (String a old) new H ltac:(simpl; lia) s 0%nat
                ltac:(lia)).
  lia.
Qed.

Lemma collapseBlankLines_length (text : string) :
  (length (collapseBlankLines text) <= length text)%nat.
Proof.
  funelim (collapseBlankLines text).
  - pose proof (collapse_pass_shortens text more). lia.
  - lia.
Qed.

(** X11.  The result of normalizeLineEndings never holds three line
    feeds in a row and is never longer than the text. *)
Theorem normalizeLineEndings_collapses (text : string) :
  strings.Contains (normalizeLineEndings text) NL3 = false
  /\ (length (normalizeLineEndings text) <= length text)%nat.
Proof.
  split; [apply collapseBlankLines_no_blank_run|].
  unfold normalizeLineEndings.
  pose proof (collapseBlankLines_length (strings.ReplaceAll text CRLF NL)).
  pose proof (ReplaceAll_length CRLF NL text ltac:(simpl; lia)).
  lia.
Qed.

Lemma collapseBlankLines_fixed (text : string) :
  strings.Contains text NL3 = false -> collapseBlankLines text = text.
Proof.
  intros H. funelim (collapseBlankLines text); [congruence | reflexivity].
Qed.

(** X12.  A text without CR LF and without three line feeds in a row
    is returned as it is. *)
Theorem normalizeLineEndings_fixed (text : string) :
  strings.Contains text CRLF = false ->
  strings.Contains text NL3 = false ->
  normalizeLineEndings text = text.
Proof.
  intros H1 H2. unfold normalizeLineEndings.
  rewrite (ReplaceAll_absent CRLF NL text H1).
  now apply collapseBlankLines_fixed.
Qed.

Lemma normalizeLineEndings_fixed_witness :
  normalizeLineEndings ("a" ++ NL ++ NL ++ "b" ++ NL)
  = "a" ++ NL ++ NL ++ "b" ++ NL.
Proof.
  exact (normalizeLineEndings_fixed ("a" ++ NL ++ NL ++ "b" ++ NL)
           eq_refl eq_refl).
Defined.

(** The scan of ReplaceAll(s, "\r\n", "\n"), one or two bytes at a
    time. *)
Lemma fromCRLF_cons (c : ascii) (s : string) :
  strings.ReplaceAll (String c s) CRLF NL
  = if Ascii.eqb c CR && strings.HasPrefix s NL
    then match s with
         | String _ s' => String LF (strings.ReplaceAll s' CRLF NL)
         | EmptyString => EmptyString
         end
    else String c (strings.ReplaceAll s CRLF NL).
Proof.
  unfold strings.ReplaceAll, CRLF, NL. cbn [strings.replaceScan].
  rewrite HasPrefix_cons.
  destruct (Ascii.eqb c CR); simpl; [|reflexivity].
  destruct s as [|d s]; [reflexivity|].
  rewrite HasPrefix_cons, HasPrefix_empty, andb_true_r.
  destruct (Ascii.eqb d LF); reflexivity.
Qed.

(** The scan of ReplaceAll(s, "\n\n\n", "\n\n"). *)
Lemma collapse_cons (c : ascii) (s : string) :
  strings.ReplaceAll (String c s) NL3 NL2
  = if strings.HasPrefix (String c s) NL3
    then match s with
         | String _ (String _ s') =>
             String LF (String LF (strings.ReplaceAll s' NL3 NL2))
         | _ => EmptyString
         end
    else String c (strings.ReplaceAll s NL3 NL2).
Proof.
  unfold strings.ReplaceAll, NL3, NL2, NL. cbn [append strings.replaceScan].
  destruct (strings.HasPrefix (String c s) (String LF (String LF (String LF ""))))
    eqn:E; [|reflexivity].
  rewrite HasPrefix_cons in E. apply andb_prop in E as [_ E].
  destruct s as [|d s]; [discriminate|].
  rewrite HasPrefix_cons in E. apply andb_prop in E as [_ E].
  destruct s as [|d' s]; [discriminate|]. reflexivity.
Qed.

Lemma Contains_cons (c : ascii) (s p : string) :
  strings.Contains (String c s) p
  = strings.HasPrefix (String c s) p || strings.Contains s p.
Proof. reflexivity. Qed.

Lemma HasPrefix_NL (c : ascii) (s : string) :
  strings.HasPrefix (String c s) NL = Ascii.eqb c LF.
Proof. unfold NL. now rewrite HasPrefix_cons, HasPrefix_empty, andb_true_r. Qed.

Lemma HasPrefix_CRLF (c : ascii) (s : string) :
  strings.HasPrefix (String c s) CRLF = Ascii.eqb c CR && strings.HasPrefix s NL.
Proof. unfold CRLF. now rewrite HasPrefix_cons. Qed.

Lemma HasPrefix_CRCRLF (c : ascii) (s : string) :
  strings.HasPrefix (String c s) CRCRLF
  = Ascii.eqb c CR && strings.HasPrefix s CRLF.
Proof. unfold CRCRLF. now rewrite HasPrefix_cons. Qed.

Lemma HasPrefix_NL3 (c d : ascii) (s : string) :
  strings.HasPrefix (String c (String d s)) NL3
  = Ascii.eqb c LF && (Ascii.eqb d LF && strings.HasPrefix s NL).
Proof. unfold NL3, NL. cbn [append]. now rewrite !HasPrefix_cons. Qed.

Lemma fromCRLF_clean (n : nat) :
  forall s, (length s <= n)%nat ->
    strings.Contains s CRCRLF = false ->
    strings.Contains (strings.ReplaceAll s CRLF NL) CRLF = false
    /\ (strings.HasPrefix (strings.ReplaceAll s CRLF NL) NL = true ->
        strings.HasPrefix s NL = true \/ strings.HasPrefix s CRLF = true).
Proof.
  induction n as [|n IH]; intros s Hl Hc.
  - destruct s; [|simpl in Hl; lia]. split; [reflexivity | discriminate].
  - destruct s as [|c s]; [split; [reflexivity | discriminate]|].
    simpl in Hl. rewrite Contains_cons in Hc.
    apply orb_false_elim in Hc as [Hh Hc].
    rewrite fromCRLF_cons.
    destruct (Ascii.eqb c CR && strings.HasPrefix s NL) eqn:E.
    + pose proof E as E'. apply andb_prop in E' as [Ec En].
      destruct s as [|d s]; [discriminate|].
      rewrite Contains_cons in Hc. apply orb_false_elim in Hc as [_ Hc].
      destruct (IH s ltac:(simpl in Hl; lia) Hc) as [I1 I2].
      split.
      * rewrite Contains_cons, HasPrefix_CRLF.
        change (Ascii.eqb LF CR) with false. exact I1.
      * intros _. right. now rewrite HasPrefix_CRLF.
    + destruct (IH s ltac:(lia) Hc) as [I1 I2]. split.
      * rewrite Contains_cons, I1, orb_false_r, HasPrefix_CRLF.
        destruct (Ascii.eqb c CR) eqn:Ec; [|reflexivity]. simpl in *.
        destruct (strings.HasPrefix (strings.ReplaceAll s CRLF NL) NL) eqn:Hd;
          [|reflexivity].
        destruct (I2 eq_refl) as [H|H]; [congruence|].
        rewrite HasPrefix_CRCRLF, Ec, H in Hh. discriminate.
      * rewrite !HasPrefix_NL. intros H. now left.
Qed.

Lemma collapse_clean (n : nat) :
  forall s, (length s <= n)%nat ->
    strings.Contains s CRLF = false ->
    strings.Contains (strings.ReplaceAll s NL3 NL2) CRLF = false
    /\ (strings.HasPrefix (strings.ReplaceAll s NL3 NL2) NL = true ->
        strings.HasPrefix s NL = true).
Proof.
  induction n as [|n IH]; intros s Hl Hc.
  - destruct s; [|simpl in Hl; lia]. split; [reflexivity | discriminate].
  - destruct s as [|c s]; [split; [reflexivity | discriminate]|].
    simpl in Hl. rewrite Contains_cons in Hc.
    apply orb_false_elim in Hc as [Hh Hc].
    rewrite collapse_cons.
    destruct (strings.HasPrefix (String c s) NL3) eqn:E.
    + destruct s as [|d [|d' s]]; try discriminate.
      rewrite HasPrefix_NL3 in E.
      apply andb_prop in E as [Ec E]. apply andb_prop in E as [Ed _].
      rewrite !Contains_cons in Hc. apply orb_false_elim in Hc as [_ Hc].
      apply orb_false_elim in Hc as [_ Hc].
      destruct (IH s ltac:(simpl in Hl; lia) Hc) as [I1 I2].
      split; [|rewrite !HasPrefix_NL; intros _; exact Ec].
      rewrite !Contains_cons, !HasPrefix_CRLF.
      change (Ascii.eqb LF CR) with false. exact I1.
    + destruct (IH s ltac:(lia) Hc) as [I1 I2]. split.
      * rewrite Contains_cons, I1, orb_false_r, HasPrefix_CRLF.
        rewrite HasPrefix_CRLF in Hh.
        destruct (Ascii.eqb c CR); [|reflexivity]. simpl in *.
        destruct (strings.HasPrefix (strings.ReplaceAll s NL3 NL2) NL) eqn:Hd;
          [|reflexivity].
        rewrite (I2 eq_refl) in Hh. discriminate.
      * rewrite !HasPrefix_NL. now intros H.
Qed.

Lemma collapseBlankLines_clean (text : string) :
  strings.Contains text CRLF = false ->
  strings.Contains (collapseBlankLines text) CRLF = false.
Proof.
  funelim (collapseBlankLines text); intros Hc; [|exact Hc].
  apply H. now apply (collapse_clean (length text) text).
Qed.

(** X13.  The result of normalizeLineEndings holds no CR LF whenever
    the text holds no CR CR LF. *)
Theorem normalizeLineEndings_no_crlf (text : string) :
  strings.Contains text CRCRLF = false ->
  strings.Contains (normalizeLineEndings text) CRLF = false.
Proof.
  intros H. unfold normalizeLineEndings.
  apply collapseBlankLines_clean.
  now apply (fromCRLF_clean (length text) text).
Qed.

Lemma normalizeLineEndings_no_crlf_witness :
  strings.Contains
    (normalizeLineEndings ("a" ++ CRLF ++ CRLF ++ CRLF ++ "b" ++ CRLF)) CRLF
  = false.
Proof.
  exact (normalizeLineEndings_no_crlf
           ("a" ++ CRLF ++ CRLF ++ CRLF ++ "b" ++ CRLF) eq_refl).
Defined.

(** ** The patterns, by the shape of the lines *)

Lemma Matches_Eps (x : string) : Matches Eps x <-> x = "".
Proof. split; [intros H; now inversion H | intros ->; constructor]. Qed.

Lemma Matches_Cls (p : ascii -> bool) (x : string) :
  Matches (Cls p) x <-> exists c, x = String c "" /\ p c = true.
Proof.
  split.
  - intros H. inversion H; subst. now exists c.
  - intros (c & -> & H). now constructor.
Qed.

Lemma Matches_Cat (r1 r2 : regex) (x : string) :
  Matches (Cat r1 r2) x <->
  exists x1 x2, x = x1 ++ x2 /\ Matches r1 x1 /\ Matches r2 x2.
Proof.
  split.
  - intros H. inversion H; subst. now exists s1, s2.
  - intros (x1 & x2 & -> & H1 & H2). now constructor.
Qed.

Lemma Matches_Alt (r1 r2 : regex) (x : string) :
  Matches (Alt r1 r2) x <-> Matches r1 x \/ Matches r2 x.
Proof.
  split.
  - intros H. inversion H; subst; auto.
  - intros [H|H]; [now apply MAltL | now apply MAltR].
Qed.

Lemma Matches_Lit (l x : string) : Matches (Lit l) x <-> x = l.
Proof.
  revert x. induction l as [|c l IH]; intros x; simpl.
  - apply Matches_Eps.
  - rewrite Matches_Cat. split.
    + intros (x1 & x2 & -> & H1 & H2). apply IH in H2. subst x2.
      unfold Chr in H1. apply Matches_Cls in H1 as (d & -> & E).
      apply Ascii.eqb_eq in E. now subst.
    + intros ->. exists (String c ""), l. split; [reflexivity|]. split.
      * unfold Chr. constructor. apply Ascii.eqb_refl.
      * now apply IH.
Qed.

Lemma Matches_Star_Cls (p : ascii -> bool) (x : string) :
  Matches (Star (Cls p)) x <-> allb p x = true.
Proof.
  split.
  - intros H. remember (Star (Cls p)) as r eqn:E.
    induction H; try discriminate; [reflexivity|].
    inversion E; subst. apply Matches_Cls in H as (c & -> & Hc). simpl.
    rewrite Hc. now apply IHMatches2.
  - induction x as [|c x IH]; simpl; intros H; [constructor|].
    apply andb_prop in H as [H1 H2].
    change (String c x) with (String c "" ++ x).
    constructor; [now constructor | now apply IH].
Qed.

Lemma Matches_Plus_Cls (p : ascii -> bool) (x : string) :
  Matches (Plus (Cls p)) x <->
  exists c x', x = String c x' /\ p c = true /\ allb p x' = true.
Proof.
  unfold Plus. rewrite Matches_Cat. split.
  - intros (x1 & x2 & -> & H1 & H2). apply Matches_Cls in H1 as (c & -> & Hc).
    apply Matches_Star_Cls in H2. now exists c, x2.
  - intros (c & x' & -> & Hc & H). exists (String c ""), x'.
    split; [reflexivity|]. split; [now constructor | now apply Matches_Star_Cls].
Qed.

Lemma allb_append (p : ascii -> bool) (a b : string) :
  allb p (a ++ b) = allb p a && allb p b.
Proof.
  induction a as [|c a IH]; simpl; [reflexivity|].
  now rewrite IH, andb_assoc.
Qed.

Lemma Matches_Times_Chr (c : ascii) (n : nat) (x : string) :
  Matches (Times n (Lit (String c ""))) x <-> x = copies c n.
Proof.
  revert x. induction n as [|n IH]; intros x; simpl.
  - apply Matches_Eps.
  - rewrite Matches_Cat. split.
    + intros (x1 & x2 & -> & H1 & H2).
      apply (Matches_Lit (String c "")) in H1. apply IH in H2. now subst.
    + intros ->. exists (String c ""), (copies c n).
      split; [reflexivity|]. split; [now apply (Matches_Lit (String c "")) |].
      now apply IH.
Qed.

Lemma Matches_UpTo_Chr (c : ascii) (n : nat) (x : string) :
  Matches (UpTo n (Lit (String c ""))) x <->
  exists m, (m <= n)%nat /\ x = copies c m.
Proof.
  revert x. induction n as [|n IH]; intros x; simpl.
  - rewrite Matches_Eps. split.
    + intros ->. now exists 0%nat.
    + intros (m & H & ->). now replace m with 0%nat by lia.
  - rewrite Matches_Alt, Matches_Eps, Matches_Cat. split.
    + intros [-> | (x1 & x2 & -> & H1 & H2)].
      * exists 0%nat. split; [lia | reflexivity].
      * apply (Matches_Lit (String c "")) in H1. apply IH in H2 as (m & Hm & ->).
        subst. exists (S m). split; [lia | reflexivity].
    + intros (m & Hm & ->). destruct m as [|m]; [now left | right].
      exists (String c ""), (copies c m). split; [reflexivity|].
      split; [now apply (Matches_Lit (String c "")) |].
      apply IH. exists m. split; [lia | reflexivity].
Qed.

Lemma copies_append (c : ascii) (a b : nat) :
  copies c a ++ copies c b = copies c (a + b).
Proof. induction a as [|a IH]; simpl; congruence. Qed.

Lemma allb_spaceClass_split (x t : string) (c : ascii) :
  spaceClass c = true -> exists w rest, String c x ++ t = String w rest
                                        /\ spaceClass w = true.
Proof. intros H. now exists c, (x ++ t). Qed.

(** Each pattern matches lines of one of the shapes. *)
Lemma referenceLink_shape (x t : string) :
  Matches (cat [Lit "["; Star Dot; Lit "]:"; Plus Space]) x ->
  Structural (x ++ t).
Proof.
  cbn [cat fold_right]. intros H.
  apply Matches_Cat in H as (a & x1 & -> & Ha & H). apply Matches_Lit in Ha.
  apply Matches_Cat in H as (mid & x2 & -> & Hm & H).
  apply (Matches_Star_Cls dotClass) in Hm.
  apply Matches_Cat in H as (b & x3 & -> & Hb & H). apply Matches_Lit in Hb.
  apply Matches_Cat in H as (sp & x4 & -> & Hs & H).
  apply (Matches_Plus_Cls spaceClass) in Hs as (w & ws & -> & Hw & _).
  apply Matches_Eps in H. subst.
  rewrite !append_assoc. cbn [append].
  exact (ReferenceLink mid w _ Hm Hw).
Qed.

Lemma footnote_shape (x t : string) :
  Matches (cat [Lit "[^"; Star Dot; Lit "]:"; Plus Space]) x ->
  Structural (x ++ t).
Proof.
  cbn [cat fold_right]. intros H.
  apply Matches_Cat in H as (a & x1 & -> & Ha & H). apply Matches_Lit in Ha.
  apply Matches_Cat in H as (mid & x2 & -> & Hm & H).
  apply (Matches_Star_Cls dotClass) in Hm.
  apply Matches_Cat in H as (b & x3 & -> & Hb & H). apply Matches_Lit in Hb.
  apply Matches_Cat in H as (sp & x4 & -> & Hs & H).
  apply (Matches_Plus_Cls spaceClass) in Hs as (w & ws & -> & Hw & _).
  apply Matches_Eps in H. subst.
  rewrite !append_assoc. cbn [append].
  apply (ReferenceLink (String "^" mid) w). 
  - simpl. exact Hm.
  - exact Hw.
Qed.

Lemma heading_shape (x t : string) :
  Matches (Cat (Between 1 6 (Lit "#")) (Plus Space)) x -> Structural (x ++ t).
Proof.
  intros H. apply Matches_Cat in H as (h & sp & -> & Hh & Hs).
  unfold Between in Hh. apply Matches_Cat in Hh as (h1 & h2 & -> & H1 & H2).
  apply (Matches_Times_Chr "#" 1) in H1.
  apply (Matches_UpTo_Chr "#" 5) in H2 as (m & Hm & ->). subst h1.
  apply (Matches_Plus_Cls spaceClass) in Hs as (w & ws & -> & Hw & _).
  rewrite copies_append, !append_assoc. cbn [append].
  apply Heading; [lia | exact Hw].
Qed.

Lemma rule_shape (c : ascii) (x t : string) :
  c = "*"%char \/ c = "-"%char \/ c = "_"%char ->
  Matches (AtLeast 3 (Cat (Lit (String c "")) (Star Space))) x ->
  Structural (x ++ t).
Proof.
  intros Hc H. unfold AtLeast in H. cbn [Times] in H.
  apply Matches_Cat in H as (x3 & more & -> & H & _).
  apply Matches_Cat in H as (a1 & H' & -> & H1 & H).
  apply Matches_Cat in H as (a2 & H'' & -> & H2 & H).
  apply Matches_Cat in H as (a3 & e & -> & H3 & H).
  apply Matches_Eps in H. subst e.
  apply Matches_Cat in H1 as (l1 & w1 & -> & L1 & W1).
  apply Matches_Cat in H2 as (l2 & w2 & -> & L2 & W2).
  apply Matches_Cat in H3 as (l3 & w3 & -> & L3 & W3).
  apply Matches_Lit in L1, L2, L3. subst.
  apply (Matches_Star_Cls spaceClass) in W1, W2.
  rewrite !append_assoc. cbn [append]. rewrite ?append_assoc.
  exact (HorizontalRule c w1 w2 _ Hc W1 W2).
Qed.

Lemma tableLine_shape (x t : string) :
  Matches (cat [Lit "|"; Star Dot; Lit "|"]) x -> Structural (x ++ t).
Proof.
  cbn [cat fold_right]. intros H.
  apply Matches_Cat in H as (a & x1 & -> & Ha & H). apply Matches_Lit in Ha.
  apply Matches_Cat in H as (mid & x2 & -> & Hm & H).
  apply (Matches_Star_Cls dotClass) in Hm.
  apply Matches_Cat in H as (b & x3 & -> & Hb & H). apply Matches_Lit in Hb.
  apply Matches_Eps in H. subst.
  rewrite !append_assoc. cbn [append].
  exact (TableLine mid _ Hm).
Qed.

Lemma bullet_shape (c : ascii) (x t : string) :
  c = "*"%char \/ c = "-"%char ->
  Matches (cat [Star Space; Lit (String c ""); Plus Space]) x ->
  Structural (x ++ t).
Proof.
  intros Hc. cbn [cat fold_right]. intros H.
  apply Matches_Cat in H as (lead & x1 & -> & Hl & H).
  apply (Matches_Star_Cls spaceClass) in Hl.
  apply Matches_Cat in H as (b & x2 & -> & Hb & H). apply Matches_Lit in Hb.
  apply Matches_Cat in H as (sp & x3 & -> & Hs & H).
  apply (Matches_Plus_Cls spaceClass) in Hs as (w & ws & -> & Hw & _).
  apply Matches_Eps in H. subst.
  rewrite !append_assoc. cbn [append].
  exact (BulletItem lead c w _ Hc Hl Hw).
Qed.

Lemma numbered_shape (x t : string) :
  Matches (cat [Star Space; Plus Digit; Lit "."; Plus Space]) x ->
  Structural (x ++ t).
Proof.
  cbn [cat fold_right]. intros H.
  apply Matches_Cat in H as (lead & x1 & -> & Hl & H).
  apply (Matches_Star_Cls spaceClass) in Hl.
  apply Matches_Cat in H as (ds & x2 & -> & Hd & H).
  apply (Matches_Plus_Cls digitClass) in Hd as (d & ds' & -> & Hd1 & Hd2).
  apply Matches_Cat in H as (b & x3 & -> & Hb & H). apply Matches_Lit in Hb.
  apply Matches_Cat in H as (sp & x4 & -> & Hs & H).
  apply (Matches_Plus_Cls spaceClass) in Hs as (w & ws & -> & Hw & _).
  apply Matches_Eps in H. subst.
  rewrite !append_assoc. cbn [append].
  apply (NumberedItem lead d ds' w); [exact Hl | | exact Hw].
  simpl. now rewrite Hd1.
Qed.

Lemma anchored_shape (src : string) (r : regex) (s : string) :
  (forall x t, Matches r x -> Structural (x ++ t)) ->
  MatchString (MustCompile src true r) s = true -> Structural s.
Proof.
  intros H M. unfold MatchString in M. cbn [anchored body] in M.
  apply matchPrefix_spec in M as (x & t & -> & Hx). now apply H.
Qed.

Lemma matchesPattern_Structural (s : string) :
  matchesPattern s = true -> Structural s.
Proof.
  unfold matchesPattern, patterns. cbn [existsb fst]. intros H.
  repeat (apply orb_prop in H as [H|H]); try discriminate.
  - revert H. apply anchored_shape. apply referenceLink_shape.
  - revert H. apply anchored_shape. apply footnote_shape.
  - revert H. apply anchored_shape. intros x t Hx.
    apply Matches_Lit in Hx. subst. apply CommentStart.
  - unfold MatchString in H. cbn [anchored body] in H.
    apply matchAnywhere_spec in H as (a & x & t & -> & Hx).
    apply Matches_Lit in Hx. subst. apply CommentEnd.
  - revert H. apply anchored_shape. apply heading_shape.
  - revert H. apply anchored_shape. intros x t. apply rule_shape. now left.
  - revert H. apply anchored_shape. intros x t. apply rule_shape. right; now left.
  - revert H. apply anchored_shape. intros x t. apply rule_shape. right; now right.
  - revert H. apply anchored_shape. intros x t Hx.
    apply Matches_Cat in Hx as (a & b & -> & Ha & _). apply Matches_Lit in Ha.
    subst. rewrite append_assoc. apply FencedDiv.
  - revert H. apply anchored_shape. apply tableLine_shape.
  - revert H. apply anchored_shape. intros x t Hx.
    apply Matches_Alt in Hx as [Hx|Hx];
      [|apply Matches_Alt in Hx as [Hx|Hx]].
    + revert Hx. apply bullet_shape. now left.
    + revert Hx. apply numbered_shape.
    + revert Hx. apply bullet_shape. now right.
Qed.

Lemma pattern_hit (i : nat) (s : string) :
  (i < List.length patterns)%nat ->
  MatchString (fst (nth i patterns (MustCompile "" true Fail, ""))) s = true ->
  matchesPattern s = true.
Proof.
  intros Hi H. apply existsb_exists.
  exists (nth i patterns (MustCompile "" true Fail, "")).
  split; [now apply nth_In | exact H].
Qed.

Lemma prefix_hit (i : nat) (x t : string) :
  (i < List.length patterns)%nat ->
  anchored (fst (nth i patterns (MustCompile "" true Fail, ""))) = true ->
  Matches (body (fst (nth i patterns (MustCompile "" true Fail, "")))) x ->
  matchesPattern (x ++ t) = true.
Proof.
  intros Hi A H. apply (pattern_hit i _ Hi). unfold MatchString. rewrite A.
  apply matchPrefix_spec. now exists x, t.
Qed.

Ltac norm_append :=
  repeat (progress (cbn [append]; rewrite ?append_assoc)); reflexivity.

Lemma Matches_space_plus (w : ascii) :
  spaceClass w = true -> Matches (Plus Space) (String w "").
Proof.
  intros H. apply (Matches_Plus_Cls spaceClass). now exists w, "".
Qed.

Lemma Structural_matchesPattern (s : string) :
  Structural s -> matchesPattern s = true.
Proof.
  intros H. destruct H.
  - replace ("[" ++ mid ++ "]:" ++ String w rest)
      with (("[" ++ mid ++ "]:" ++ String w "") ++ rest)
      by norm_append.
    apply (prefix_hit 0); [simpl; lia | reflexivity|].
    cbn [nth patterns fst body cat fold_right].
    apply Matches_Cat. exists "[", (mid ++ "]:" ++ String w "").
    split; [reflexivity|]. split; [now apply Matches_Lit|].
    apply Matches_Cat. exists mid, ("]:" ++ String w "").
    split; [reflexivity|]. split; [now apply (Matches_Star_Cls dotClass)|].
    apply Matches_Cat. exists "]:", (String w "").
    split; [reflexivity|]. split; [now apply Matches_Lit|].
    apply Matches_Cat. exists (String w ""), "".
    split; [reflexivity|]. split; [now apply Matches_space_plus | constructor].
  - apply (prefix_hit 2 "<!--"); [simpl; lia | reflexivity|].
    now apply Matches_Lit.
  - apply (pattern_hit 3); [simpl; lia|].
    cbn [nth patterns fst]. unfold MatchString. cbn [anchored body].
    apply matchAnywhere_spec. exists before, "-->", rest.
    split; [reflexivity | now apply Matches_Lit].
  - replace (copies "#" n ++ String w rest)
      with ((copies "#" n ++ String w "") ++ rest)
      by norm_append.
    apply (prefix_hit 4); [simpl; lia | reflexivity|].
    cbn [nth patterns fst body].
    apply Matches_Cat. exists (copies "#" n), (String w "").
    split; [reflexivity|]. split; [|now apply Matches_space_plus].
    unfold Between. apply Matches_Cat.
    exists (copies "#" 1), (copies "#" (n - 1)). split.
    + rewrite copies_append. f_equal. lia.
    + split; [now apply (Matches_Times_Chr "#" 1)|].
      apply (Matches_UpTo_Chr "#"). exists (n - 1)%nat. split; [lia | reflexivity].
  - replace (String c w1 ++ String c w2 ++ String c rest)
      with ((String c w1 ++ String c w2 ++ String c "") ++ rest)
      by norm_append.
    assert (M : Matches (AtLeast 3 (Cat (Lit (String c "")) (Star Space)))
                        (String c w1 ++ String c w2 ++ String c "")).
    { unfold AtLeast. cbn [Times].
      apply Matches_Cat.
      exists (String c w1 ++ String c w2 ++ String c ""), "".
      split; [now rewrite append_nil_r|]. split; [|constructor].
      apply Matches_Cat. exists (String c w1), (String c w2 ++ String c "").
      split; [reflexivity|]. split.
      { apply Matches_Cat. exists (String c ""), w1. split; [reflexivity|].
        split; [now apply Matches_Lit | now apply (Matches_Star_Cls spaceClass)]. }
      apply Matches_Cat. exists (String c w2), (String c "").
      split; [reflexivity|]. split.
      { apply Matches_Cat. exists (String c ""), w2. split; [reflexivity|].
        split; [now apply Matches_Lit | now apply (Matches_Star_Cls spaceClass)]. }
      apply Matches_Cat. exists (String c ""), "".
      split; [reflexivity|]. split; [|constructor].
      apply Matches_Cat. exists (String c ""), "". split; [reflexivity|].
      split; [now apply Matches_Lit | constructor]. }
    destruct H as [-> | [-> | ->]].
    + apply (prefix_hit 5); [simpl; lia | reflexivity | exact M].
    + apply (prefix_hit 6); [simpl; lia | reflexivity | exact M].
    + apply (prefix_hit 7); [simpl; lia | reflexivity | exact M].
  - apply (prefix_hit 8 ":::"); [simpl; lia | reflexivity|].
    cbn [nth patterns fst body]. apply Matches_Cat. exists ":::", "".
    split; [reflexivity|]. split; [now apply Matches_Lit | constructor].
  - replace ("|" ++ mid ++ "|" ++ rest) with (("|" ++ mid ++ "|") ++ rest)
      by norm_append.
    apply (prefix_hit 9); [simpl; lia | reflexivity|].
    cbn [nth patterns fst body cat fold_right].
    apply Matches_Cat. exists "|", (mid ++ "|").
    split; [reflexivity|]. split; [now apply Matches_Lit|].
    apply Matches_Cat. exists mid, "|".
    split; [reflexivity|]. split; [now apply (Matches_Star_Cls dotClass)|].
    apply Matches_Cat. exists "|", "".
    split; [reflexivity|]. split; [now apply Matches_Lit | constructor].
  - replace (lead ++ String c (String w rest))
      with ((lead ++ String c (String w "")) ++ rest)
      by norm_append.
    apply (prefix_hit 10); [simpl; lia | reflexivity|].
    cbn [nth patterns fst body].
    assert (M : Matches (cat [Star Space; Lit (String c ""); Plus Space])
                        (lead ++ String c (String w ""))).
    { cbn [cat fold_right].
      apply Matches_Cat. exists lead, (String c (String w "")).
      split; [reflexivity|]. split; [now apply (Matches_Star_Cls spaceClass)|].
      apply Matches_Cat. exists (String c ""), (String w "").
      split; [reflexivity|]. split; [now apply Matches_Lit|].
      apply Matches_Cat. exists (String w ""), "".
      split; [reflexivity|]. split; [now apply Matches_space_plus | constructor]. }
    destruct H as [-> | ->].
    + apply Matches_Alt. now left.
    + apply Matches_Alt. right. apply Matches_Alt. now right.
  - replace (lead ++ String d ds ++ "." ++ String w rest)
      with ((lead ++ String d ds ++ "." ++ String w "") ++ rest)
      by norm_append.
    apply (prefix_hit 10); [simpl; lia | reflexivity|].
    cbn [nth patterns fst body].
    apply Matches_Alt. right. apply Matches_Alt. left.
    cbn [cat fold_right].
    apply Matches_Cat. exists lead, (String d ds ++ "." ++ String w "").
    split; [reflexivity|]. split; [now apply (Matches_Star_Cls spaceClass)|].
    apply Matches_Cat. exists (String d ds), ("." ++ String w "").
    split; [reflexivity|]. split.
    { apply (Matches_Plus_Cls digitClass). simpl in H0.
      apply andb_prop in H0 as [Hd Hds]. now exists d, ds. }
    apply Matches_Cat. exists ".", (String w "").
    split; [reflexivity|]. split; [now apply Matches_Lit|].
    apply Matches_Cat. exists (String w ""), "".
    split; [reflexivity|]. split; [now apply Matches_space_plus | constructor].
Qed.

(** X14.  The pattern rule of shouldRenderUpdate fires exactly on the
    lines whose trimmed text has one of these shapes: a reference or
    footnote definition, an HTML comment start, a text holding the end
    of an HTML comment, a heading of one to six hashes, a horizontal
    rule, a fenced div, a table line, a bullet or a numbered item. *)
Theorem patterns_match_structural_lines (line : string) :
  matchesPattern line = true <-> Structural line.
Proof.
  split; [apply matchesPattern_Structural | apply Structural_matchesPattern].
Qed.

(** X15.  A current line whose trimmed text has one of the shapes
    triggers a render whatever the history is. *)
Theorem structural_line_triggers (currentLine : string)
        (previousLines : list string) :
  Structural (strings.TrimSpace currentLine) ->
  shouldRenderUpdate currentLine previousLines = Some true.
Proof.
  intros H. apply Structural_matchesPattern in H.
  unfold shouldRenderUpdate. cbv zeta.
  destruct (Z.rem (Z.of_nat (List.length previousLines)) 10 =? 0)%Z;
    [reflexivity|].
  unfold matchesPattern in H. now rewrite H.
Qed.

Lemma structural_line_triggers_witness :
  shouldRenderUpdate "  ### Title" ["intro"; "  ### Title"] = Some true.
Proof.
  apply structural_line_triggers.
  exact (Heading 3 " " "Title" ltac:(lia) eq_refl).
Defined.

Lemma anyb_append (p : ascii -> bool) (a b : string) :
  anyb p (a ++ b) = anyb p a || anyb p b.
Proof.
  induction a as [|c a IH]; simpl; [reflexivity|].
  now rewrite IH, orb_assoc.
Qed.

Lemma Structural_markup (s : string) : Structural s -> anyb markup s = true.
Proof.
  intros H. destruct H; rewrite ?anyb_append; cbn [append anyb];
    rewrite ?anyb_append; cbn [anyb];
    try (change (markup "[") with true);
    try (change (markup "<") with true);
    try (change (markup "-") with true);
    try (change (markup ":") with true);
    try (change (markup "|") with true);
    try (change (markup ".") with true);
    rewrite ?orb_true_r; try reflexivity.
  - destruct n as [|n]; [lia|]. reflexivity.
  - destruct H as [-> | [-> | ->]]; reflexivity.
  - destruct H as [-> | ->];
      [change (markup "*") with true | change (markup "-") with true];
      now rewrite orb_true_r.
Qed.

(** X16.  A current line that is not empty, does not start with a
    pipe, and whose trimmed text is not the bare fence and holds none
    of the bytes [ < - # * _ : | . does not trigger a render, unless
    the length of the history is a multiple of 10. *)
Theorem plain_line_defers (currentLine : string) (previousLines : list string) :
  anyb markup (strings.TrimSpace currentLine) = false ->
  strings.TrimSpace currentLine <> fence ->
  currentLine <> "" ->
  strings.HasPrefix currentLine "|" = false ->
  Z.rem (Z.of_nat (List.length previousLines)) 10 <> 0%Z ->
  shouldRenderUpdate currentLine previousLines = Some false.
Proof.
  intros Hm Hf He Hp Hr.
  unfold shouldRenderUpdate. cbv zeta.
  apply Z.eqb_neq in Hr. rewrite Hr.
  assert (N : matchesPattern (strings.TrimSpace currentLine) = false).
  { destruct (matchesPattern (strings.TrimSpace currentLine)) eqn:E;
      [|reflexivity].
    apply matchesPattern_Structural, Structural_markup in E. congruence. }
  unfold matchesPattern in N. rewrite N.
  apply String.eqb_neq in Hf, He. rewrite Hf.
  destruct (2 <=? Z.of_nat (List.length previousLines))%Z eqn:L; [|reflexivity].
  destruct (index_in_range previousLines (List.length previousLines - 2))
    as (line & E & _); [apply Z.leb_le in L; lia|].
  replace (Z.of_nat (List.length previousLines) - 2)%Z
    with (Z.of_nat (List.length previousLines - 2))
    by (apply Z.leb_le in L; lia).
  rewrite E, Hp, He, !andb_false_r. reflexivity.
Qed.

Lemma plain_line_defers_witness :
  shouldRenderUpdate "plain text" ["| a |"; "plain text"] = Some false.
Proof.
  apply plain_line_defers; try reflexivity; discriminate.
Defined.

(** *** The loop and the rule on multiples of 10 *)

Lemma feed_nth (input : list string) :
  forall previousLines i line,
    nth_error input i = Some line ->
    nth_error (feed previousLines input) i
    = Some (shouldRenderUpdate line (previousLines ++ firstn (S i) input)).
Proof.
  induction input as [|l rest IH]; intros prev i line H.
  - destruct i; discriminate.
  - destruct i as [|i]; cbn [feed nth_error] in *.
    + inversion H; subst. reflexivity.
    + rewrite (IH _ _ _ H). cbn [firstn]. now rewrite <- app_assoc.
Qed.

Lemma feed_tenth (previousLines input : list string) (i : nat) :
  (i < List.length input)%nat ->
  Z.rem (Z.of_nat (List.length previousLines + i + 1)) 10 = 0%Z ->
  nth_error (feed previousLines input) i = Some (Some true).
Proof.
  intros Hi Hr.
  destruct (nth_error input i) as [line|] eqn:E;
    [|apply nth_error_None in E; lia].
  rewrite (feed_nth _ _ _ _ E). f_equal.
  unfold shouldRenderUpdate. cbv zeta.
  rewrite length_app, length_firstn.
  replace (List.length previousLines + Nat.min (S i) (List.length input))%nat
    with (List.length previousLines + i + 1)%nat by lia.
  now rewrite Hr.
Qed.

(** X17.  In the loop of renderIncrementalFromStdin, where every line
    is appended to the history before shouldRenderUpdate is asked,
    among any ten lines in a row at least one triggers a render. *)
Theorem render_every_ten_lines (previousLines input : list string) (k : nat) :
  (k + 10 <= List.length input)%nat ->
  exists i, (k <= i < k + 10)%nat
            /\ nth_error (feed previousLines input) i = Some (Some true).
Proof.
  intros H.
  set (n := (List.length previousLines + k + 1)%nat).
  exists (k + (10 - 1 - (n - 1) mod 10))%nat.
  pose proof (Nat.mod_upper_bound (n - 1) 10 ltac:(lia)) as B.
  split; [lia|].
  apply feed_tenth; [lia|].
  replace (List.length previousLines + (k + (10 - 1 - (n - 1) mod 10)) + 1)%nat
    with (10 * S ((n - 1) / 10))%nat.
  - apply rem10_multiple.
  - pose proof (Nat.div_mod_eq (n - 1) 10). unfold n in *. lia.
Qed.

Lemma render_every_ten_lines_witness :
  exists i, (0 <= i < 0 + 10)%nat
            /\ nth_error (feed ["x"; "y"; "z"]
                               ["a"; "b"; "c"; "d"; "e"; "f"; "g"; "h"; "i"; "j"]) i
               = Some (Some true).
Proof.
  apply (render_every_ten_lines ["x"; "y"; "z"]
           ["a"; "b"; "c"; "d"; "e"; "f"; "g"; "h"; "i"; "j"] 0).
  simpl. lia.
Defined.

(** ** loader.go: the animation *)

Lemma at_in_range (xs : list string) (i : Z) :
  (0 <= i < Z.of_nat (List.length xs))%Z ->
  exists x, at_ xs i = Ok x /\ nth_error xs (Z.to_nat i) = Some x.
Proof.
  intros H. unfold at_. destruct (Z.ltb_spec i 0); [lia|].
  destruct (nth_error xs (Z.to_nat i)) as [x|] eqn:E; [now exists x|].
  apply nth_error_None in E. lia.
Qed.

Lemma animate_inFrames (w : Writer) (ev : event) (l : loader.loader) (env : world) :
  inFrames l ->
  fst (loader.animate w ev l env) <> Panic
  /\ forall l' env', loader.animate w ev l env = (Ok (Some l'), env') ->
       inFrames l' /\ loader.frames l' = loader.frames l
       /\ loader.active l' = loader.active l
       /\ loader.stopChan l' = loader.stopChan l.
Proof.
  intros I. unfold inFrames in I. destruct ev as [|now|now]; cbn [loader.animate].
  - destruct (Fprint w clearLine env). split; [simpl; discriminate|]. intros ? ? H.
    discriminate.
  - split; [simpl; discriminate|]. intros ? ? H. inversion H; subst. unfold inFrames; simpl. repeat split; try reflexivity; lia.
  - destruct (20 * Millisecond <? now - loader.lastUpdate l)%Z.
    + unfold modulo. destruct (Z.eqb_spec (Z.of_nat (List.length (loader.frames l))) 0);
        [lia|].
      assert (R : (0 <= Z.rem (loader.current l + 1)
                           (Z.of_nat (List.length (loader.frames l)))
                   < Z.of_nat (List.length (loader.frames l)))%Z).
      { pose proof (Z.rem_bound_pos (loader.current l + 1)
                      (Z.of_nat (List.length (loader.frames l)))). lia. }
      destruct (at_in_range _ _ R) as (frame & -> & _).
      destruct (Fprint w (clearLine ++ frame) env).
      split; [simpl; discriminate|]. intros ? ? H. inversion H; subst. unfold inFrames; simpl. repeat split; try reflexivity; lia.
    + split; [simpl; discriminate|]. intros ? ? H. inversion H; subst. unfold inFrames; simpl. repeat split; try reflexivity; lia.
Qed.

Lemma newLoader_inFrames (lt now : Z) :
  lt = loader.loaderDots \/ lt = loader.loaderBraille ->
  inFrames (loader.newLoader lt now).
Proof. intros [-> | ->]; unfold inFrames; simpl; lia. Qed.

(** What a run keeps when start is called at most once: the index is
    in the table, an active loader has no start left, and the channel
    is closed only when the loader is inactive with no start left. *)
Lemma run_safe (w : Writer) (acts : list loader.action) :
  forall l goroutines env,
    inFrames l ->
    (loader.active l = true -> loader.starts acts = 0%nat) ->
    (loader.stopChan l = true ->
     loader.active l = false /\ loader.starts acts = 0%nat) ->
    (loader.starts acts <= 1)%nat ->
    fst (loader.run w acts l goroutines env) <> Panic.
Proof.
  induction acts as [|a acts IH]; intros l g env I A C S; [discriminate|].
  destruct a; cbn [loader.run loader.starts] in *.
  - apply IH; [exact I | | | lia]; simpl.
    + intros _. lia.
    + intros H. destruct (C H). lia.
  - assert (U : inFrames (loader.update l)
                /\ loader.active (loader.update l) = loader.active l
                /\ loader.stopChan (loader.update l) = loader.stopChan l).
    { clear - I. destruct l as [t f c a u m s]. unfold loader.update. simpl.
      destruct a; [destruct (m <? 1)%nat|];
        (split; [exact I | split; reflexivity]). }
    destruct U as (U1 & U2 & U3).
    apply IH; [exact U1 | | | exact S]; rewrite ?U2, ?U3; assumption.
  - unfold loader.stop. destruct (loader.active l) eqn:E.
    + destruct (loader.stopChan l) eqn:X.
      * destruct (C eq_refl). congruence.
      * apply IH; [exact I | | | exact S]; simpl.
        -- discriminate.
        -- intros _. split; [reflexivity | now apply A].
    + apply IH; [exact I | rewrite E; exact A | rewrite E; exact C | exact S].
  - destruct ((0 <? g)%nat && loader.ready ev l); [|now apply IH].
    destruct (animate_inFrames w ev l env I) as [P K].
    destruct (loader.animate w ev l env) as [[[l'|]|e|] env']; simpl in *.
    + destruct (K l' env' eq_refl) as (I' & _ & A' & C').
      apply IH; [exact I' | | | exact S]; rewrite ?A', ?C'; assumption.
    + now apply IH.
    + discriminate.
    + congruence.
Qed.

(** X18.  A loader of one of the two declared types never panics as
    long as start is called at most once, however the calls of start,
    update and stop and the rounds of the goroutine interleave: the
    frame index stays inside the table and stopChan is closed at most
    once. *)
Theorem loader_runs_safely (lt now : Z) (w : Writer)
        (acts : list loader.action) (env : world) :
  lt = loader.loaderDots \/ lt = loader.loaderBraille ->
  (loader.starts acts <= 1)%nat ->
  fst (loader.run w acts (loader.newLoader lt now) 0 env) <> Panic.
Proof.
  intros T S.
  apply run_safe; [now apply newLoader_inFrames | | | exact S]; simpl;
    discriminate.
Qed.

Lemma loader_runs_safely_witness :
  fst (loader.run stdout
         [loader.Start; loader.Update; loader.Round (Message 5);
          loader.Round (Tick 30000000); loader.Stop; loader.Stop;
          loader.Round Stopped]
         (loader.newLoader loader.loaderBraille 0) 0 ttyWorld) <> Panic.
Proof.
  apply loader_runs_safely; [right; reflexivity | simpl; lia].
Defined.

Lemma update_keeps (l : loader.loader) :
  loader.active (loader.update l) = loader.active l
  /\ loader.stopChan (loader.update l) = loader.stopChan l.
Proof.
  destruct l as [t f c a u m s]. unfold loader.update. simpl.
  destruct a; [destruct (m <? 1)%nat|]; split; reflexivity.
Qed.

Lemma modulo_cases (a b : Z) :
  modulo a b = Panic \/ modulo a b = Ok (Z.rem a b).
Proof. unfold modulo. destruct (b =? 0)%Z; [left|right]; reflexivity. Qed.

Lemma at_cases (xs : list string) (i : Z) :
  at_ xs i = Panic \/ exists x, at_ xs i = Ok x.
Proof.
  unfold at_. destruct (i <? 0)%Z; [now left|].
  destruct (nth_error xs (Z.to_nat i)) as [x|]; [right; now exists x|now left].
Qed.

(** A round of the goroutine returns no error, and leaves active and
    stopChan as they are. *)
Lemma animate_keeps (w : Writer) (ev : event) (l : loader.loader) (env : world) :
  match fst (loader.animate w ev l env) with
  | Ok (Some l') => loader.active l' = loader.active l
                    /\ loader.stopChan l' = loader.stopChan l
  | Ok None => True
  | Err _ => False
  | Panic => True
  end.
Proof.
  destruct ev as [|now|now]; cbn [loader.animate].
  - destruct (Fprint w clearLine env). exact I.
  - simpl. split; reflexivity.
  - destruct (20 * Millisecond <? now - loader.lastUpdate l)%Z;
      [|simpl; split; reflexivity].
    destruct (modulo_cases (loader.current l + 1)
                (Z.of_nat (List.length (loader.frames l)))) as [-> | ->];
      [exact I|].
    destruct (at_cases (loader.frames l)
                (Z.rem (loader.current l + 1)
                   (Z.of_nat (List.length (loader.frames l)))))
      as [-> | [frame ->]]; [exact I|].
    destruct (Fprint w (clearLine ++ frame) env). simpl. split; reflexivity.
Qed.

(** Over actions that neither start nor stop, a run panics or goes on
    with active and stopChan as they were. *)
Lemma run_quiet (w : Writer) (q rest : list loader.action) :
  forall l g env,
    quiet q = true ->
    fst (loader.run w (q ++ rest) l g env) = Panic
    \/ exists l' g' env',
        loader.run w (q ++ rest) l g env = loader.run w rest l' g' env'
        /\ loader.active l' = loader.active l
        /\ loader.stopChan l' = loader.stopChan l.
Proof.
  induction q as [|a q IH]; intros l g env Q.
  - right. exists l, g, env. repeat split.
  - destruct a; try discriminate Q; simpl in Q;
      cbn [app loader.run].
    + destruct (update_keeps l) as [A C].
      destruct (IH (loader.update l) g env Q) as [P | (l' & g' & env' & R & A' & C')];
        [now left|].
      right. exists l', g', env'. repeat split; congruence.
    + destruct ((0 <? g)%nat && loader.ready ev l).
      * pose proof (animate_keeps w ev l env) as K.
        destruct (loader.animate w ev l env) as [[[l1|]|e|] env1]; simpl in K.
        -- destruct K as [A C].
           destruct (IH l1 g env1 Q) as [P | (l' & g' & env' & R & A' & C')];
             [now left|].
           right. exists l', g', env'. repeat split; congruence.
        -- apply IH, Q.
        -- destruct K.
        -- now left.
      * apply IH, Q.
Qed.

(** X19.  A loader cannot be started again after it was stopped: once
    start, stop, start and stop have been called in this order, with
    any updates and rounds of the goroutines between them, the run has
    panicked, at the latest in the last stop, which closes the closed
    stopChan.  This holds from any state of the loader. *)
Theorem loader_restart_panics (w : Writer) (q1 q2 q3 rest : list loader.action)
        (l : loader.loader) (g : nat) (env : world) :
  quiet q1 = true -> quiet q2 = true -> quiet q3 = true ->
  fst (loader.run w (loader.Start :: q1 ++ loader.Stop :: q2
                       ++ loader.Start :: q3 ++ loader.Stop :: rest)
         l g env) = Panic.
Proof.
  intros Q1 Q2 Q3. cbn [loader.run].
  destruct (run_quiet w q1 (loader.Stop :: q2 ++ loader.Start :: q3
                              ++ loader.Stop :: rest)
              (loader.start l) (S g) env Q1)
    as [P | (l1 & g1 & env1 & -> & A1 & C1)]; [exact P|].
  simpl in A1. cbn [loader.run]. unfold loader.stop at 1. rewrite A1.
  destruct (loader.stopChan l1); [reflexivity|].
  destruct (run_quiet w q2 (loader.Start :: q3 ++ loader.Stop :: rest)
              (loader.mkLoader (loader.loaderType l1) (loader.frames l1)
                 (loader.current l1) false (loader.lastUpdate l1)
                 (loader.msgChan l1) true) g1 env1 Q2)
    as [P | (l2 & g2 & env2 & -> & A2 & C2)]; [exact P|].
  simpl in C2. cbn [loader.run].
  destruct (run_quiet w q3 (loader.Stop :: rest) (loader.start l2) (S g2) env2 Q3)
    as [P | (l3 & g3 & env3 & -> & A3 & C3)]; [exact P|].
  simpl in A3, C3. cbn [loader.run]. unfold loader.stop.
  rewrite A3, C3, C2. reflexivity.
Qed.

Lemma loader_restart_panics_witness :
  fst (loader.run stdout
         (loader.Start :: [loader.Update; loader.Round (Message 5)]
            ++ loader.Stop :: [loader.Round Stopped]
            ++ loader.Start :: [loader.Round (Tick 30000000)]
            ++ loader.Stop :: [])
         (loader.newLoader loader.loaderDots 0) 0 ttyWorld) = Panic.
Proof.
  apply loader_restart_panics; reflexivity.
Defined.

(** One shown tick: the index moves one step around the table and the
    frame at the new index is written after the clearing sequence. *)
Lemma animate_tick (w : Writer) (t : Z) (l : loader.loader) (env : world) :
  inFrames l ->
  (20 * Millisecond < t - loader.lastUpdate l)%Z ->
  exists l' env',
    loader.animate w (Tick t) l env = (Ok (Some l'), env')
    /\ log env' = (log env ++ [Write w (clearLine ++ frameAt l (loader.current l + 1))])%list
    /\ loader.frames l' = loader.frames l
    /\ loader.lastUpdate l' = loader.lastUpdate l
    /\ loader.current l'
       = ((loader.current l + 1) mod Z.of_nat (List.length (loader.frames l)))%Z.
Proof.
  intros I T. unfold inFrames in I. cbn [loader.animate].
  destruct (Z.ltb_spec (20 * Millisecond) (t - loader.lastUpdate l)); [|lia].
  unfold modulo.
  destruct (Z.eqb_spec (Z.of_nat (List.length (loader.frames l))) 0); [lia|].
  rewrite Z.rem_mod_nonneg by lia.
  assert (R : (0 <= (loader.current l + 1)
                    mod Z.of_nat (List.length (loader.frames l))
               < Z.of_nat (List.length (loader.frames l)))%Z)
    by (apply Z.mod_pos_bound; lia).
  destruct (at_in_range _ _ R) as (frame & -> & N).
  pose proof (Fprint_log w (clearLine ++ frame) env) as L.
  destruct (Fprint w (clearLine ++ frame) env) as [r env'].
  eexists _, env'. split; [reflexivity|]. simpl in *.
  repeat split. rewrite L. unfold frameAt.
  now rewrite (nth_error_nth _ _ _ N).
Qed.

(** X20.  The animation goes through the frames in the order of the
    table, cyclically, starting AFTER the current one (so a new loader
    shows its second frame first): ticks that come more than 20 ms
    after the last update each write the clearing sequence and the
    next frame, nothing else, and leave the index advanced by their
    number modulo the length of the table. *)
Theorem loader_cycles_frames (w : Writer) (ts : list Z) :
  forall (l : loader.loader) (g : nat) (env : world),
    inFrames l -> (0 < g)%nat ->
    Forall (fun t => (20 * Millisecond < t - loader.lastUpdate l)%Z) ts ->
    exists l' env',
      loader.run w (ticks ts) l g env = (Ok (l', g), env')
      /\ log env'
         = (log env
            ++ map (fun j => Write w (clearLine
                                      ++ frameAt l (loader.current l + 1 + Z.of_nat j)))
                   (seq 0 (List.length ts)))%list
      /\ loader.current l'
         = ((loader.current l + Z.of_nat (List.length ts))
            mod Z.of_nat (List.length (loader.frames l)))%Z.
Proof.
  induction ts as [|t ts IH]; intros l g env I G F.
  - exists l, env. split; [reflexivity|]. split.
    + simpl. now rewrite app_nil_r.
    + simpl. rewrite Z.add_0_r. symmetry. apply Z.mod_small. exact I.
  - inversion F as [|? ? T F']; subst.
    destruct (animate_tick w t l env I T) as (l1 & env1 & E & L & Fr & U & Cu).
    assert (I1 : inFrames l1).
    { unfold inFrames in *. rewrite Cu, Fr. apply Z.mod_pos_bound. lia. }
    assert (F1 : Forall (fun t => (20 * Millisecond < t - loader.lastUpdate l1)%Z) ts)
      by (rewrite U; exact F').
    destruct (IH l1 g env1 I1 G F1) as (l' & env' & R & L' & C').
    exists l', env'. split; [|split].
    + cbn [ticks map loader.run]. fold (ticks ts).
      destruct (Nat.ltb_spec 0 g); [|lia]. cbn [andb loader.ready].
      rewrite E. exact R.
    + rewrite L', L, <- app_assoc. f_equal. cbn [List.length seq map app].
      rewrite Z.add_0_r. f_equal. rewrite <- seq_shift, map_map.
      apply map_ext. intros j. do 2 f_equal. unfold frameAt.
      rewrite Fr, Cu. do 2 f_equal.
      rewrite Nat2Z.inj_succ.
      rewrite <- Z.add_assoc, Zplus_mod_idemp_l. f_equal. lia.
    + rewrite C', Cu, Fr. rewrite Zplus_mod_idemp_l. f_equal.
      cbn [List.length]. lia.
Qed.

Lemma loader_cycles_frames_witness :
  exists l' env',
    loader.run stdout (ticks [30000000; 70000000; 110000000; 150000000; 190000000]%Z)
      (loader.newLoader loader.loaderDots 0) 1 ttyWorld = (Ok (l', 1%nat), env')
    /\ log env' = [Write stdout (clearLine ++ "..");
                   Write stdout (clearLine ++ "...");
                   Write stdout (clearLine ++ "");
                   Write stdout (clearLine ++ ".");
                   Write stdout (clearLine ++ "..")]
    /\ loader.current l' = 1%Z.
Proof.
  assert (I : inFrames (loader.newLoader loader.loaderDots 0))
    by (unfold inFrames; simpl; lia).
  assert (F : Forall (fun t => (20 * Millisecond
                                < t - loader.lastUpdate
                                        (loader.newLoader loader.loaderDots 0))%Z)
                [30000000; 70000000; 110000000; 150000000; 190000000]%Z)
    by (repeat constructor).
  destruct (loader_cycles_frames stdout _ _ 1%nat ttyWorld I (le_n 1) F)
    as (l' & env' & R & L & C).
  exists l', env'. split; [exact R|]. split; [exact L | exact C].
Defined.

(** X21.  A loader made for a type other than the two declared ones has
    no frames: the first tick that is shown panics, dividing by the
    length of the empty table. *)
Theorem loader_unknown_type_panics (lt now t : Z) (w : Writer)
        (acts : list loader.action) (env : world) :
  lt <> loader.loaderDots -> lt <> loader.loaderBraille ->
  (20 * Millisecond < t - now)%Z ->
  fst (loader.run w (loader.Start :: loader.Round (Tick t) :: acts)
         (loader.newLoader lt now) 0 env) = Panic.
Proof.
  intros D B T. cbn [loader.run]. unfold loader.newLoader.
  destruct (Z.eqb_spec lt loader.loaderDots); [contradiction|].
  destruct (Z.eqb_spec lt loader.loaderBraille); [contradiction|].
  cbn [loader.start loader.ready andb Nat.ltb Nat.leb loader.animate
       loader.loaderType loader.frames loader.current loader.active
       loader.lastUpdate loader.msgChan loader.stopChan].
  destruct (Z.ltb_spec (20 * Millisecond) (t - now)); [|lia].
  reflexivity.
Qed.

Lemma loader_unknown_type_panics_witness :
  fst (loader.run stdout [loader.Start; loader.Round (Tick 30000000)]
         (loader.newLoader 2 0) 0 ttyWorld) = Panic.
Proof.
  apply loader_unknown_type_panics; [discriminate | discriminate | reflexivity].
Defined.

(** ** spinner.go: the spinner *)

Lemma lookup_In (st : spinner.SpinnerType)
      (m : list (spinner.SpinnerType * spinner.spinnerDefinition))
      (d : spinner.spinnerDefinition) :
  spinner.lookup st m = Some d -> In (st, d) m.
Proof.
  induction m as [|[k e] m IH]; simpl; [discriminate|].
  destruct (String.eqb_spec st k) as [->|_].
  - intros H. inversion H. now left.
  - intros H. right. now apply IH.
Qed.

(** Every entry of the table has a positive interval and frames. *)
Lemma spinnerDefinitions_usable :
  Forall (fun e => usable (snd e)) spinner.spinnerDefinitions.
Proof.
  unfold spinner.spinnerDefinitions, usable.
  repeat (constructor; [simpl; split; [reflexivity | discriminate]|]).
  constructor.
Qed.

Lemma NewSpinner_usable (st : spinner.SpinnerType) (now : Z) :
  usable (spinner.definition (spinner.NewSpinner st now)).
Proof.
  unfold spinner.NewSpinner. cbn [spinner.definition].
  destruct (spinner.lookup st spinner.spinnerDefinitions) as [d|] eqn:E.
  - apply lookup_In in E.
    exact (proj1 (Forall_forall _ _) spinnerDefinitions_usable _ E).
  - unfold usable. simpl. split; [reflexivity | discriminate].
Qed.

(** The frame index of a spinner is inside its table of frames. *)
Lemma spinner_modulo_at (s : spinner.Spinner) :
  spinner.Frames (spinner.definition s) <> [] ->
  (0 <= spinner.current s)%Z ->
  exists frame,
    modulo (spinner.current s + 1)
      (Z.of_nat (List.length (spinner.Frames (spinner.definition s))))
    = Ok (Z.rem (spinner.current s + 1)
            (Z.of_nat (List.length (spinner.Frames (spinner.definition s)))))
    /\ at_ (spinner.Frames (spinner.definition s))
         (Z.rem (spinner.current s + 1)
            (Z.of_nat (List.length (spinner.Frames (spinner.definition s)))))
       = Ok frame
    /\ (0 <= Z.rem (spinner.current s + 1)
              (Z.of_nat (List.length (spinner.Frames (spinner.definition s)))))%Z.
Proof.
  intros N C.
  assert (L : (0 < Z.of_nat (List.length (spinner.Frames (spinner.definition s))))%Z).
  { destruct (spinner.Frames (spinner.definition s)); [congruence | simpl; lia]. }
  assert (R : (0 <= Z.rem (spinner.current s + 1)
                       (Z.of_nat (List.length (spinner.Frames (spinner.definition s))))
               < Z.of_nat (List.length (spinner.Frames (spinner.definition s))))%Z).
  { pose proof (Z.rem_bound_pos (spinner.current s + 1)
                  (Z.of_nat (List.length (spinner.Frames (spinner.definition s))))).
    lia. }
  destruct (at_in_range _ _ R) as (frame & A & _).
  exists frame. split; [|split; [exact A | lia]].
  unfold modulo.
  destruct (Z.eqb_spec (Z.of_nat (List.length (spinner.Frames (spinner.definition s)))) 0);
    [lia | reflexivity].
Qed.

Lemma spinner_animate_sound (w : Writer) (Render : string -> string -> string)
      (color : string) (ev : event) (s : spinner.Spinner) (env : world) :
  sound s ->
  fst (spinner.animate w Render color ev s env) <> Panic
  /\ forall s' env',
      spinner.animate w Render color ev s env = (Ok (Some s'), env') ->
      sound s' /\ spinner.active s' = spinner.active s
      /\ spinner.stopChan s' = spinner.stopChan s.
Proof.
  intros [[Hi Hf] Hc]. destruct ev as [|now|now]; cbn [spinner.animate].
  - destruct (Fprint w clearLine env). split; [simpl; discriminate|].
    intros ? ? H. discriminate.
  - split; [simpl; discriminate|]. intros ? ? H. inversion H; subst.
    repeat split; assumption.
  - destruct (100 * Millisecond <? now - spinner.lastUpdate s)%Z.
    + destruct (spinner_modulo_at s Hf Hc) as (frame & -> & -> & R).
      destruct (Fprint w _ env). split; [simpl; discriminate|].
      intros ? ? H. inversion H; subst. repeat split; assumption.
    + split; [simpl; discriminate|]. intros ? ? H. inversion H; subst.
      repeat split; assumption.
Qed.

(** What a run keeps when Start is called at most once: the spinner is
    sound, an active spinner has no Start left, and the channel is
    closed only when the spinner is inactive with no Start left. *)
Lemma spinner_run_safe (w : Writer) (Render : string -> string -> string)
      (acts : list spinner.action) :
  forall s color goroutines env,
    sound s ->
    (spinner.active s = true -> spinner.starts acts = 0%nat) ->
    (spinner.stopChan s = true ->
     spinner.active s = false /\ spinner.starts acts = 0%nat) ->
    (spinner.starts acts <= 1)%nat ->
    fst (spinner.run w Render acts s color goroutines env) <> Panic.
Proof.
  induction acts as [|a acts IH]; intros s color g env I A C S; [discriminate|].
  destruct a; cbn [spinner.run spinner.starts] in *.
  - unfold spinner.Start. destruct I as [[Hi Hf] Hc].
    destruct (Z.leb_spec (spinner.Interval (spinner.definition s)) 0) as [L|L];
      [lia|].
    apply IH; [repeat split; assumption | | | lia]; simpl.
    + intros _. lia.
    + intros X. destruct (C X). lia.
  - assert (U : sound (spinner.Update s)
                /\ spinner.active (spinner.Update s) = spinner.active s
                /\ spinner.stopChan (spinner.Update s) = spinner.stopChan s).
    { clear - I. destruct s as [d c a u m x y]. unfold spinner.Update. simpl.
      destruct a; [destruct (m <? 1)%nat|];
        (split; [exact I | split; reflexivity]). }
    destruct U as (U1 & U2 & U3).
    apply IH; [exact U1 | | | exact S]; rewrite ?U2, ?U3; assumption.
  - unfold spinner.Stop. destruct (spinner.active s) eqn:E.
    + destruct (spinner.stopChan s) eqn:X.
      * destruct (C eq_refl). congruence.
      * apply IH; [exact I | | | exact S]; simpl.
        -- discriminate.
        -- intros _. split; [reflexivity | now apply A].
    + apply IH; [exact I | rewrite E; exact A | rewrite E; exact C | exact S].
  - apply IH; assumption.
  - apply IH; assumption.
  - apply IH; assumption.
  - destruct ((0 <? g)%nat && spinner.ready ev s); [|now apply IH].
    destruct (spinner_animate_sound w Render color ev s env I) as [P K].
    destruct (spinner.animate w Render color ev s env) as [[[s'|]|e|] env'];
      simpl in *.
    + destruct (K s' env' eq_refl) as (I' & A' & C').
      apply IH; [exact I' | | | exact S]; rewrite ?A', ?C'; assumption.
    + now apply IH.
    + discriminate.
    + congruence.
Qed.

(** X22.  A spinner made by NewSpinner for any type, defined or not,
    never panics as long as Start is called at most once, however the
    calls of its methods and the rounds of its goroutine interleave:
    an undefined type falls back to the dots definition, every
    definition has a positive ticker interval and at least one frame,
    and stopChan is closed at most once. *)
Theorem spinner_runs_safely (st : spinner.SpinnerType) (now : Z) (w : Writer)
        (Render : string -> string -> string) (color : string)
        (acts : list spinner.action) (env : world) :
  (spinner.starts acts <= 1)%nat ->
  fst (spinner.run w Render acts (spinner.NewSpinner st now) color 0 env)
  <> Panic.
Proof.
  intros S. apply spinner_run_safe; [ | | | exact S].
  - split; [apply NewSpinner_usable | simpl; lia].
  - simpl. discriminate.
  - simpl. discriminate.
Qed.

Lemma spinner_runs_safely_witness :
  fst (spinner.run stdout (fun color frame => frame)
         [spinner.CallStart; spinner.CallUpdate; spinner.Round (Message 5);
          spinner.Round (Tick 200000000); spinner.CallStop; spinner.CallStop;
          spinner.Round Stopped]
         (spinner.NewSpinner "flip" 0) "#FFFFFF" 0 ttyWorld) <> Panic.
Proof.
  apply spinner_runs_safely. simpl. lia.
Defined.

(** X23.  GetSpinnerType returns a defined type for every name: the
    name itself when it is one of the fourteen names of its switch,
    and dots otherwise.  So the lookup of its result in
    spinnerDefinitions, which demonstrateSpinner tests before it
    reports an unknown spinner type, never fails. *)
Theorem GetSpinnerType_defined (name : string) :
  (spinner.GetSpinnerType name = name
   \/ spinner.GetSpinnerType name = spinner.SpinnerDots)
  /\ spinner.lookup (spinner.GetSpinnerType name) spinner.spinnerDefinitions
     <> None.
Proof.
  unfold spinner.GetSpinnerType.
  repeat match goal with
         | |- context [String.eqb name ?k] =>
             destruct (String.eqb_spec name k) as [->|_];
             [split; [left; reflexivity | discriminate]|]
         end.
  split; [right; reflexivity | discriminate].
Qed.

(** X24.  The names that spinnerDefinitions defines but GetSpinnerType
    does not recognise, so that asking for them gives the dots
    spinner, are exactly line2, pipe, circleHalves and toggle. *)
Theorem GetSpinnerType_misses (name : string) :
  (spinner.lookup name spinner.spinnerDefinitions <> None
   /\ spinner.GetSpinnerType name <> name)
  <-> In name ["line2"; "pipe"; "circleHalves"; "toggle"].
Proof.
  split.
  - intros [L G].
    destruct (spinner.lookup name spinner.spinnerDefinitions) as [d|] eqn:E;
      [clear L | congruence].
    apply lookup_In in E. apply (in_map fst) in E. simpl in E.
    repeat match type of E with
           | _ \/ _ => destruct E as [<- | E]
           | False => destruct E
           end;
      try (exfalso; apply G; reflexivity); simpl; tauto.
  - simpl. intros [<- | [<- | [<- | [<- | []]]]]; split; discriminate.
Qed.

(** ** main.go: validateOptions *)



(** ** main.go: the cursor position *)

Lemma digits_of_uint_acc (d : Decimal.uint) :
  forall acc : positive,
    position.digits (DecimalString.NilEmpty.string_of_uint d) (Z.pos acc)
    = Some (Z.pos (Pos.of_uint_acc d acc)).
Proof.
  induction d; intros acc;
    cbn [DecimalString.NilEmpty.string_of_uint Pos.of_uint_acc position.digits];
    [reflexivity|..];
    match goal with
    | |- context [nat_of_ascii ?c] =>
        let v := eval vm_compute in (Z.of_nat (nat_of_ascii c) - 48)%Z in
        change (Z.of_nat (nat_of_ascii c) - 48)%Z with v
    end;
    match goal with
    | |- context [if ?b then _ else _] => change b with true
    end;
    cbv iota; rewrite <- IHd; f_equal; lia.
Qed.

Lemma digits_of_uint (d : Decimal.uint) :
  position.digits (DecimalString.NilEmpty.string_of_uint d) 0
  = Some (Z.of_N (Pos.of_uint d)).
Proof.
  induction d;
    cbn [DecimalString.NilEmpty.string_of_uint Pos.of_uint position.digits];
    [reflexivity|..];
    match goal with
    | |- context [nat_of_ascii ?c] =>
        let v := eval vm_compute in (Z.of_nat (nat_of_ascii c) - 48)%Z in
        change (Z.of_nat (nat_of_ascii c) - 48)%Z with v
    end;
    match goal with
    | |- context [if ?b then _ else _] => change b with true
    end;
    cbv iota; cbn [Z.mul Z.add]; [exact IHd | apply digits_of_uint_acc ..].
Qed.

Lemma uint_string_numeric (d : Decimal.uint) :
  allb numeric (DecimalString.NilEmpty.string_of_uint d) = true.
Proof. induction d; simpl; [reflexivity | exact IHd ..]. Qed.

Lemma uint_string_numeric0 (d : Decimal.uint) :
  allb numeric (DecimalString.NilZero.string_of_uint d) = true.
Proof.
  destruct d; [reflexivity | simpl; apply uint_string_numeric ..].
Qed.

Lemma Itoa_numeric (n : Z) : allb numeric (position.Itoa n) = true.
Proof.
  unfold position.Itoa. destruct n as [|p|p]; try reflexivity;
    cbn [Z.to_int DecimalString.NilZero.string_of_int allb].
  - apply uint_string_numeric0.
  - change (numeric "-") with true. apply uint_string_numeric0.
Qed.

(** The digit loop on the digits of a number. *)
Lemma digits_of_uint0 (d : Decimal.uint) :
  exists c rest,
    DecimalString.NilZero.string_of_uint d = String c rest
    /\ Ascii.eqb c "-" || Ascii.eqb c "+" = false
    /\ position.digits (String c rest) 0 = Some (Z.of_N (Pos.of_uint d)).
Proof.
  pose proof (digits_of_uint d) as H.
  destruct d; cbn [DecimalString.NilZero.string_of_uint];
    [exists "0"%char, ""; repeat split | ..];
    cbn [DecimalString.NilEmpty.string_of_uint] in *;
    eexists _, _; (split; [reflexivity | split; [reflexivity | exact H]]).
Qed.

Lemma Atoi_Itoa (n : Z) : isInt n -> position.Atoi (position.Itoa n) = position.Done n.
Proof.
  unfold isInt, position.Itoa. intros R.
  destruct n as [|p|p]; [reflexivity | |];
    cbn [Z.to_int DecimalString.NilZero.string_of_int].
  - destruct (digits_of_uint0 (Pos.to_uint p)) as (c & rest & -> & S & D).
    unfold position.Atoi. rewrite S, D.
    rewrite DecimalPos.Unsigned.of_to. cbn [Z.of_N].
    apply orb_false_iff in S as [-> _].
    destruct (Z.leb_spec (- 2 ^ 63) (Z.pos p)); [|lia].
    destruct (Z.leb_spec (Z.pos p) (2 ^ 63 - 1)); [reflexivity | lia].
  - destruct (digits_of_uint0 (Pos.to_uint p)) as (c & rest & -> & S & D).
    unfold position.Atoi. change (Ascii.eqb "-" "-") with true. cbn [orb].
    rewrite D, DecimalPos.Unsigned.of_to. cbn [Z.of_N Z.opp].
    destruct (Z.leb_spec (- 2 ^ 63) (Z.neg p)); [|lia].
    destruct (Z.leb_spec (Z.neg p) (2 ^ 63 - 1)); [reflexivity | lia].
Qed.

Lemma Atoi_no_panic (s : string) : position.Atoi s <> position.Panicked.
Proof.
  unfold position.Atoi. destruct s as [|s0 rest]; [discriminate|].
  destruct (if Ascii.eqb s0 "-" || Ascii.eqb s0 "+" then rest else String s0 rest);
    [discriminate|].
  destruct (position.digits _ 0); [|discriminate].
  destruct (_ && _)%bool; discriminate.
Qed.

Lemma allb_impl (p q : ascii -> bool) (s : string) :
  (forall c, p c = true -> q c = true) -> allb p s = true -> allb q s = true.
Proof.
  intros I. induction s as [|c s IH]; simpl; [reflexivity|].
  intros H. apply andb_true_iff in H as [H1 H2].
  now rewrite (I c H1), IH.
Qed.

Lemma numeric_not_semicolon (c : ascii) :
  numeric c = true -> negb (Ascii.eqb c ";") = true.
Proof.
  destruct (Ascii.eqb_spec c ";") as [->|_]; [discriminate | reflexivity].
Qed.

Lemma Split_plain (s : string) (sep : ascii) :
  allb (fun c => negb (Ascii.eqb c sep)) s = true -> position.Split s sep = [s].
Proof.
  induction s as [|c s IH]; simpl; [reflexivity|].
  intros H. apply andb_true_iff in H as [H1 H2].
  apply negb_true_iff in H1. now rewrite H1, IH.
Qed.

Lemma Split_append (a b : string) (sep : ascii) :
  allb (fun c => negb (Ascii.eqb c sep)) a = true ->
  position.Split (a ++ String sep b) sep = a :: position.Split b sep.
Proof.
  induction a as [|c a IH]; simpl.
  - intros _. now rewrite Ascii.eqb_refl.
  - intros H. apply andb_true_iff in H as [H1 H2].
    apply negb_true_iff in H1. now rewrite H1, IH.
Qed.

Lemma HasSuffix_append (s t : string) : position.HasSuffix (s ++ t) t = true.
Proof.
  unfold position.HasSuffix. rewrite length_append.
  replace (String.length s + String.length t - String.length t)%nat
    with (String.length s) by lia.
  rewrite substring_append_r, String.eqb_refl, andb_true_r.
  apply Nat.leb_le. lia.
Qed.

Lemma substring_short (n : nat) (s : string) :
  (String.length s <= n)%nat -> substring 0 n s = s.
Proof.
  revert n. induction s as [|c s IH]; intros [|n] H; simpl in *;
    try reflexivity; try lia.
  rewrite IH; [reflexivity | lia].
Qed.

(** Between the prefix and the suffix that getTerminalPosition has
    tested, the slice is in range. *)
Lemma slice_between (response : string) :
  strings.HasPrefix response (esc "[") = true ->
  position.HasSuffix response "R" = true ->
  exists mid, position.slice response 2 (Z.of_nat (String.length response) - 1)
              = position.Done mid.
Proof.
  intros P S. apply HasPrefix_iff in P as [t ->].
  destruct t as [|c t]; [discriminate S|].
  unfold position.slice. eexists.
  destruct (_ && _)%bool eqn:E; [reflexivity|].
  exfalso. simpl String.length in E.
  rewrite !andb_false_iff, !Z.leb_gt in E. lia.
Qed.

Lemma slice_report (mid : string) :
  position.slice (esc "[" ++ mid ++ "R") 2
    (Z.of_nat (String.length (esc "[" ++ mid ++ "R")) - 1)
  = position.Done mid.
Proof.
  unfold position.slice.
  change (esc "[" ++ mid ++ "R") with (String ESC (String "[" (mid ++ "R"))).
  cbn [String.length]. rewrite length_append. cbn [String.length].
  destruct (_ && _)%bool eqn:E.
  - f_equal.
    replace (Z.to_nat (Z.of_nat (S (S (String.length mid + 1))) - 1 - 2))
      with (String.length mid) by lia.
    change (Z.to_nat 2) with 2%nat. cbn [substring].
    apply substring_append_l.
  - exfalso. rewrite !andb_false_iff, !Z.leb_gt in E. lia.
Qed.

Lemma fails_tl (n : nat) (env env' : world) :
  faults env' = tl (faults env) -> fails n env' = fails (S n) env.
Proof.
  unfold fails. intros ->. destruct (faults env) as [|b rest]; [|reflexivity].
  destruct n; reflexivity.
Qed.

Lemma termMakeRaw_ok (f : fd) (env : world) :
  fails 0 env = false ->
  exists env1,
    termMakeRaw (Some f) env = (Ok (termMode env), env1)
    /\ log env1 = (log env ++ [MakeRaw f])%list
    /\ faults env1 = tl (faults env).
Proof.
  unfold fails, termMakeRaw, syscall. intros F.
  destruct (faults env) as [|b rest]; simpl in *; [|subst b];
    eexists; repeat split.
Qed.

Lemma write_query (f : fd) (env : world) :
  exists r env2,
    FprintFile (Some f) position.query env = (r, env2)
    /\ r <> Panic
    /\ (fails 0 env = false -> r = Ok tt)
    /\ log env2 = (log env ++ [Write (File f) position.query])%list
    /\ faults env2 = tl (faults env).
Proof.
  unfold fails, FprintFile, Fprint, syscall.
  destruct (faults env) as [|[] rest]; simpl; eexists _, _;
    repeat split; try discriminate; reflexivity.
Qed.

Lemma deferRestore_spec (f : fd) (st : State) (r : position.outcome position.terminalPosition)
      (env : world) :
  fst (position.deferRestore (Some f) st r env) = r
  /\ log (snd (position.deferRestore (Some f) st r env))
     = (log env ++ [Restore f st])%list
  /\ (fails 0 env = false ->
      termMode (snd (position.deferRestore (Some f) st r env)) = st).
Proof.
  unfold fails, position.deferRestore, termRestore, syscall.
  destruct (faults env) as [|[] rest]; simpl; repeat split; discriminate.
Qed.

(** After MakeRaw has succeeded, getTerminalPosition returns through
    the deferred Restore with an outcome that is no panic. *)
Lemma getTerminalPosition_deferred (f : fd) (read : position.readResult)
      (env : world) :
  tty env f = true -> fails 0 env = false ->
  exists r env2,
    position.getTerminalPosition (Some f) read env
    = position.deferRestore (Some f) (termMode env) r env2
    /\ r <> position.Panicked
    /\ log env2 = (log env ++ [MakeRaw f; Write (File f) position.query])%list
    /\ fails 0 env2 = fails 2 env.
Proof.
  intros T F0. unfold position.getTerminalPosition. rewrite T. cbn [negb].
  destruct (termMakeRaw_ok f env F0) as (env1 & -> & L1 & F1).
  destruct (write_query f env1) as (r & env2 & -> & NP & _ & L2 & F2).
  assert (L : log env2 = (log env ++ [MakeRaw f; Write (File f) position.query])%list)
    by (rewrite L2, L1, <- app_assoc; reflexivity).
  assert (F : fails 0 env2 = fails 2 env)
    by (rewrite (fails_tl 0 env1 env2 F2); apply fails_tl, F1).
  destruct r as [[]|e|]; [| |congruence].
  - destruct read as [arrived|e].
    + destruct (negb (strings.HasPrefix (substring 0 position.bufSize arrived) (esc "["))
                || negb (position.HasSuffix (substring 0 position.bufSize arrived) "R"))
        eqn:G.
      * eexists _, env2. split; [reflexivity|]. repeat split; try assumption.
        discriminate.
      * apply orb_false_iff in G as [G1 G2].
        apply negb_false_iff in G1, G2.
        destruct (slice_between _ G1 G2) as [mid ->].
        destruct (position.Split mid ";") as [|p0 [|p1 [|p2 ps]]];
          try (eexists _, env2; split; [reflexivity|]; repeat split;
               try assumption; discriminate).
        pose proof (Atoi_no_panic p0) as N0. pose proof (Atoi_no_panic p1) as N1.
        destruct (position.Atoi p0); [| |congruence].
        -- destruct (position.Atoi p1); [| |congruence];
             (eexists _, env2; split; [reflexivity|]; repeat split;
              try assumption; discriminate).
        -- eexists _, env2; split; [reflexivity|]; repeat split;
             try assumption; discriminate.
    + eexists _, env2. split; [reflexivity|]. repeat split; try assumption.
      discriminate.
  - eexists _, env2. split; [reflexivity|]. repeat split; try assumption.
    discriminate.
Qed.

(** X26.  On a terminal on which MakeRaw succeeds, getTerminalPosition
    restores the saved mode on every return, whatever the write and
    the read give and whatever the bytes of the answer are: it never
    panics, the calls it makes are MakeRaw, the write of the query and
    Restore with the mode MakeRaw returned, and the mode at the end is
    the mode at the start unless the Restore call itself fails. *)
Theorem getTerminalPosition_restores (f : fd) (read : position.readResult)
        (env : world) :
  tty env f = true -> fails 0 env = false ->
  fst (position.getTerminalPosition (Some f) read env) <> position.Panicked
  /\ log (snd (position.getTerminalPosition (Some f) read env))
     = (log env ++ [MakeRaw f; Write (File f) position.query;
                    Restore f (termMode env)])%list
  /\ (fails 2 env = false ->
      termMode (snd (position.getTerminalPosition (Some f) read env))
      = termMode env).
Proof.
  intros T F0.
  destruct (getTerminalPosition_deferred f read env T F0)
    as (r & env2 & -> & NP & L & F).
  destruct (deferRestore_spec f (termMode env) r env2) as (R1 & R2 & R3).
  rewrite R1, R2, L, <- app_assoc. repeat split; [exact NP|].
  rewrite <- F. exact R3.
Qed.

Lemma getTerminalPosition_restores_witness :
  fst (position.getTerminalPosition (Some 1%Z) (position.Bytes "garbage") ttyWorld)
  <> position.Panicked
  /\ log (snd (position.getTerminalPosition (Some 1%Z) (position.Bytes "garbage")
                ttyWorld))
     = [MakeRaw 1%Z; Write (File 1%Z) position.query; Restore 1%Z Cooked]
  /\ (fails 2 ttyWorld = false ->
      termMode (snd (position.getTerminalPosition (Some 1%Z)
                       (position.Bytes "garbage") ttyWorld))
      = Cooked).
Proof.
  exact (getTerminalPosition_restores 1%Z (position.Bytes "garbage") ttyWorld
           eq_refl eq_refl).
Defined.

(** X27.  The parser of getTerminalPosition reads back the numbers a
    terminal reports: when the calls succeed and the answer is ESC [,
    the row and the column in decimal separated by a semicolon, and R,
    fitting the buffer of 32 bytes, the position returned has this
    row and this column, and moveTo of it is the same sequence ending
    in H. *)
Theorem getTerminalPosition_reads_report (f : fd) (row col : Z) (env : world) :
  tty env f = true -> fails 0 env = false -> fails 1 env = false ->
  isInt row -> isInt col ->
  (String.length (position.report row col) <= position.bufSize)%nat ->
  fst (position.getTerminalPosition (Some f)
         (position.Bytes (position.report row col)) env)
  = position.Done (position.mkPosition row col)
  /\ exists body,
      position.report row col = body ++ "R"
      /\ position.moveTo (position.mkPosition row col) = body ++ "H".
Proof.
  intros T F0 F1 Ir Ic Len. split.
  - unfold position.getTerminalPosition. rewrite T. cbn [negb].
    destruct (termMakeRaw_ok f env F0) as (env1 & -> & L1 & Fa1).
    destruct (write_query f env1) as (r & env2 & -> & _ & K & _ & _).
    rewrite K by (rewrite (fails_tl 0 env env1 Fa1); exact F1).
    rewrite (substring_short _ _ Len).
    unfold position.report at 1 2.
    rewrite HasPrefix_append.
    replace (esc "[" ++ position.Itoa row ++ ";" ++ position.Itoa col ++ "R")
      with ((esc "[" ++ position.Itoa row ++ ";" ++ position.Itoa col) ++ "R")
      by (rewrite !append_assoc; reflexivity).
    rewrite HasSuffix_append. cbn [negb orb].
    unfold position.report.
    replace (esc "[" ++ position.Itoa row ++ ";" ++ position.Itoa col ++ "R")
      with (esc "[" ++ (position.Itoa row ++ ";" ++ position.Itoa col) ++ "R")
      by (rewrite !append_assoc; reflexivity).
    rewrite slice_report.
    change (position.Itoa row ++ ";" ++ position.Itoa col)
      with (position.Itoa row ++ String ";" (position.Itoa col)).
    rewrite Split_append
      by (apply (allb_impl numeric); [apply numeric_not_semicolon | apply Itoa_numeric]).
    rewrite Split_plain
      by (apply (allb_impl numeric); [apply numeric_not_semicolon | apply Itoa_numeric]).
    rewrite !Atoi_Itoa by assumption.
    apply deferRestore_spec.
  - exists (esc "[" ++ position.Itoa row ++ ";" ++ position.Itoa col).
    unfold position.moveTo, position.report. cbn [position.row position.column].
    rewrite !append_assoc. split; reflexivity.
Qed.

Lemma getTerminalPosition_reads_report_witness :
  fst (position.getTerminalPosition (Some 1%Z)
         (position.Bytes (position.report 24 80)) ttyWorld)
  = position.Done (position.mkPosition 24 80)
  /\ exists body,
      position.report 24 80 = body ++ "R"
      /\ position.moveTo (position.mkPosition 24 80) = body ++ "H".
Proof.
  apply getTerminalPosition_reads_report;
    try reflexivity; try (unfold isInt; lia).
  vm_compute. lia.
Defined.
